(** * goldmark [util]: copy-on-write buffer, escaping pipeline, bytes filter

    A shallow embedding of [util/util.go] and the properties of its
    copy-on-write buffer, of its escape / unescape / reference-resolution
    scanners and of its hash-bucketed bytes filter.

    Conventions of the embedding.
    - A Go [byte] is a [Byte.byte]; a [[]byte] that is only read is a
      [list byte]; a Go [string] is a [list byte] too.
    - A Go [int] used as an index or a length is a [nat]: every subtraction
      the scanners perform on such a value is guarded by the loop condition,
      so truncated subtraction agrees with the Go one.
    - A function returns [None] when the Go code would panic (index or slice
      out of range) or when the fuel of a loop is exhausted; the theorems
      establish [Some] results.
    - A loop [for i := 0; i < limit; ...] is a [Fixpoint] on fuel whose
      arguments are the loop's live variables. *)

From Stdlib Require Import Strings.Byte Strings.String NArith ZArith Lia.
From stdpp Require Import base option list.

Local Open Scope byte_scope.
Local Open Scope nat_scope.

(** ** Bytes, strings and slices *)

#[global] Instance byte_eq_dec : EqDecision byte := Byte.byte_eq_dec.

(** [[]byte("...")]: the bytes of a string literal. *)
Definition bytes_of (s : string) : list byte := list_byte_of_string s.

(** [t[c]] for a [[256]int8] table [t] and a byte [c]. *)
Definition table_at (t : list nat) (c : byte) : nat :=
  default 0 (t !! Byte.to_nat c).

(** [v[lo:hi]]. Go panics unless [lo <= hi <= cap(v)]; the scanners never
    slice past [len(v)], so the embedding takes [cap(v) = len(v)]. *)
Definition slice (v : list byte) (lo hi : nat) : option (list byte) :=
  if decide (lo ≤ hi ∧ hi ≤ length v) then Some (take (hi - lo) (drop lo v))
  else None.

(** [a && b] where evaluating [b] may panic: [b] is evaluated only when
    [a] holds. *)
Definition and_then (a : bool) (b : option bool) : option bool :=
  if a then b else Some false.

Definition byte_le (a b : byte) : bool := Byte.to_nat a <=? Byte.to_nat b.

(** ** Classification tables (transcribed from the source) *)

Definition punctTable : list nat :=
  [
   0; 0; 0; 0; 0; 0; 0; 0; 0; 0; 0; 0; 0; 0; 0; 0;
   0; 0; 0; 0; 0; 0; 0; 0; 0; 0; 0; 0; 0; 0; 0; 0;
   0; 1; 1; 1; 1; 1; 1; 1; 1; 1; 1; 1; 1; 1; 1; 1;
   0; 0; 0; 0; 0; 0; 0; 0; 0; 0; 1; 1; 1; 1; 1; 1;
   1; 0; 0; 0; 0; 0; 0; 0; 0; 0; 0; 0; 0; 0; 0; 0;
   0; 0; 0; 0; 0; 0; 0; 0; 0; 0; 0; 1; 1; 1; 1; 1;
   1; 0; 0; 0; 0; 0; 0; 0; 0; 0; 0; 0; 0; 0; 0; 0;
   0; 0; 0; 0; 0; 0; 0; 0; 0; 0; 0; 1; 1; 1; 1; 0;
   0; 0; 0; 0; 0; 0; 0; 0; 0; 0; 0; 0; 0; 0; 0; 0;
   0; 0; 0; 0; 0; 0; 0; 0; 0; 0; 0; 0; 0; 0; 0; 0;
   0; 0; 0; 0; 0; 0; 0; 0; 0; 0; 0; 0; 0; 0; 0; 0;
   0; 0; 0; 0; 0; 0; 0; 0; 0; 0; 0; 0; 0; 0; 0; 0;
   0; 0; 0; 0; 0; 0; 0; 0; 0; 0; 0; 0; 0; 0; 0; 0;
   0; 0; 0; 0; 0; 0; 0; 0; 0; 0; 0; 0; 0; 0; 0; 0;
   0; 0; 0; 0; 0; 0; 0; 0; 0; 0; 0; 0; 0; 0; 0; 0;
   0; 0; 0; 0; 0; 0; 0; 0; 0; 0; 0; 0; 0; 0; 0; 0
  ].

Definition urlEscapeTable : list nat :=
  [
   0; 0; 0; 0; 0; 0; 0; 0; 0; 0; 0; 0; 0; 0; 0; 0;
   0; 0; 0; 0; 0; 0; 0; 0; 0; 0; 0; 0; 0; 0; 0; 0;
   0; 1; 0; 1; 1; 0; 1; 1; 1; 1; 1; 1; 1; 1; 1; 1;
   1; 1; 1; 1; 1; 1; 1; 1; 1; 1; 1; 1; 0; 1; 0; 1;
   1; 1; 1; 1; 1; 1; 1; 1; 1; 1; 1; 1; 1; 1; 1; 1;
   1; 1; 1; 1; 1; 1; 1; 1; 1; 1; 1; 0; 0; 0; 0; 1;
   0; 1; 1; 1; 1; 1; 1; 1; 1; 1; 1; 1; 1; 1; 1; 1;
   1; 1; 1; 1; 1; 1; 1; 1; 1; 1; 1; 0; 0; 0; 1; 0;
   0; 0; 0; 0; 0; 0; 0; 0; 0; 0; 0; 0; 0; 0; 0; 0;
   0; 0; 0; 0; 0; 0; 0; 0; 0; 0; 0; 0; 0; 0; 0; 0;
   0; 0; 0; 0; 0; 0; 0; 0; 0; 0; 0; 0; 0; 0; 0; 0;
   0; 0; 0; 0; 0; 0; 0; 0; 0; 0; 0; 0; 0; 0; 0; 0;
   0; 0; 0; 0; 0; 0; 0; 0; 0; 0; 0; 0; 0; 0; 0; 0;
   0; 0; 0; 0; 0; 0; 0; 0; 0; 0; 0; 0; 0; 0; 0; 0;
   0; 0; 0; 0; 0; 0; 0; 0; 0; 0; 0; 0; 0; 0; 0; 0;
   0; 0; 0; 0; 0; 0; 0; 0; 0; 0; 0; 0; 0; 0; 0; 0
  ].

Definition utf8lenTable : list nat :=
  [
   1; 1; 1; 1; 1; 1; 1; 1; 1; 1; 1; 1; 1; 1; 1; 1;
   1; 1; 1; 1; 1; 1; 1; 1; 1; 1; 1; 1; 1; 1; 1; 1;
   1; 1; 1; 1; 1; 1; 1; 1; 1; 1; 1; 1; 1; 1; 1; 1;
   1; 1; 1; 1; 1; 1; 1; 1; 1; 1; 1; 1; 1; 1; 1; 1;
   1; 1; 1; 1; 1; 1; 1; 1; 1; 1; 1; 1; 1; 1; 1; 1;
   1; 1; 1; 1; 1; 1; 1; 1; 1; 1; 1; 1; 1; 1; 1; 1;
   1; 1; 1; 1; 1; 1; 1; 1; 1; 1; 1; 1; 1; 1; 1; 1;
   1; 1; 1; 1; 1; 1; 1; 1; 1; 1; 1; 1; 1; 1; 1; 1;
   99; 99; 99; 99; 99; 99; 99; 99; 99; 99; 99; 99; 99; 99; 99; 99;
   99; 99; 99; 99; 99; 99; 99; 99; 99; 99; 99; 99; 99; 99; 99; 99;
   99; 99; 99; 99; 99; 99; 99; 99; 99; 99; 99; 99; 99; 99; 99; 99;
   99; 99; 99; 99; 99; 99; 99; 99; 99; 99; 99; 99; 99; 99; 99; 99;
   99; 99; 2; 2; 2; 2; 2; 2; 2; 2; 2; 2; 2; 2; 2; 2;
   2; 2; 2; 2; 2; 2; 2; 2; 2; 2; 2; 2; 2; 2; 2; 2;
   3; 3; 3; 3; 3; 3; 3; 3; 3; 3; 3; 3; 3; 3; 3; 3;
   4; 4; 4; 4; 4; 4; 4; 4; 99; 99; 99; 99; 99; 99; 99; 99
  ].

(** [htmlEscapeTable]: [nil] everywhere except at the four bytes
    0x22, 0x26, 0x3c and 0x3e. *)
Definition htmlEscapeTable : list (option (list byte)) :=
  replicate 34 None ++ [Some (bytes_of "&quot;")] ++
  replicate 3 None ++ [Some (bytes_of "&amp;")] ++
  replicate 21 None ++ [Some (bytes_of "&lt;"); None; Some (bytes_of "&gt;")] ++
  replicate 193 None.

Definition EscapeHTMLByte (b : byte) : option (list byte) :=
  default None (htmlEscapeTable !! Byte.to_nat b).

Definition IsPunct (c : byte) : bool := table_at punctTable c =? 1.

Definition IsNumeric (c : byte) : bool := byte_le "0" c && byte_le c "9".

Definition IsHexDecimal (c : byte) : bool :=
  byte_le "0" c && byte_le c "9" || byte_le "a" c && byte_le c "f"
  || byte_le "A" c && byte_le c "F".

Definition IsAlphaNumeric (c : byte) : bool :=
  byte_le "a" c && byte_le c "z" || byte_le "A" c && byte_le c "Z"
  || byte_le "0" c && byte_le c "9".

(** ** CopyOnWriteBuffer *)

Record CopyOnWriteBuffer := mkCob { buffer : list byte; copied : bool }.

Definition NewCopyOnWriteBuffer (b : list byte) : CopyOnWriteBuffer :=
  {| buffer := b; copied := false |}.

(** [Write]: the first write drops the borrowed view and starts from an empty
    owned buffer (the capacity hint has no observable effect). *)
Definition Write (b : CopyOnWriteBuffer) (value : list byte) : CopyOnWriteBuffer :=
  let b := if negb (copied b) then {| buffer := []; copied := true |} else b in
  {| buffer := buffer b ++ value; copied := copied b |}.

Definition WriteString (b : CopyOnWriteBuffer) (value : list byte) : CopyOnWriteBuffer :=
  Write b value.

(** [Append]: the first append copies the borrowed view. *)
Definition Append (b : CopyOnWriteBuffer) (value : list byte) : CopyOnWriteBuffer :=
  let b := if negb (copied b) then {| buffer := buffer b; copied := true |} else b in
  {| buffer := buffer b ++ value; copied := copied b |}.

Definition AppendString (b : CopyOnWriteBuffer) (value : list byte) : CopyOnWriteBuffer :=
  Append b value.

Definition WriteByte (b : CopyOnWriteBuffer) (c : byte) : CopyOnWriteBuffer :=
  let b := if negb (copied b) then {| buffer := []; copied := true |} else b in
  {| buffer := buffer b ++ [c]; copied := copied b |}.

Definition AppendByte (b : CopyOnWriteBuffer) (c : byte) : CopyOnWriteBuffer :=
  let b := if negb (copied b) then {| buffer := buffer b; copied := true |} else b in
  {| buffer := buffer b ++ [c]; copied := copied b |}.

Definition Bytes (b : CopyOnWriteBuffer) : list byte := buffer b.

Definition IsCopied (b : CopyOnWriteBuffer) : bool := copied b.

(** The tail shared by every scanner:
    [if cob.IsCopied() { cob.Write(v[n:]) }; return cob.Bytes()],
    keeping the buffer so that the flag can be observed. *)
Definition flush_tail (v : list byte) (n : nat) (cob : CopyOnWriteBuffer)
  : option CopyOnWriteBuffer :=
  if IsCopied cob then s ← slice v n (length v); Some (Write cob s)
  else Some cob.

(** ** EscapeHTML *)

Fixpoint EscapeHTML_loop (fuel : nat) (v : list byte) (i n : nat)
    (cob : CopyOnWriteBuffer) : option (nat * CopyOnWriteBuffer) :=
  match fuel with
  | 0 => None
  | S fuel' =>
    if decide (i < length v) then
      c ← v !! i;
      match EscapeHTMLByte c with
      | Some escaped =>
        s ← slice v n i;
        let cob := Write cob s in
        let cob := Write cob escaped in
        EscapeHTML_loop fuel' v (i + 1) (i + 1) cob
      | None => EscapeHTML_loop fuel' v (i + 1) n cob
      end
    else Some (n, cob)
  end.

(** The buffer [EscapeHTML] ends with; [EscapeHTML] returns its bytes. *)
Definition EscapeHTML_cob (v : list byte) : option CopyOnWriteBuffer :=
  '(n, cob) ← EscapeHTML_loop (S (length v)) v 0 0 (NewCopyOnWriteBuffer v);
  flush_tail v n cob.

Definition EscapeHTML (v : list byte) : option (list byte) :=
  Bytes <$> EscapeHTML_cob v.


(** ** ReadWhile *)

(** [for ; j < index[1]; j++ { if pred(source[j]) { ok = true; continue }; break }] *)
Fixpoint ReadWhile_loop (fuel : nat) (source : list byte) (j stop : nat)
    (pred : byte → bool) (ok : bool) : option (nat * bool) :=
  match fuel with
  | 0 => None
  | S fuel' =>
    if decide (j < stop) then
      c1 ← source !! j;
      if pred c1 then ReadWhile_loop fuel' source (j + 1) stop pred true
      else Some (j, ok)
    else Some (j, ok)
  end.

Definition ReadWhile (source : list byte) (index : nat * nat)
    (pred : byte → bool) : option (nat * bool) :=
  ReadWhile_loop (S (index.2 - index.1)) source index.1 index.2 pred false.

(** ** UnescapePunctuations *)

Fixpoint UnescapePunctuations_loop (fuel : nat) (source : list byte) (i n : nat)
    (cob : CopyOnWriteBuffer) : option (nat * CopyOnWriteBuffer) :=
  let limit := length source in
  match fuel with
  | 0 => None
  | S fuel' =>
    if decide (i < limit) then
      c ← source !! i;
      esc ← and_then (bool_decide (i < limit - 1) && bool_decide (c = "\"))
                     (c1 ← source !! (i + 1); Some (IsPunct c1));
      if (esc : bool) then
        s ← slice source n i;
        let cob := Write cob s in
        c1 ← source !! (i + 1);
        let cob := WriteByte cob c1 in
        UnescapePunctuations_loop fuel' source (i + 2) (i + 2) cob
      else UnescapePunctuations_loop fuel' source (i + 1) n cob
    else Some (n, cob)
  end.

Definition UnescapePunctuations_cob (source : list byte) : option CopyOnWriteBuffer :=
  '(n, cob) ← UnescapePunctuations_loop (S (length source)) source 0 0
                 (NewCopyOnWriteBuffer source);
  flush_tail source n cob.

Definition UnescapePunctuations (source : list byte) : option (list byte) :=
  Bytes <$> UnescapePunctuations_cob source.

(** ** Go library functions used by the resolvers

    [strconv.ParseUint], [utf8.ValidRune], [utf8.EncodeRune] and
    [url.QueryEscape] belong to the Go standard library; they are embedded
    from its sources. A [uint64] is a [Z] reduced modulo [2^64], a [rune] is
    a [Z] in the [int32] range. *)

Definition byte_z (c : byte) : Z := Z.of_N (Byte.to_N c).

(** [byte(x)]: the low eight bits. *)
Definition byte_of_Z (z : Z) : byte :=
  default x00 (Byte.of_N (Z.to_N (z mod 256))).

(** [lower(c) = c | ('x' - 'X')] of [strconv]. *)
Definition lower (c : byte) : Z := Z.lor (byte_z c) 32.

(** The digit switch of [ParseUint]; [None] is its [default] case. The
    underscore case is left out: the strings the resolvers pass are runs of
    [IsNumeric] or [IsHexDecimal] bytes. *)
Definition digit_val (c : byte) : option Z :=
  if byte_le "0" c && byte_le c "9" then Some (byte_z c - 48)%Z
  else if (97 <=? lower c)%Z && (lower c <=? 122)%Z then Some (lower c - 97 + 10)%Z
  else None.

Definition maxUint64 : Z := 2 ^ 64 - 1.

(** The digit loop; a syntax error returns 0 and a range error [maxVal]. *)
Fixpoint ParseUint_digits (s : list byte) (base cutoff maxVal n : Z) : Z :=
  match s with
  | [] => n
  | c :: s' =>
    match digit_val c with
    | None => 0
    | Some d =>
      if (d >=? base)%Z then 0
      else if (n >=? cutoff)%Z then maxVal
      else
        let n := ((n * base) mod 2 ^ 64)%Z in
        let n1 := ((n + d) mod 2 ^ 64)%Z in
        if (n1 <? n)%Z || (n1 >? maxVal)%Z then maxVal
        else ParseUint_digits s' base cutoff maxVal n1
    end
  end.

(** [v, _ := strconv.ParseUint(s, base, bitSize)] for [base] 0 or in
    [2..36]: the value alone, since both callers drop the error. With
    [base = 0] a leading ["0"] selects base 2, 8 or 16 by the letter that
    follows it, and base 8 otherwise. *)
Definition ParseUint (s : list byte) (base : Z) (bitSize : Z) : Z :=
  match s with
  | [] => 0%Z
  | c0 :: _ =>
    let '(base, s) :=
      if (base =? 0)%Z then
        if bool_decide (c0 = "0") then
          match s !! 1 with
          | Some c1 =>
            if bool_decide (3 ≤ length s) && (lower c1 =? 98)%Z then (2%Z, drop 2 s)
            else if bool_decide (3 ≤ length s) && (lower c1 =? 111)%Z then (8%Z, drop 2 s)
            else if bool_decide (3 ≤ length s) && (lower c1 =? 120)%Z then (16%Z, drop 2 s)
            else (8%Z, drop 1 s)
          | None => (8%Z, drop 1 s)
          end
        else (10%Z, s)
      else (base, s) in
    let bitSize := if (bitSize =? 0)%Z then 64%Z else bitSize in
    let cutoff := (maxUint64 / base + 1)%Z in
    let maxVal := (2 ^ bitSize - 1)%Z in
    ParseUint_digits s base cutoff maxVal 0
  end.

(** [rune(v)] for a [uint64] [v]: the low 32 bits read as an [int32]. *)
Definition rune_of_uint64 (v : Z) : Z :=
  let w := (v mod 2 ^ 32)%Z in
  if (w <? 2 ^ 31)%Z then w else (w - 2 ^ 32)%Z.

Definition RuneError : Z := 65533.
Definition MaxRune : Z := 1114111.
Definition surrogateMin : Z := 55296.
Definition surrogateMax : Z := 57343.

Definition ValidRune (r : Z) : bool :=
  if (0 <=? r)%Z && (r <? surrogateMin)%Z then true
  else if (surrogateMax <? r)%Z && (r <=? MaxRune)%Z then true
  else false.

(** ToValidRune returns 0xFFFD if the given rune is invalid, otherwise v. *)
Definition ToValidRune (v : Z) : Z :=
  if (v =? 0)%Z || negb (ValidRune v) then 65533%Z else v.

Definition encode3 (r : Z) : list byte :=
  [ byte_of_Z (Z.lor 224 (Z.shiftr r 12 mod 256));
    byte_of_Z (Z.lor 128 (Z.land (Z.shiftr r 6 mod 256) 63));
    byte_of_Z (Z.lor 128 (Z.land (r mod 256) 63)) ].

(** [utf8.EncodeRune(buf, r)] followed by [buf[:runeSize]]: the bytes
    written. *)
Definition EncodeRune (r : Z) : list byte :=
  let i := (r mod 2 ^ 32)%Z in
  if (i <=? 127)%Z then [byte_of_Z r]
  else if (i <=? 2047)%Z then
    [ byte_of_Z (Z.lor 192 (Z.shiftr r 6 mod 256));
      byte_of_Z (Z.lor 128 (Z.land (r mod 256) 63)) ]
  else if (MaxRune <? i)%Z || (surrogateMin <=? i)%Z && (i <=? surrogateMax)%Z
  then encode3 RuneError
  else if (i <=? 65535)%Z then encode3 r
  else
    [ byte_of_Z (Z.lor 240 (Z.shiftr r 18 mod 256));
      byte_of_Z (Z.lor 128 (Z.land (Z.shiftr r 12 mod 256) 63));
      byte_of_Z (Z.lor 128 (Z.land (Z.shiftr r 6 mod 256) 63));
      byte_of_Z (Z.lor 128 (Z.land (r mod 256) 63)) ].

Definition upperhex : list byte := bytes_of "0123456789ABCDEF".

(** [shouldEscape(c, encodeQueryComponent)]: everything is escaped but the
    unreserved characters. *)
Definition shouldEscape (c : byte) : bool :=
  if IsAlphaNumeric c then false
  else if bool_decide (c = "-") || bool_decide (c = "_")
          || bool_decide (c = ".") || bool_decide (c = "~") then false
  else true.

Definition QueryEscape_byte (c : byte) : list byte :=
  if bool_decide (c = " ") then ["+"]
  else if shouldEscape c then
    [ "%"; default x00 (upperhex !! (Byte.to_nat c / 16));
      default x00 (upperhex !! (Byte.to_nat c mod 16)) ]
  else [c].

(** [url.QueryEscape(string(s))] *)
Definition QueryEscape (s : list byte) : list byte :=
  flat_map QueryEscape_byte s.

(** ** ResolveNumericReferences *)

(** The substitution both branches perform once a reference is recognised:
    [cob.Write(source[n:pos]); runeSize := utf8.EncodeRune(buf,
    ToValidRune(rune(v))); cob.Write(buf[:runeSize])]. *)
Definition write_rune (source : list byte) (n pos : nat) (v : Z)
    (cob : CopyOnWriteBuffer) : option CopyOnWriteBuffer :=
  s ← slice source n pos;
  let cob := Write cob s in
  Some (Write cob (EncodeRune (ToValidRune (rune_of_uint64 v)))).

(** One pass of the loop body at an ampersand found at [pos = i]. The result
    is [Some (i', n', cob')] when a reference was resolved (the [continue]
    branches, [i'] being the index of the semicolon) and [None] when the
    body falls through to [i = next - 1]. *)
Definition numeric_reference (source : list byte) (i n : nat)
    (cob : CopyOnWriteBuffer) : option (option (nat * nat * CopyOnWriteBuffer)) :=
  let limit := length source in
  let pos := i in
  let next := i + 1 in
  hash ← and_then (bool_decide (next < limit))
                  (c ← source !! next; Some (bool_decide (c = "#")));
  if negb hash then Some None else
  let nnext := next + 1 in
  if negb (bool_decide (nnext < limit)) then Some None else
  nc ← source !! nnext;
  if bool_decide (nnext < limit) && bool_decide (nc = "x") || bool_decide (nc = "X")
  then
    let start := nnext + 1 in
    '(i, ok) ← ReadWhile source (start, limit) IsHexDecimal;
    semi ← and_then (ok && bool_decide (i < limit))
                    (c ← source !! i; Some (bool_decide (c = ";")));
    if (semi : bool) then
      digits ← slice source start i;
      let v := ParseUint digits 16 32 in
      cob ← write_rune source n pos v cob;
      Some (Some (i, i + 1, cob))
    else Some None
  else if byte_le "0" nc && byte_le nc "9" then
    let start := nnext in
    '(i, ok) ← ReadWhile source (start, limit) IsNumeric;
    semi ← and_then (ok && bool_decide (i < limit) && bool_decide (i - start < 8))
                    (c ← source !! i; Some (bool_decide (c = ";")));
    if (semi : bool) then
      digits ← slice source start i;
      let v := ParseUint digits 0 32 in
      cob ← write_rune source n pos v cob;
      Some (Some (i, i + 1, cob))
    else Some None
  else Some None.

Fixpoint ResolveNumericReferences_loop (fuel : nat) (source : list byte)
    (i n : nat) (cob : CopyOnWriteBuffer) : option (nat * CopyOnWriteBuffer) :=
  match fuel with
  | 0 => None
  | S fuel' =>
    if decide (i < length source) then
      c ← source !! i;
      if bool_decide (c = "&") then
        r ← numeric_reference source i n cob;
        match r with
        | Some (i', n', cob') =>
          ResolveNumericReferences_loop fuel' source (i' + 1) n' cob'
        | None =>
          (* i = next - 1, then the loop's i++ *)
          ResolveNumericReferences_loop fuel' source (i + 1 - 1 + 1) n cob
        end
      else ResolveNumericReferences_loop fuel' source (i + 1) n cob
    else Some (n, cob)
  end.

Definition ResolveNumericReferences_cob (source : list byte)
  : option CopyOnWriteBuffer :=
  '(n, cob) ← ResolveNumericReferences_loop (S (length source)) source 0 0
                 (NewCopyOnWriteBuffer source);
  flush_tail source n cob.

Definition ResolveNumericReferences (source : list byte) : option (list byte) :=
  Bytes <$> ResolveNumericReferences_cob source.

(** ** ResolveEntityNames, URLEscape and DoFullUnicodeCaseFolding

    The named-entity table ([LookUpHTML5EntityByName], of which the scanner
    reads [entity.Characters]), the case-folding table
    ([unicodeCaseFoldings]) and [utf8.DecodeRune] are declared outside
    [util.go]; the scanners take them as parameters. *)

Section Tables.

Variable LookUpHTML5EntityByName : list byte → option (list byte).
Variable unicodeCaseFoldings : Z → option (list Z).
Variable DecodeRune : list byte → Z * nat.

(** One pass of the loop body of [ResolveEntityNames] at an ampersand, with
    the result convention of [numeric_reference]. *)
Definition entity_reference (source : list byte) (i n : nat)
    (cob : CopyOnWriteBuffer) : option (option (nat * nat * CopyOnWriteBuffer)) :=
  let limit := length source in
  let pos := i in
  let next := i + 1 in
  hash ← and_then (bool_decide (next < limit))
                  (c ← source !! next; Some (bool_decide (c = "#")));
  if (hash : bool) then Some None else
  let start := next in
  '(i, ok) ← ReadWhile source (start, limit) IsAlphaNumeric;
  semi ← and_then (ok && bool_decide (i < limit))
                  (c ← source !! i; Some (bool_decide (c = ";")));
  if (semi : bool) then
    name ← slice source start i;
    match LookUpHTML5EntityByName name with
    | Some characters =>
      s ← slice source n pos;
      let cob := Write cob s in
      let cob := Write cob characters in
      Some (Some (i, i + 1, cob))
    | None => Some None
    end
  else Some None.

Fixpoint ResolveEntityNames_loop (fuel : nat) (source : list byte)
    (i n : nat) (cob : CopyOnWriteBuffer) : option (nat * CopyOnWriteBuffer) :=
  match fuel with
  | 0 => None
  | S fuel' =>
    if decide (i < length source) then
      c ← source !! i;
      if bool_decide (c = "&") then
        r ← entity_reference source i n cob;
        match r with
        | Some (i', n', cob') =>
          ResolveEntityNames_loop fuel' source (i' + 1) n' cob'
        | None =>
          (* i = next - 1, then the loop's i++ *)
          ResolveEntityNames_loop fuel' source (i + 1 - 1 + 1) n cob
        end
      else ResolveEntityNames_loop fuel' source (i + 1) n cob
    else Some (n, cob)
  end.

Definition ResolveEntityNames_cob (source : list byte)
  : option CopyOnWriteBuffer :=
  '(n, cob) ← ResolveEntityNames_loop (S (length source)) source 0 0
                 (NewCopyOnWriteBuffer source);
  flush_tail source n cob.

Definition ResolveEntityNames (source : list byte) : option (list byte) :=
  Bytes <$> ResolveEntityNames_cob source.

Definition htmlSpace : list byte := bytes_of "%20".

(** The scan of [URLEscape] over [v] (after the optional resolution
    passes). [u8len] is an [int8]; the clamp [int8(len(v) - 1)] is only
    taken when [len(v) < u8len <= 4]. *)
Fixpoint URLEscape_loop (fuel : nat) (v : list byte) (i n : nat)
    (cob : CopyOnWriteBuffer) : option (nat * CopyOnWriteBuffer) :=
  let limit := length v in
  match fuel with
  | 0 => None
  | S fuel' =>
    if decide (i < limit) then
      c ← v !! i;
      if table_at urlEscapeTable c =? 1 then URLEscape_loop fuel' v (i + 1) n cob
      else
        pct ← and_then (bool_decide (c = "%") && bool_decide (i + 2 < limit))
                       (c1 ← v !! (i + 1);
                        Some (IsHexDecimal c1 && IsHexDecimal c1));
        if (pct : bool) then URLEscape_loop fuel' v (i + 3) n cob
        else
          let u8len := table_at utf8lenTable c in
          if u8len =? 99 then URLEscape_loop fuel' v (i + 1) n cob
          else if bool_decide (c = " ") then
            s ← slice v n i;
            let cob := Write cob s in
            let cob := Write cob htmlSpace in
            URLEscape_loop fuel' v (i + 1) (i + 1) cob
          else
            let u8len := if bool_decide (length v < u8len) then length v - 1
                         else u8len in
            if u8len =? 0 then URLEscape_loop fuel' v (i + 1) (i + 1) cob
            else
              s ← slice v n i;
              let cob := Write cob s in
              let stop := i + u8len in
              if bool_decide (length v < stop) then
                URLEscape_loop fuel' v (i + 1) (i + 1) cob
              else
                e ← slice v i stop;
                let cob := Write cob (QueryEscape e) in
                URLEscape_loop fuel' v (i + u8len) (i + u8len) cob
    else Some (n, cob)
  end.

(** [if cob.IsCopied() && n < limit { cob.Write(v[n:]) }] *)
Definition URLEscape_tail (v : list byte) (n : nat) (cob : CopyOnWriteBuffer)
  : option CopyOnWriteBuffer :=
  if IsCopied cob && bool_decide (n < length v) then
    s ← slice v n (length v); Some (Write cob s)
  else Some cob.

Definition URLEscape_cob (v : list byte) (resolveReference : bool)
  : option CopyOnWriteBuffer :=
  v ← (if resolveReference then
         v ← UnescapePunctuations v;
         v ← ResolveNumericReferences v;
         ResolveEntityNames v
       else Some v);
  '(n, cob) ← URLEscape_loop (S (length v)) v 0 0 (NewCopyOnWriteBuffer v);
  URLEscape_tail v n cob.

Definition URLEscape (v : list byte) (resolveReference : bool)
  : option (list byte) :=
  Bytes <$> URLEscape_cob v resolveReference.

(** [utf8.RuneStart(c)]: [c & 0xC0 != 0x80]. *)
Definition RuneStart (c : byte) : bool :=
  negb (Z.land (byte_z c) 192 =? 128)%Z.

(** The body of the [for _, f := range folded] loop. *)
Definition write_folded (cob : CopyOnWriteBuffer) (folded : list Z)
  : CopyOnWriteBuffer :=
  foldl (λ cob f, Write cob (EncodeRune f)) cob folded.

(** After a folded code point the body runs [i += length - 1; n = i + 1]
    and the loop statement [i++]: both cursors end at [i + length]. *)
Fixpoint DoFullUnicodeCaseFolding_loop (fuel : nat) (v : list byte)
    (i n : nat) (cob : CopyOnWriteBuffer) : option (nat * CopyOnWriteBuffer) :=
  match fuel with
  | 0 => None
  | S fuel' =>
    if decide (i < length v) then
      c ← v !! i;
      if negb (byte_le xb5 c) then
        if byte_le x41 c && byte_le c x5a then
          s ← slice v n i;
          let cob := Write cob s in
          let cob := WriteByte cob (byte_of_Z (byte_z c + 32)) in
          DoFullUnicodeCaseFolding_loop fuel' v (i + 1) (i + 1) cob
        else DoFullUnicodeCaseFolding_loop fuel' v (i + 1) n cob
      else if negb (RuneStart c) then
        DoFullUnicodeCaseFolding_loop fuel' v (i + 1) n cob
      else
        let '(r, length) := DecodeRune (drop i v) in
        if (r =? RuneError)%Z then
          DoFullUnicodeCaseFolding_loop fuel' v (i + 1) n cob
        else
          match unicodeCaseFoldings r with
          | None => DoFullUnicodeCaseFolding_loop fuel' v (i + 1) n cob
          | Some folded =>
            s ← slice v n i;
            let cob := Write cob s in
            let cob := write_folded cob folded in
            DoFullUnicodeCaseFolding_loop fuel' v (i + length) (i + length) cob
          end
    else Some (n, cob)
  end.

Definition DoFullUnicodeCaseFolding_cob (v : list byte)
  : option CopyOnWriteBuffer :=
  '(n, cob) ← DoFullUnicodeCaseFolding_loop (S (length v)) v 0 0
                 (NewCopyOnWriteBuffer v);
  flush_tail v n cob.

Definition DoFullUnicodeCaseFolding (v : list byte) : option (list byte) :=
  Bytes <$> DoFullUnicodeCaseFolding_cob v.

End Tables.

(** ** BytesFilter

    A slot of the filter is a Go slice of byte sequences: a header (pointer,
    length, capacity) over a backing array. Two headers with the same
    pointer see the same cells, so the backing arrays live in a store that
    is threaded through every operation. The stored byte sequences are never
    written by the filter; they are kept as values. The outer [slots] slice
    and the [chars] array belong to one filter only ([NewBytesFilter] makes a
    fresh outer slice, [chars] is an array copied by value); they are fields
    of the filter record. *)

Module BytesFilter.

(** A backing array of [[]byte] cells; its length is its capacity, the
    cells beyond a header's length hold [nil]. *)
Abbreviation cells := (list (list byte)).

(** The store of backing arrays, addressed by position; allocation appends. *)
Abbreviation heap := (list (list (list byte))).

(** A non-nil slice header. A nil slice is [None : option header]. *)
Record header := mkHeader { ptr : nat; len : nat; cap : nat }.

(** [hash = ((hash << 5) + hash) + uint64(c)] on [uint64]. *)
Definition hash_step (hash : N) (c : byte) : N :=
  (((N.shiftl hash 5 mod 2 ^ 64 + hash) mod 2 ^ 64 + Byte.to_N c) mod 2 ^ 64)%N.

Definition bytesHash (b : list byte) : N := foldl hash_step 5381%N b.

Record bytesFilter := mkFilter {
  chars : list N;
  threshold : nat;
  slots : list (option header)
}.

Section Growth.

(** The capacity Go's [append] gives the new backing array when the old one
    is full, from the old capacity and the length needed. It belongs to the
    Go runtime. *)
Variable growcap : nat → nat → nat.

(** [append(slot, b)] on a non-nil [slot]: in place when the capacity
    allows, into a fresh array otherwise. *)
Definition append (h : heap) (s : header) (b : list byte)
  : option (heap * header) :=
  a ← h !! ptr s;
  if decide (len s < cap s) then
    Some (<[ptr s := <[len s := b]> a]> h,
          {| ptr := ptr s; len := len s + 1; cap := cap s |})
  else
    let newcap := growcap (cap s) (len s + 1) in
    let a' := take (len s) a ++ [b] ++ replicate (newcap - (len s + 1)) [] in
    Some (h ++ [a'], {| ptr := length h; len := len s + 1; cap := newcap |}).

(** [1 << uint8(i)] at type [uint8]. *)
Definition bit (i : nat) : N := (N.shiftl 1 (N.of_nat (i mod 256)) mod 256)%N.

(** [min(len(b), s.threshold)], as both [Add] and [Contains] compute it. *)
Definition prefix_len (s : bytesFilter) (b : list byte) : nat :=
  if decide (length b < threshold s) then length b else threshold s.

(** [for i := 0; i < m; i++ { s.chars[b[i]] |= 1 << uint8(i) }], by
    recursion on the number [k] of remaining iterations. *)
Fixpoint set_mask (k : nat) (b : list byte) (i : nat) (chars : list N)
  : option (list N) :=
  match k with
  | 0 => Some chars
  | S k' =>
    c ← b !! i;
    x ← chars !! Byte.to_nat c;
    set_mask k' b (i + 1) (<[Byte.to_nat c := N.lor x (bit i)]> chars)
  end.

Definition Add (h : heap) (s : bytesFilter) (b : list byte)
  : option (heap * bytesFilter) :=
  let m := prefix_len s b in
  chars' ← set_mask m b 0 (chars s);
  if decide (length (slots s) = 0) then None else
  let hh := N.to_nat (bytesHash b mod N.of_nat (length (slots s))) in
  slot ← slots s !! hh;
  let '(h, slot) :=
    match slot with
    | None => (h ++ [[]], {| ptr := length h; len := 0; cap := 0 |})
    | Some slot => (h, slot)
    end in
  '(h, slot) ← append h slot b;
  Some (h, {| chars := chars'; threshold := threshold s;
              slots := <[hh := Some slot]> (slots s) |}).

Definition Add_all (h : heap) (s : bytesFilter) (bs : list (list byte))
  : option (heap * bytesFilter) :=
  foldl (λ st b, '(h, s) ← st; Add h s b) (Some (h, s)) bs.

Definition NewBytesFilter (h : heap) (elements : list (list byte))
  : option (heap * bytesFilter) :=
  let s := {| chars := replicate 256 0%N; threshold := 3;
              slots := replicate 64 None |} in
  Add_all h s elements.

(** The loop of [Extend] over [s.slots], [k] being the index reached:
    [newSlot := make([][]byte, len(v)); copy(newSlot, v);
     newFilter.slots[k] = v]. The copy [newSlot] is allocated and filled,
    and the slot [v] itself is stored. *)
Fixpoint Extend_slots (h : heap) (k : nat) (src dst : list (option header))
  : option (heap * list (option header)) :=
  match src with
  | [] => Some (h, dst)
  | v :: src' =>
    newSlot ← match v with
              | None => Some []
              | Some hd => a ← h !! ptr hd; Some (take (len hd) a)
              end;
    let h := h ++ [newSlot] in
    if decide (k < length dst) then Extend_slots h (S k) src' (<[k := v]> dst)
    else None
  end.

Definition Extend (h : heap) (s : bytesFilter) (bs : list (list byte))
  : option (heap * bytesFilter) :=
  '(h, newFilter) ← NewBytesFilter h [];
  '(h, slots') ← Extend_slots h 0 (slots s) (slots newFilter);
  let newFilter := {| chars := chars s; threshold := threshold s;
                      slots := slots' |} in
  Add_all h newFilter bs.

(** The mask loop of [Contains]: [false] as soon as a bit is missing. *)
Fixpoint check_mask (k : nat) (b : list byte) (i : nat) (chars : list N)
  : option bool :=
  match k with
  | 0 => Some true
  | S k' =>
    c ← b !! i;
    x ← chars !! Byte.to_nat c;
    if (N.land x (bit i) =? 0)%N then Some false
    else check_mask k' b (i + 1) chars
  end.

(** The elements a header sees: [slot[0:len(slot)]]. *)
Definition elements (h : heap) (slot : option header) : option cells :=
  match slot with
  | None => Some []
  | Some hd => a ← h !! ptr hd;
               if decide (len hd ≤ length a) then Some (take (len hd) a) else None
  end.

Definition Contains (h : heap) (s : bytesFilter) (b : list byte) : option bool :=
  let m := prefix_len s b in
  pass ← check_mask m b 0 (chars s);
  if negb pass then Some false else
  if decide (length (slots s) = 0) then None else
  let hh := N.to_nat (bytesHash b mod N.of_nat (length (slots s))) in
  slot ← slots s !! hh;
  els ← elements h slot;
  if decide (length els = 0) then Some false
  else Some (existsb (λ element, bool_decide (element = b)) els).

End Growth.

(** *** Well-formed states and the bucket of a sequence *)

Definition bucket (s : bytesFilter) (b : list byte) : nat :=
  N.to_nat (bytesHash b mod N.of_nat (length (slots s))).

(** A header points into the store and stays within its backing array. *)
Definition wf_header (h : heap) (hd : header) : Prop :=
  ∃ a, h !! ptr hd = Some a ∧ len hd ≤ length a ∧ cap hd ≤ length a.

(** A filter as [NewBytesFilter] and [Extend] make them: 256 mask bytes, a
    threshold a [uint8] mask can hold, a non-empty outer slice and valid
    headers. *)
Definition wf (h : heap) (s : bytesFilter) : Prop :=
  length (chars s) = 256 ∧ threshold s ≤ 8 ∧ length (slots s) ≠ 0
  ∧ ∀ k hd, slots s !! k = Some (Some hd) → wf_header h hd.

(** The mask lets [b] through: bit [j] is set at byte [b[j]] for each of the
    first [prefix_len] positions. *)
Definition mask_ok (s : bytesFilter) (b : list byte) : Prop :=
  ∀ j, j < prefix_len s b →
       ∃ c x, b !! j = Some c ∧ chars s !! Byte.to_nat c = Some x
              ∧ N.land x (bit j) ≠ 0%N.

(** No two slots of the filter share a backing array. *)
Definition separated (s : bytesFilter) : Prop :=
  ∀ k1 k2 hd1 hd2,
    slots s !! k1 = Some (Some hd1) → slots s !! k2 = Some (Some hd2) →
    ptr hd1 = ptr hd2 → k1 = k2.

(** Wherever [s1] and [s2] share a backing array, the header of [s2] is at
    least as long as the one of [s1]: what [s2] appends lands beyond what
    [s1] sees. *)
Definition behind (s1 s2 : bytesFilter) : Prop :=
  ∀ k1 k2 hd1 hd2,
    slots s1 !! k1 = Some (Some hd1) → slots s2 !! k2 = Some (Some hd2) →
    ptr hd1 = ptr hd2 → len hd1 ≤ len hd2.

(** The filter [s] in the store [h] represents the sequences [L]: it is
    well formed, owns its backing arrays slot by slot, each slot holds
    exactly the members of [L] that hash to it, and the mask lets every
    member through. *)
Definition represents (h : heap) (s : bytesFilter) (L : list (list byte)) : Prop :=
  wf h s ∧ separated s
  ∧ (∀ k slot, slots s !! k = Some slot →
       ∃ els, elements h slot = Some els
              ∧ ∀ e, e ∈ els ↔ e ∈ L ∧ bucket s e = k)
  ∧ (∀ e, e ∈ L → mask_ok s e).

(** The capacity Go's runtime chooses when [append] must reallocate, for
    slices below 256 elements: the length needed when it exceeds twice the
    old capacity, twice the old capacity otherwise. (Above that threshold
    the runtime grows by a smaller factor, and the result is rounded up to an
    allocation size class; for the 24-byte elements of a slot the capacities
    1, 2 and 4 reached below are size classes themselves.) Appending one
    element at a time to an empty slot gives capacities 1, 2, 4, 8, ... *)
Definition go_growcap (oldCap newLen : nat) : nat :=
  if decide (oldCap + oldCap < newLen) then newLen else oldCap + oldCap.

(** What can be observed of a filter and of the clone [Extend] derives from
    it when the original is added to after the clone was made. *)
Record shared_run := mkRun {
  original_slot : option (option header);   (* slot 29 of the original *)
  clone_slot : option (option header);      (* slot 29 of the clone *)
  clone_has_dfn : bool;        (* clone.Contains("dfn") after Extend *)
  original_has_dfn : bool;     (* original.Contains("dfn") after Extend *)
  clone_has_dfn_later : bool;  (* clone.Contains("dfn") after original.Add("ddp") *)
  clone_has_ddp_later : bool   (* clone.Contains("ddp") after original.Add("ddp") *)
}.

(** [original := NewBytesFilter("td", "dt", "sup");
     clone := original.Extend("dfn"); original.Add("ddp")]:
    the five sequences hash to slot 29. *)
Definition extend_then_add_to_original : option shared_run :=
  '(h, original) ← NewBytesFilter go_growcap []
                      [bytes_of "td"; bytes_of "dt"; bytes_of "sup"];
  '(h, clone) ← Extend go_growcap h original [bytes_of "dfn"];
  c1 ← Contains h clone (bytes_of "dfn");
  o1 ← Contains h original (bytes_of "dfn");
  '(h', original') ← Add go_growcap h original (bytes_of "ddp");
  c2 ← Contains h' clone (bytes_of "dfn");
  c3 ← Contains h' clone (bytes_of "ddp");
  Some {| original_slot := slots original !! 29; clone_slot := slots clone !! 29;
          clone_has_dfn := c1; original_has_dfn := o1;
          clone_has_dfn_later := c2; clone_has_ddp_later := c3 |}.

(** What can be observed of two clones [Extend] derives from the same
    filter, neither the filter nor the first clone being added to after
    the clones were made. *)
Record sibling_run := mkSiblings {
  a_has_dfn : bool;        (* a.Contains("dfn") after a := g.Extend("dfn") *)
  a_has_ddp : bool;        (* a.Contains("ddp") then *)
  a_has_dfn_later : bool;  (* a.Contains("dfn") after b := g.Extend("ddp") *)
  a_has_ddp_later : bool;  (* a.Contains("ddp") after b := g.Extend("ddp") *)
  b_has_ddp : bool         (* b.Contains("ddp") *)
}.

(** [g := NewBytesFilter("td", "dt", "sup"); a := g.Extend("dfn");
     b := g.Extend("ddp")]. *)
Definition extend_twice : option sibling_run :=
  '(h, g) ← NewBytesFilter go_growcap []
               [bytes_of "td"; bytes_of "dt"; bytes_of "sup"];
  '(h1, a) ← Extend go_growcap h g [bytes_of "dfn"];
  a1 ← Contains h1 a (bytes_of "dfn");
  a2 ← Contains h1 a (bytes_of "ddp");
  '(h2, b) ← Extend go_growcap h1 g [bytes_of "ddp"];
  a3 ← Contains h2 a (bytes_of "dfn");
  a4 ← Contains h2 a (bytes_of "ddp");
  b1 ← Contains h2 b (bytes_of "ddp");
  Some {| a_has_dfn := a1; a_has_ddp := a2; a_has_dfn_later := a3;
          a_has_ddp_later := a4; b_has_ddp := b1 |}.

End BytesFilter.

(** ** Operation sequences on a CopyOnWriteBuffer *)

(** The methods of the buffer, as data; [Bytes] and [IsCopied] only read. *)
Inductive cob_op :=
| OpWrite (value : list byte)
| OpWriteString (value : list byte)
| OpWriteByte (c : byte)
| OpAppend (value : list byte)
| OpAppendString (value : list byte)
| OpAppendByte (c : byte)
| OpBytes
| OpIsCopied.

Definition cob_step (b : CopyOnWriteBuffer) (o : cob_op) : CopyOnWriteBuffer :=
  match o with
  | OpWrite value => Write b value
  | OpWriteString value => WriteString b value
  | OpWriteByte c => WriteByte b c
  | OpAppend value => Append b value
  | OpAppendString value => AppendString b value
  | OpAppendByte c => AppendByte b c
  | OpBytes | OpIsCopied => b
  end.

Definition cob_run (b : CopyOnWriteBuffer) (ops : list cob_op) : CopyOnWriteBuffer :=
  foldl cob_step b ops.

(** ** Trigger-free inputs

    What each scanner looks for; an input without it is left alone. *)

(** The bytes [EscapeHTML] replaces. *)
Definition html_special : list byte := [x22; "&"; "<"; ">"].

(** A backslash at [i] followed by a punctuation byte. *)
Definition escaped_punct_at (v : list byte) (i : nat) : Prop :=
  v !! i = Some "\" ∧ ∃ c1, v !! (i + 1) = Some c1 ∧ IsPunct c1 = true.

(** An ampersand at [i] followed by a number sign. *)
Definition numeric_lead_at (v : list byte) (i : nat) : Prop :=
  v !! i = Some "&" ∧ v !! (i + 1) = Some "#".

(** No byte of the input makes the scan of [URLEscape] write: every byte
    the scan stops at is URL-safe, starts a percent triple whose first digit
    is hexadecimal, or is not a UTF-8 leading byte. *)
Fixpoint url_no_trigger (l : list byte) : bool :=
  match l with
  | [] => true
  | c :: l' =>
    if table_at urlEscapeTable c =? 1 then url_no_trigger l'
    else if bool_decide (c = "%") then
      match l' with
      | h :: _ :: l'' => IsHexDecimal h && url_no_trigger l''
      | _ => false
      end
    else (table_at utf8lenTable c =? 99) && url_no_trigger l'
  end.

(** The byte [c] at [i] makes [DoFullUnicodeCaseFolding] write: an ASCII
    capital, or the start of a sequence that decodes to a code point of the
    folding table. *)
Definition folds_at (unicodeCaseFoldings : Z → option (list Z))
    (DecodeRune : list byte → Z * nat) (v : list byte) (i : nat) (c : byte)
  : bool :=
  if negb (byte_le xb5 c) then byte_le x41 c && byte_le c x5a
  else RuneStart c
       && negb ((DecodeRune (drop i v)).1 =? RuneError)%Z
       && bool_decide (is_Some (unicodeCaseFoldings (DecodeRune (drop i v)).1)).

(** ** Scanner invariants *)

(** What a scanner has emitted so far: the owned buffer, or nothing while
    the buffer still borrows the input. *)
Definition emitted (cob : CopyOnWriteBuffer) : list byte :=
  if copied cob then buffer cob else [].

(** The invariant of the copy-on-write scanners: while the buffer borrows
    the input, nothing was flushed. *)
Definition borrowed_ok (source : list byte) (n : nat) (cob : CopyOnWriteBuffer) : Prop :=
  copied cob = false → n = 0 ∧ buffer cob = source.

(** The invariant of the scan of [URLEscape]: the cursors are ordered and,
    while the buffer borrows the input, either nothing was skipped or the
    scan is over. *)
Definition url_scan_ok (v : list byte) (i n : nat) (cob : CopyOnWriteBuffer) : Prop :=
  n ≤ i ∧ i ≤ length v
  ∧ (copied cob = false → buffer cob = v ∧ (n = 0 ∨ (n = i ∧ length v ≤ i))).

(** The buffer a scanner ended with was never materialised and still holds
    the input [v]. *)
Definition uncopied (v : list byte) (r : option CopyOnWriteBuffer) : Prop :=
  ∃ cob, r = Some cob ∧ IsCopied cob = false ∧ Bytes cob = v.

(** ** Specification-level functions

    Written from the specification's words, to be compared with the
    scanners above. *)

(** Each backslash immediately followed by a punctuation byte is replaced
    by that byte, both input bytes being consumed; every other byte, a
    trailing backslash included, is copied. *)
Fixpoint unescape_punctuations_spec (l : list byte) : list byte :=
  match l with
  | [] => []
  | c :: rest =>
    match rest with
    | d :: rest' =>
      if bool_decide (c = "\") && IsPunct d then d :: unescape_punctuations_spec rest'
      else c :: unescape_punctuations_spec rest
    | [] => [c]
    end
  end.

(** Each of the four special bytes is replaced by its named reference; every
    other byte is copied. *)
Definition escape_html_byte_spec (c : byte) : list byte :=
  if bool_decide (c = x22) then bytes_of "&quot;"
  else if bool_decide (c = "&") then bytes_of "&amp;"
  else if bool_decide (c = "<") then bytes_of "&lt;"
  else if bool_decide (c = ">") then bytes_of "&gt;"
  else [c].

Definition escape_html_spec (l : list byte) : list byte :=
  flat_map escape_html_byte_spec l.

(** A named-entity table holding the four references [EscapeHTML] writes,
    for the examples. *)
Definition four_entities (name : list byte) : option (list byte) :=
  if bool_decide (name = bytes_of "quot") then Some [x22]
  else if bool_decide (name = bytes_of "amp") then Some ["&"]
  else if bool_decide (name = bytes_of "lt") then Some ["<"]
  else if bool_decide (name = bytes_of "gt") then Some [">"]
  else None.

(** * Further functions of [util.go]

    A scan [for i := 0; i < len(bs); i++] that only reads [bs[i]] is a
    recursion over the bytes not yet visited, carrying [i] where the code
    uses it. A Go [int] that may be negative or comes from the caller is a
    [Z]; [int_of] reduces an arithmetic result to the 64-bit range. *)

(** ** More tables (transcribed from the source) *)

Definition spaceTable : list nat :=
  [
   0; 0; 0; 0; 0; 0; 0; 0; 0; 1; 1; 0; 0; 1; 0; 0;
   0; 0; 0; 0; 0; 0; 0; 0; 0; 0; 0; 0; 0; 0; 0; 0;
   1; 0; 0; 0; 0; 0; 0; 0; 0; 0; 0; 0; 0; 0; 0; 0;
   0; 0; 0; 0; 0; 0; 0; 0; 0; 0; 0; 0; 0; 0; 0; 0;
   0; 0; 0; 0; 0; 0; 0; 0; 0; 0; 0; 0; 0; 0; 0; 0;
   0; 0; 0; 0; 0; 0; 0; 0; 0; 0; 0; 0; 0; 0; 0; 0;
   0; 0; 0; 0; 0; 0; 0; 0; 0; 0; 0; 0; 0; 0; 0; 0;
   0; 0; 0; 0; 0; 0; 0; 0; 0; 0; 0; 0; 0; 0; 0; 0;
   0; 0; 0; 0; 0; 0; 0; 0; 0; 0; 0; 0; 0; 0; 0; 0;
   0; 0; 0; 0; 0; 0; 0; 0; 0; 0; 0; 0; 0; 0; 0; 0;
   0; 0; 0; 0; 0; 0; 0; 0; 0; 0; 0; 0; 0; 0; 0; 0;
   0; 0; 0; 0; 0; 0; 0; 0; 0; 0; 0; 0; 0; 0; 0; 0;
   0; 0; 0; 0; 0; 0; 0; 0; 0; 0; 0; 0; 0; 0; 0; 0;
   0; 0; 0; 0; 0; 0; 0; 0; 0; 0; 0; 0; 0; 0; 0; 0;
   0; 0; 0; 0; 0; 0; 0; 0; 0; 0; 0; 0; 0; 0; 0; 0;
   0; 0; 0; 0; 0; 0; 0; 0; 0; 0; 0; 0; 0; 0; 0; 0
  ].

Definition urlTable : list nat :=
  [
   0; 0; 0; 0; 0; 0; 0; 0; 0; 0; 0; 0; 0; 0; 0; 0;
   0; 0; 0; 0; 0; 0; 0; 0; 0; 0; 0; 0; 0; 0; 0; 0;
   0; 1; 1; 1; 1; 1; 1; 1; 1; 1; 1; 5; 1; 5; 5; 1;
   5; 5; 5; 5; 5; 5; 5; 5; 5; 5; 1; 1; 0; 1; 0; 1;
   1; 7; 7; 7; 7; 7; 7; 7; 7; 7; 7; 7; 7; 7; 7; 7;
   7; 7; 7; 7; 7; 7; 7; 7; 7; 7; 7; 1; 1; 1; 1; 1;
   1; 7; 7; 7; 7; 7; 7; 7; 7; 7; 7; 7; 7; 7; 7; 7;
   7; 7; 7; 7; 7; 7; 7; 7; 7; 7; 7; 1; 1; 1; 1; 1;
   1; 1; 1; 1; 1; 1; 1; 1; 1; 1; 1; 1; 1; 1; 1; 1;
   1; 1; 1; 1; 1; 1; 1; 1; 1; 1; 1; 1; 1; 1; 1; 1;
   1; 1; 1; 1; 1; 1; 1; 1; 1; 1; 1; 1; 1; 1; 1; 1;
   1; 1; 1; 1; 1; 1; 1; 1; 1; 1; 1; 1; 1; 1; 1; 1;
   1; 1; 1; 1; 1; 1; 1; 1; 1; 1; 1; 1; 1; 1; 1; 1;
   1; 1; 1; 1; 1; 1; 1; 1; 1; 1; 1; 1; 1; 1; 1; 1;
   1; 1; 1; 1; 1; 1; 1; 1; 1; 1; 1; 1; 1; 1; 1; 1;
   1; 1; 1; 1; 1; 1; 1; 1; 1; 1; 1; 1; 1; 1; 1; 1
  ].

(** ** Go [int] arithmetic *)

(** The value of a 64-bit two's complement [int] result. *)
Definition int_of (z : Z) : Z := ((z + 2 ^ 63) mod 2 ^ 64 - 2 ^ 63)%Z.

(** ** Scans shared by the trimming and searching functions *)

(** The scan [for ; i < len(source); i++ { if !p(source[i]) { break } }]
    over the bytes [rest] from index [i] on: the index it stops at. *)
Fixpoint scan_while (p : byte → bool) (rest : list byte) (i : nat) : nat :=
  match rest with
  | [] => i
  | c :: rest' => if negb (p c) then i else scan_while p rest' (i + 1)
  end.

(** The scan [for ; i >= 0; i-- { if !p(source[i]) { break } }]: the index
    it stops at, [-1] when every byte passes. *)
Fixpoint scan_back_while (fuel : nat) (p : byte → bool) (source : list byte)
    (i : Z) : option Z :=
  match fuel with
  | 0 => None
  | S fuel' =>
    if (0 <=? i)%Z then
      c ← source !! Z.to_nat i;
      if negb (p c) then Some i else scan_back_while fuel' p source (i - 1)
    else Some i
  end.

(** ** Spaces and blank lines *)

(** The [int8] result is a [nat]: the table holds 1 to 4 and 99. *)
Definition UTF8Len (b : byte) : nat := table_at utf8lenTable b.

Definition IsSpace (c : byte) : bool := table_at spaceTable c =? 1.

(** [[]byte(" \t\n\x0b\x0c\x0d")] *)
Definition spaces : list byte := [" "; x09; x0a; x0b; x0c; x0d].

Definition IsEscapedPunctuation (source : list byte) (i : nat) : option bool :=
  c ← source !! i;
  and_then (bool_decide (c = "\"))
    (and_then (bool_decide (i < length source - 1))
       (c1 ← source !! (i + 1); Some (IsPunct c1))).

Fixpoint IsBlank (bs : list byte) : bool :=
  match bs with
  | [] => true
  | b :: bs' => if negb (IsSpace b) then false else IsBlank bs'
  end.

(** ** Indentation *)

(** Go's [%] truncates towards zero, like [Z.rem]; the result lies between
    1 and 7, so no reduction to the [int] range is needed. *)
Definition TabWidth (currentPos : Z) : Z := (4 - Z.rem currentPos 4)%Z.

Fixpoint IndentPositionPadding_loop (rest : list byte) (currentPos width : Z)
    (i : nat) (w : Z) : nat * Z :=
  match rest with
  | [] => (i, w)
  | c :: rest' =>
    if bool_decide (c = x09) && (w <? width)%Z then
      IndentPositionPadding_loop rest' currentPos width (i + 1)
        (int_of (w + TabWidth (int_of (currentPos + w))))
    else if bool_decide (c = " ") && (w <? width)%Z then
      IndentPositionPadding_loop rest' currentPos width (i + 1) (int_of (w + 1))
    else (i, w)
  end.

Definition IndentPositionPadding (bs : list byte) (currentPos paddingv width : Z)
  : Z * Z :=
  if (width =? 0)%Z then (0, paddingv)%Z
  else
    let '(i, w) := IndentPositionPadding_loop bs currentPos width 0 0 in
    if (w >=? width)%Z then (int_of (Z.of_nat i - paddingv), int_of (w - width))
    else (-1, -1)%Z.

Definition IndentPosition (bs : list byte) (currentPos width : Z) : Z * Z :=
  IndentPositionPadding bs currentPos 0 width.

(** The loop of [DedentPosition], repeated verbatim in
    [DedentPositionPadding]. *)
Fixpoint DedentPosition_loop (rest : list byte) (currentPos : Z)
    (i : nat) (w : Z) : nat * Z :=
  match rest with
  | [] => (i, w)
  | c :: rest' =>
    if bool_decide (c = x09) then
      DedentPosition_loop rest' currentPos (i + 1)
        (int_of (w + TabWidth (int_of (currentPos + w))))
    else if bool_decide (c = " ") then
      DedentPosition_loop rest' currentPos (i + 1) (int_of (w + 1))
    else (i, w)
  end.

Definition DedentPosition (bs : list byte) (currentPos width : Z) : Z * Z :=
  if (width =? 0)%Z then (0, 0)%Z
  else
    let '(i, w) := DedentPosition_loop bs currentPos 0 0 in
    if (w >=? width)%Z then (Z.of_nat i, int_of (w - width))
    else (Z.of_nat i, 0%Z).

Definition DedentPositionPadding (bs : list byte)
    (currentPos paddingv width : Z) : Z * Z :=
  if (width =? 0)%Z then (0, paddingv)%Z
  else
    let '(i, w) := DedentPosition_loop bs currentPos 0 0 in
    if (w >=? width)%Z then (int_of (Z.of_nat i - paddingv), int_of (w - width))
    else (int_of (Z.of_nat i - paddingv), 0%Z).

(** The named results [width] and [pos] are the loop's state. *)
Fixpoint IndentWidth_loop (rest : list byte) (currentPos width pos : Z)
  : Z * Z :=
  match rest with
  | [] => (width, pos)
  | b :: rest' =>
    if bool_decide (b = " ") then
      IndentWidth_loop rest' currentPos (int_of (width + 1)) (int_of (pos + 1))
    else if bool_decide (b = x09) then
      IndentWidth_loop rest' currentPos
        (int_of (width + TabWidth (int_of (currentPos + width))))
        (int_of (pos + 1))
    else (width, pos)
  end.

Definition IndentWidth (bs : list byte) (currentPos : Z) : Z * Z :=
  IndentWidth_loop bs currentPos 0 0.

Fixpoint FirstNonSpacePosition_loop (rest : list byte) (i : nat) : Z :=
  match rest with
  | [] => (-1)%Z
  | c :: rest' =>
    if bool_decide (c = " ") || bool_decide (c = x09) then
      FirstNonSpacePosition_loop rest' (i + 1)
    else if bool_decide (c = x0a) then (-1)%Z
    else Z.of_nat i
  end.

Definition FirstNonSpacePosition (bs : list byte) : Z :=
  FirstNonSpacePosition_loop bs 0.

(** ** Trimming *)

(** [for j := 0; j < len(b); j++ { if c == b[j] { found = true; break } }] *)
Fixpoint found_in (c : byte) (b : list byte) : bool :=
  match b with
  | [] => false
  | x :: b' => if bool_decide (c = x) then true else found_in c b'
  end.

Definition TrimLeft (source b : list byte) : option (list byte) :=
  let i := scan_while (λ c, found_in c b) source 0 in
  slice source i (length source).

Definition TrimRight (source b : list byte) : option (list byte) :=
  i ← scan_back_while (S (length source)) (λ c, found_in c b) source
         (Z.of_nat (length source) - 1);
  slice source 0 (Z.to_nat (i + 1)).

Definition TrimLeftLength (source s : list byte) : option nat :=
  r ← TrimLeft source s; Some (length source - length r).

Definition TrimRightLength (source s : list byte) : option nat :=
  r ← TrimRight source s; Some (length source - length r).

Definition TrimLeftSpaceLength (source : list byte) : nat :=
  scan_while IsSpace source 0.

Definition TrimRightSpaceLength (source : list byte) : option Z :=
  let l := Z.of_nat (length source) in
  i ← scan_back_while (S (length source)) IsSpace source (l - 1);
  if (i <? 0)%Z then Some l else Some (l - 1 - i)%Z.

Definition TrimLeftSpace (source : list byte) : option (list byte) :=
  TrimLeft source spaces.

Definition TrimRightSpace (source : list byte) : option (list byte) :=
  TrimRight source spaces.

(** ** ReplaceSpaces *)

(** [ret] is [None] while the Go slice is [nil]; [start] is [-1] outside a
    run of spaces. *)
Fixpoint ReplaceSpaces_loop (rest source : list byte) (repl : byte) (i : nat)
    (ret : option (list byte)) (start : Z) : option (option (list byte) * Z) :=
  match rest with
  | [] => Some (ret, start)
  | c :: rest' =>
    let iss := IsSpace c in
    if (start <? 0)%Z && iss then
      ReplaceSpaces_loop rest' source repl (i + 1) ret (Z.of_nat i)
    else if (start >=? 0)%Z && iss then
      ReplaceSpaces_loop rest' source repl (i + 1) ret start
    else
      '(ret, start) ←
        (if (start >=? 0)%Z then
           ret ← match ret with
                 | None => slice source 0 (Z.to_nat start)
                 | Some r => Some r
                 end;
           Some (Some (ret ++ [repl]), (-1)%Z)
         else Some (ret, start));
      let ret := match ret with
                 | Some r => Some (r ++ [c])
                 | None => None
                 end in
      ReplaceSpaces_loop rest' source repl (i + 1) ret start
  end.

Definition ReplaceSpaces (source : list byte) (repl : byte)
  : option (list byte) :=
  '(ret, start) ← ReplaceSpaces_loop source source repl 0 None (-1);
  match ret with
  | Some r => if (start >=? 0)%Z then Some (r ++ [repl]) else Some r
  | None => Some source
  end.

(** ** FindURLIndex *)

(** [urlTable[c]&m == m] *)
Definition urlTable_has (c : byte) (m : N) : bool :=
  (N.land (N.of_nat (table_at urlTable c)) m =? m)%N.

Definition FindURLIndex (b : list byte) : option Z :=
  ok ← and_then (bool_decide (0 < length b))
                (c ← b !! 0; Some (urlTable_has c 7));
  if negb ok then Some (-1)%Z
  else
    let i := scan_while (λ c, urlTable_has c 4) (drop 1 b) 1 in
    if bool_decide (i = 1) || bool_decide (33 < i) || bool_decide (length b ≤ i)
    then Some (-1)%Z
    else
      c ← b !! i;
      if negb (bool_decide (c = ":")) then Some (-1)%Z
      else Some (Z.of_nat (scan_while (λ c, urlTable_has c 1)
                                      (drop (i + 1) b) (i + 1))).

(** ** FindClosure *)

(** The two inner loops
    [for ; i < len(bs); i++ { if bs[i] == '`' { count++ } else { i--; break } }]
    entered at a backtick: the number of backticks counted and the value of
    [i] they leave, the index of the last backtick of the run, or
    [len(bs)] when the run reaches the end. *)
Definition backtick_run (bs : list byte) (i : nat) : nat * nat :=
  let k := scan_while (λ c, bool_decide (c = "`")) (drop i bs) 0 in
  (k, if decide (i + k < length bs) then i + k - 1 else i + k).

Fixpoint FindClosure_loop (fuel : nat) (bs : list byte) (opener closure : byte)
    (codeSpan allowNesting : bool) (i : nat) (opened : Z)
    (codeSpanOpener : nat) : option Z :=
  match fuel with
  | 0 => None
  | S fuel' =>
    if decide (i < length bs) then
      c ← bs !! i;
      if codeSpan && negb (codeSpanOpener =? 0) && bool_decide (c = "`") then
        let '(codeSpanCloser, i) := backtick_run bs i in
        let codeSpanOpener :=
          if codeSpanCloser =? codeSpanOpener then 0 else codeSpanOpener in
        FindClosure_loop fuel' bs opener closure codeSpan allowNesting
          (i + 1) opened codeSpanOpener
      else
        esc ← and_then ((codeSpanOpener =? 0) && bool_decide (c = "\")
                        && bool_decide (i < length bs - 1))
                       (c1 ← bs !! (i + 1); Some (IsPunct c1));
        if (esc : bool) then
          FindClosure_loop fuel' bs opener closure codeSpan allowNesting
            (i + 2) opened codeSpanOpener
        else if codeSpan && (codeSpanOpener =? 0) && bool_decide (c = "`") then
          let '(k, i) := backtick_run bs i in
          FindClosure_loop fuel' bs opener closure codeSpan allowNesting
            (i + 1) opened (codeSpanOpener + k)
        else if codeSpan && (codeSpanOpener =? 0) || negb codeSpan then
          if bool_decide (c = closure) then
            let opened := (opened - 1)%Z in
            if (opened =? 0)%Z then Some (Z.of_nat i)
            else FindClosure_loop fuel' bs opener closure codeSpan allowNesting
                   (i + 1) opened codeSpanOpener
          else if bool_decide (c = opener) then
            if negb allowNesting then Some (-1)%Z
            else FindClosure_loop fuel' bs opener closure codeSpan allowNesting
                   (i + 1) (opened + 1)%Z codeSpanOpener
          else FindClosure_loop fuel' bs opener closure codeSpan allowNesting
                 (i + 1) opened codeSpanOpener
        else FindClosure_loop fuel' bs opener closure codeSpan allowNesting
               (i + 1) opened codeSpanOpener
    else Some (-1)%Z
  end.

Definition FindClosure (bs : list byte) (opener closure : byte)
    (codeSpan allowNesting : bool) : option Z :=
  FindClosure_loop (S (length bs)) bs opener closure codeSpan allowNesting 0 1 0.

(** ** Runes and link references *)

Section Runes.

Variable unicodeCaseFoldings : Z → option (list Z).
Variable DecodeRune : list byte → Z * nat.

(** [source[i:]] panics when the loop ran down to [i = -1]. *)
Definition ToRune (source : list byte) (pos : Z) : option Z :=
  i ← scan_back_while (S (Z.to_nat (pos + 1))) (λ c, negb (RuneStart c))
         source pos;
  if (i <? 0)%Z then None
  else s ← slice source (Z.to_nat i) (length source); Some (DecodeRune s).1.

Definition ToLinkReference (v : list byte) : option (list byte) :=
  v ← TrimLeftSpace v;
  v ← TrimRightSpace v;
  v ← DoFullUnicodeCaseFolding unicodeCaseFoldings DecodeRune v;
  ReplaceSpaces v " ".

End Runes.

(** ** Descriptions of results

    What the functions above compute, as functions on lists. *)

(** The bytes of [l] from its first byte that fails [p] on. *)
Fixpoint skip_while (p : byte → bool) (l : list byte) : list byte :=
  match l with
  | [] => []
  | c :: l' => if p c then skip_while p l' else l
  end.

(** [l] without its leading and without its trailing bytes of [spaces]. *)
Definition trim_spaces (l : list byte) : list byte :=
  reverse (skip_while (λ c, found_in c spaces)
             (reverse (skip_while (λ c, found_in c spaces) l))).

(** [c + 32] for an ASCII capital, [c] otherwise. *)
Definition ascii_lower (c : byte) : byte :=
  if byte_le x41 c && byte_le c x5a then byte_of_Z (byte_z c + 32) else c.

(** Every maximal run of [IsSpace] bytes becomes one [repl]; [in_run] tells
    that the bytes before [l] ended in such a run. *)
Fixpoint collapse (repl : byte) (in_run : bool) (l : list byte) : list byte :=
  match l with
  | [] => if in_run then [repl] else []
  | c :: l' =>
    if IsSpace c then collapse repl true l'
    else (if in_run then [repl] else []) ++ c :: collapse repl false l'
  end.

(** No [IsSpace] byte of [l] is followed, anywhere later, by another kind of
    byte: the spaces of [l], if any, are all at its end. *)
Fixpoint spaces_only_trailing (l : list byte) : bool :=
  match l with
  | [] => true
  | c :: l' => if IsSpace c then forallb IsSpace l' else spaces_only_trailing l'
  end.

(** The bytes that make up an indentation: space and tab. *)
Definition indent_byte (c : byte) : bool :=
  bool_decide (c = " ") || bool_decide (c = x09).

(** The width reached from width [w] by one more indentation byte [c], on a
    line that starts at column [currentPos]; [width_after] does so for a
    run of them. *)
Definition advance (currentPos w : Z) (c : byte) : Z :=
  if bool_decide (c = x09) then (w + TabWidth (currentPos + w))%Z
  else (w + 1)%Z.

Definition width_after (currentPos w : Z) (l : list byte) : Z :=
  foldl (advance currentPos) w l.

(** The three byte classes of the pattern
    [[A-Za-z][A-Za-z0-9.+-]{1,31}:[^<>\x00-\x20]*]. *)
Definition is_letter (c : byte) : bool :=
  byte_le "A" c && byte_le c "Z" || byte_le "a" c && byte_le c "z".

Definition is_scheme_byte (c : byte) : bool :=
  is_letter c || IsNumeric c
  || bool_decide (c = ".") || bool_decide (c = "+") || bool_decide (c = "-").

Definition is_url_byte (c : byte) : bool :=
  negb (bool_decide (c = "<") || bool_decide (c = ">") || byte_le c x20).

(** [%XX] with the two upper-case hexadecimal digits of [c]. *)
Definition percent_encode (c : byte) : list byte :=
  [ "%"; default x00 (upperhex !! (Byte.to_nat c / 16));
    default x00 (upperhex !! (Byte.to_nat c mod 16)) ].

(** What [URLEscape] makes of one ASCII byte other than the percent sign. *)
Definition url_escape_ascii (c : byte) : list byte :=
  if table_at urlEscapeTable c =? 1 then [c] else percent_encode c.



(** * Properties *)

#[local] Arguments byte_le : simpl never.
#[local] Arguments table_at : simpl never.
#[local] Arguments IsPunct : simpl never.
#[local] Arguments IsNumeric : simpl never.
#[local] Arguments IsHexDecimal : simpl never.
#[local] Arguments IsAlphaNumeric : simpl never.
#[local] Arguments EscapeHTMLByte : simpl never.
#[local] Arguments slice : simpl never.
#[local] Arguments RuneStart : simpl never.

(** ** CopyOnWriteBuffer *)

Lemma cob_step_copied b o : copied b = true → copied (cob_step b o) = true.
Proof.
  intros Hb.
  destruct o; cbn;
    unfold WriteString, AppendString, Write, Append, WriteByte, AppendByte;
    rewrite ?Hb; cbn; first [assumption | reflexivity].
Qed.

Lemma cob_step_borrowed b o :
  copied (cob_step b o) = false → cob_step b o = b.
Proof.
  destruct b as [buf [|]], o; cbn; intros; congruence.
Qed.

Lemma cob_run_cons b o ops : cob_run b (o :: ops) = cob_run (cob_step b o) ops.
Proof. reflexivity. Qed.

Lemma cob_run_copied ops : ∀ b, copied b = true → copied (cob_run b ops) = true.
Proof.
  induction ops as [|o ops IH]; intros b Hb; [assumption|].
  rewrite cob_run_cons. apply IH, cob_step_copied, Hb.
Qed.

Lemma cob_run_borrowed ops :
  ∀ b, copied (cob_run b ops) = false → cob_run b ops = b.
Proof.
  induction ops as [|o ops IH]; intros b Hb; [reflexivity|].
  rewrite cob_run_cons in *. rewrite (IH _ Hb). apply cob_step_borrowed.
  destruct (copied (cob_step b o)) eqn:E; [|reflexivity].
  rewrite (cob_run_copied ops _ E) in Hb. discriminate.
Qed.

(** C8. Once [IsCopied] answers true on a buffer it answers true after any
    further sequence of operations; and a buffer created over [input] and
    driven by any sequence of operations returns [input] from [Bytes] as
    long as [IsCopied] answers false. *)
Theorem cob_flag_monotone_view_preserved :
  (∀ (b : CopyOnWriteBuffer) (more : list cob_op),
     IsCopied b = true → IsCopied (cob_run b more) = true)
  ∧ (∀ (input : list byte) (ops : list cob_op),
       IsCopied (cob_run (NewCopyOnWriteBuffer input) ops) = false →
       Bytes (cob_run (NewCopyOnWriteBuffer input) ops) = input).
Proof.
  split.
  - intros b more. apply cob_run_copied.
  - intros input ops H. unfold IsCopied in H.
    rewrite (cob_run_borrowed _ _ H). reflexivity.
Qed.

Lemma cob_flag_monotone_view_preserved_witness :
  IsCopied (cob_run (NewCopyOnWriteBuffer (bytes_of "ab"))
              [OpWriteByte "a"; OpBytes; OpAppend (bytes_of "b"); OpIsCopied])
  = true
  ∧ Bytes (cob_run (NewCopyOnWriteBuffer (bytes_of "ab")) [OpBytes; OpIsCopied])
    = bytes_of "ab".
Proof.
  split.
  - apply (proj1 cob_flag_monotone_view_preserved
             (cob_run (NewCopyOnWriteBuffer (bytes_of "ab")) [OpWriteByte "a"])
             [OpBytes; OpAppend (bytes_of "b"); OpIsCopied]).
    reflexivity.
  - apply (proj2 cob_flag_monotone_view_preserved (bytes_of "ab")
             [OpBytes; OpIsCopied]).
    reflexivity.
Defined.

(** ** Numeric references: boundary cases *)

(** C3. ["&#9731;"] and ["&#x2603;"] both resolve to the UTF-8 encoding of
    U+2603; ["&#99999999;"], a run of eight decimal digits, is returned as it
    is, without a copy; ["&#0;"] resolves to the encoding of U+FFFD. *)
Theorem numeric_reference_boundary :
  EncodeRune 9731 = [xe2; x98; x83]
  ∧ EncodeRune 65533 = [xef; xbf; xbd]
  ∧ ResolveNumericReferences (bytes_of "&#9731;") = Some (EncodeRune 9731)
  ∧ ResolveNumericReferences (bytes_of "&#x2603;") = Some (EncodeRune 9731)
  ∧ ResolveNumericReferences_cob (bytes_of "&#99999999;")
    = Some (NewCopyOnWriteBuffer (bytes_of "&#99999999;"))
  ∧ ResolveNumericReferences (bytes_of "&#99999999;") = Some (bytes_of "&#99999999;")
  ∧ ResolveNumericReferences (bytes_of "&#0;") = Some (EncodeRune 65533).
Proof. repeat split; vm_compute; reflexivity. Qed.



(** ** The tables *)

Lemma tables_complete :
  length punctTable = 256 ∧ length urlEscapeTable = 256
  ∧ length utf8lenTable = 256 ∧ length htmlEscapeTable = 256.
Proof. repeat split. Qed.

(** ** Slices and lookups *)

Lemma slice_Some v lo hi :
  lo ≤ hi → hi ≤ length v → slice v lo hi = Some (take (hi - lo) (drop lo v)).
Proof. intros. unfold slice. rewrite decide_True by lia. reflexivity. Qed.

Lemma slice_tail v lo :
  lo ≤ length v → slice v lo (length v) = Some (drop lo v).
Proof.
  intros. rewrite slice_Some by lia. f_equal.
  apply take_ge. rewrite length_drop. lia.
Qed.

Lemma lookup_drop_head (v : list byte) i c l :
  drop i v = c :: l → v !! i = Some c ∧ drop (S i) v = l ∧ i < length v.
Proof.
  intros H.
  assert (Hc : v !! i = Some c).
  { rewrite <- (Nat.add_0_r i), <- lookup_drop, H. reflexivity. }
  split; [exact Hc|]. split.
  - rewrite (drop_S _ _ _ Hc) in H. congruence.
  - eapply lookup_lt_Some, Hc.
Qed.

Lemma lookup_in_range (v : list byte) i :
  i < length v → ∃ c, v !! i = Some c.
Proof. intros H. apply lookup_lt_is_Some_2 in H as [c Hc]. eauto. Qed.

Lemma slice_snoc (source : list byte) n i c :
  n ≤ i → source !! i = Some c →
  take (i + 1 - n) (drop n source) = take (i - n) (drop n source) ++ [c].
Proof.
  intros Hn Hc. replace (i + 1 - n) with (S (i - n)) by lia.
  apply take_S_r. rewrite lookup_drop. rewrite <- Hc. f_equal. lia.
Qed.

Lemma emitted_Write cob s : emitted (Write cob s) = emitted cob ++ s.
Proof. destruct cob as [buf [|]]; reflexivity. Qed.

Lemma emitted_WriteByte cob c : emitted (WriteByte cob c) = emitted cob ++ [c].
Proof. destruct cob as [buf [|]]; reflexivity. Qed.

Lemma copied_Write cob s : copied (Write cob s) = true.
Proof. destruct cob as [buf [|]]; reflexivity. Qed.

Lemma copied_WriteByte cob c : copied (WriteByte cob c) = true.
Proof. destruct cob as [buf [|]]; reflexivity. Qed.

Lemma flush_tail_done source n cob :
  n ≤ length source → borrowed_ok source n cob →
  Bytes <$> flush_tail source n cob = Some (emitted cob ++ drop n source).
Proof.
  intros Hn Hb. unfold flush_tail, IsCopied, emitted.
  destruct (copied cob) eqn:E.
  - rewrite slice_tail by lia. cbn. unfold Write. rewrite E. reflexivity.
  - destruct (Hb E) as [-> Hbuf]. cbn. unfold Bytes.
    rewrite Hbuf, drop_0. reflexivity.
Qed.

Lemma borrowed_ok_copied source n cob : copied cob = true → borrowed_ok source n cob.
Proof. intros H H'. congruence. Qed.

(** ** Inputs without triggers are returned uncopied *)

Lemma EscapeHTMLByte_special c :
  c ∉ html_special → EscapeHTMLByte c = None.
Proof.
  unfold html_special. intros H.
  destruct (EscapeHTMLByte c) eqn:E; [|reflexivity].
  exfalso. apply H. revert E.
  destruct c; cbv; intros E; try discriminate; repeat constructor.
Qed.

Lemma EscapeHTML_loop_quiet v :
  (∀ c, c ∈ v → c ∉ html_special) →
  ∀ fuel i n cob, length v - i < fuel →
    EscapeHTML_loop fuel v i n cob = Some (n, cob).
Proof.
  intros Hv. induction fuel as [|fuel IH]; intros i n cob Hf; [lia|].
  cbn [EscapeHTML_loop]. case_decide as Hi; [|reflexivity].
  destruct (lookup_in_range v i Hi) as [c Hc]. rewrite Hc. cbn.
  rewrite EscapeHTMLByte_special
    by (apply Hv; eapply list_elem_of_lookup_2, Hc).
  apply IH. lia.
Qed.

Lemma UnescapePunctuations_loop_quiet source :
  (∀ i, ¬ escaped_punct_at source i) →
  ∀ fuel i n cob, length source - i < fuel →
    UnescapePunctuations_loop fuel source i n cob = Some (n, cob).
Proof.
  intros Hv. induction fuel as [|fuel IH]; intros i n cob Hf; [lia|].
  cbn [UnescapePunctuations_loop]. case_decide as Hi; [|reflexivity].
  destruct (lookup_in_range source i Hi) as [c Hc]. rewrite Hc. cbn.
  assert (Hesc : and_then (bool_decide (i < length source - 1) && bool_decide (c = "\"))
                   (source !! (i + 1) ≫= λ c1, Some (IsPunct c1)) = Some false).
  { destruct (bool_decide (i < length source - 1)) eqn:E1; [|reflexivity].
    destruct (bool_decide (c = "\")) eqn:E2; [|reflexivity].
    apply bool_decide_eq_true in E1, E2. subst c. cbn.
    destruct (lookup_in_range source (i + 1) ltac:(lia)) as [c1 Hc1].
    rewrite Hc1. cbn. f_equal.
    destruct (IsPunct c1) eqn:E3; [|reflexivity].
    exfalso. apply (Hv i). split; eauto. }
  rewrite Hesc. cbn. apply IH. lia.
Qed.

Lemma numeric_reference_quiet source i n cob :
  ¬ numeric_lead_at source i → source !! i = Some "&" →
  numeric_reference source i n cob = Some None.
Proof.
  intros Hq Hi. unfold numeric_reference.
  assert (Hh : and_then (bool_decide (i + 1 < length source))
                 (source !! (i + 1) ≫= λ c, Some (bool_decide (c = "#")))
               = Some false).
  { destruct (bool_decide (i + 1 < length source)) eqn:E1; [|reflexivity].
    apply bool_decide_eq_true in E1.
    destruct (lookup_in_range source (i + 1) E1) as [c Hc].
    cbn. rewrite Hc. cbn. f_equal. apply bool_decide_eq_false.
    intros ->. apply Hq. split; assumption. }
  rewrite Hh. reflexivity.
Qed.

Lemma ResolveNumericReferences_loop_quiet source :
  (∀ i, ¬ numeric_lead_at source i) →
  ∀ fuel i n cob, length source - i < fuel →
    ResolveNumericReferences_loop fuel source i n cob = Some (n, cob).
Proof.
  intros Hv. induction fuel as [|fuel IH]; intros i n cob Hf; [lia|].
  cbn [ResolveNumericReferences_loop]. case_decide as Hi; [|reflexivity].
  destruct (lookup_in_range source i Hi) as [c Hc]. rewrite Hc. cbn.
  case_bool_decide as Ec.
  - subst c. rewrite (numeric_reference_quiet _ _ _ _ (Hv i) Hc). cbn.
    apply IH. lia.
  - apply IH. lia.
Qed.

Lemma url_percent_not_safe : (table_at urlEscapeTable "%" =? 1) = false.
Proof. reflexivity. Qed.

Lemma URLEscape_loop_quiet v :
  ∀ fuel i n cob, length v - i < fuel →
    url_no_trigger (drop i v) = true →
    URLEscape_loop fuel v i n cob = Some (n, cob).
Proof.
  induction fuel as [|fuel IH]; intros i n cob Hf Hq; [lia|].
  cbn [URLEscape_loop]. case_decide as Hi; [|reflexivity].
  destruct (drop i v) as [|c l] eqn:Ed.
  { apply (f_equal length) in Ed. rewrite length_drop in Ed. cbn in Ed. lia. }
  apply lookup_drop_head in Ed as (Hc & Hl & _). rewrite Hc. cbn.
  cbn [url_no_trigger] in Hq.
  destruct (table_at urlEscapeTable c =? 1) eqn:Es.
  { apply IH; [lia|]. rewrite Nat.add_1_r, Hl. exact Hq. }
  case_bool_decide as Ec.
  - subst c. destruct l as [|h [|x l'']]; try discriminate.
    apply andb_prop in Hq as [Hh Hq].
    assert (Hlen : i + 2 < length v).
    { apply (f_equal length) in Hl. rewrite length_drop in Hl. cbn in Hl. lia. }
    assert (Hh1 : v !! (i + 1) = Some h).
    { rewrite Nat.add_1_r, <- (Nat.add_0_r (S i)), <- lookup_drop, Hl.
      reflexivity. }
    rewrite (bool_decide_eq_true_2 (i + 2 < length v) Hlen). cbn.
    rewrite Hh1. cbn.
    rewrite Hh. cbn. apply IH; [lia|].
    replace (i + 3) with (S i + 2) by lia. rewrite <- drop_drop, Hl.
    exact Hq.
  - cbn. apply andb_prop in Hq as [Hu Hq]. rewrite Hu.
    apply IH; [lia|]. rewrite Nat.add_1_r, Hl. exact Hq.
Qed.

Section Quiet.

Variable LookUpHTML5EntityByName : list byte → option (list byte).
Variable unicodeCaseFoldings : Z → option (list Z).
Variable DecodeRune : list byte → Z * nat.

Lemma ResolveEntityNames_loop_quiet source :
  "&" ∉ source →
  ∀ fuel i n cob, length source - i < fuel →
    ResolveEntityNames_loop LookUpHTML5EntityByName fuel source i n cob
    = Some (n, cob).
Proof.
  intros Hv. induction fuel as [|fuel IH]; intros i n cob Hf; [lia|].
  cbn [ResolveEntityNames_loop]. case_decide as Hi; [|reflexivity].
  destruct (lookup_in_range source i Hi) as [c Hc]. rewrite Hc. cbn.
  rewrite bool_decide_eq_false_2.
  - apply IH. lia.
  - intros ->. apply Hv. eapply list_elem_of_lookup_2, Hc.
Qed.

Lemma DoFullUnicodeCaseFolding_loop_quiet v :
  (∀ i c, v !! i = Some c →
          folds_at unicodeCaseFoldings DecodeRune v i c = false) →
  ∀ fuel i n cob, length v - i < fuel →
    DoFullUnicodeCaseFolding_loop unicodeCaseFoldings DecodeRune fuel v i n cob
    = Some (n, cob).
Proof.
  intros Hv. induction fuel as [|fuel IH]; intros i n cob Hf; [lia|].
  cbn [DoFullUnicodeCaseFolding_loop]. case_decide as Hi; [|reflexivity].
  destruct (lookup_in_range v i Hi) as [c Hc]. rewrite Hc. cbn.
  pose proof (Hv i c Hc) as Hq. unfold folds_at in Hq.
  destruct (negb (byte_le xb5 c)).
  { rewrite Hq. apply IH. lia. }
  destruct (RuneStart c); cbn in *; [|apply IH; lia].
  destruct (DecodeRune (drop i v)) as [r len]. cbn in Hq.
  destruct (r =? RuneError)%Z; cbn in *; [apply IH; lia|].
  destruct (unicodeCaseFoldings r) as [folded|].
  - rewrite bool_decide_eq_true_2 in Hq by eauto. discriminate.
  - apply IH. lia.
Qed.

End Quiet.

Lemma uncopied_New v : uncopied v (Some (NewCopyOnWriteBuffer v)).
Proof. exists (NewCopyOnWriteBuffer v). repeat split. Qed.

Lemma uncopied_Bytes v r : uncopied v r → Bytes <$> r = Some v.
Proof. intros (cob & -> & _ & <-). reflexivity. Qed.

Lemma no_backslash_quiet (v : list byte) :
  "\" ∉ v → ∀ i, ¬ escaped_punct_at v i.
Proof. intros H i [Hi _]. apply H. eapply list_elem_of_lookup_2, Hi. Qed.

Lemma no_ampersand_quiet (v : list byte) :
  "&" ∉ v → ∀ i, ¬ numeric_lead_at v i.
Proof. intros H i [Hi _]. apply H. eapply list_elem_of_lookup_2, Hi. Qed.

Lemma EscapeHTML_quiet v :
  (∀ c, c ∈ v → c ∉ html_special) → uncopied v (EscapeHTML_cob v).
Proof.
  intros H. unfold EscapeHTML_cob.
  rewrite (EscapeHTML_loop_quiet v H) by lia. apply uncopied_New.
Qed.

Lemma UnescapePunctuations_quiet v :
  (∀ i, ¬ escaped_punct_at v i) → uncopied v (UnescapePunctuations_cob v).
Proof.
  intros H. unfold UnescapePunctuations_cob.
  rewrite (UnescapePunctuations_loop_quiet v H) by lia. apply uncopied_New.
Qed.

Lemma ResolveNumericReferences_quiet v :
  (∀ i, ¬ numeric_lead_at v i) → uncopied v (ResolveNumericReferences_cob v).
Proof.
  intros H. unfold ResolveNumericReferences_cob.
  rewrite (ResolveNumericReferences_loop_quiet v H) by lia. apply uncopied_New.
Qed.

Section QuietFunctions.

Variable LookUpHTML5EntityByName : list byte → option (list byte).
Variable unicodeCaseFoldings : Z → option (list Z).
Variable DecodeRune : list byte → Z * nat.

Lemma ResolveEntityNames_quiet v :
  "&" ∉ v → uncopied v (ResolveEntityNames_cob LookUpHTML5EntityByName v).
Proof.
  intros H. unfold ResolveEntityNames_cob.
  rewrite (ResolveEntityNames_loop_quiet _ v H) by lia. apply uncopied_New.
Qed.

Lemma URLEscape_scan_quiet v :
  url_no_trigger v = true →
  uncopied v (URLEscape_cob LookUpHTML5EntityByName v false).
Proof.
  intros H. unfold URLEscape_cob. cbn [mbind option_bind].
  rewrite (URLEscape_loop_quiet v (S (length v)) 0) by (rewrite ?drop_0; first [lia | exact H]).
  apply uncopied_New.
Qed.

Lemma URLEscape_resolve_quiet v :
  "\" ∉ v → "&" ∉ v → url_no_trigger v = true →
  uncopied v (URLEscape_cob LookUpHTML5EntityByName v true).
Proof.
  intros Hb Ha H. unfold URLEscape_cob.
  unfold UnescapePunctuations, ResolveNumericReferences, ResolveEntityNames.
  rewrite (uncopied_Bytes _ _ (UnescapePunctuations_quiet v (no_backslash_quiet v Hb))).
  cbn [mbind option_bind].
  rewrite (uncopied_Bytes _ _ (ResolveNumericReferences_quiet v (no_ampersand_quiet v Ha))).
  cbn [mbind option_bind].
  rewrite (uncopied_Bytes _ _ (ResolveEntityNames_quiet v Ha)).
  cbn [mbind option_bind].
  rewrite (URLEscape_loop_quiet v (S (length v)) 0) by (rewrite ?drop_0; first [lia | exact H]).
  apply uncopied_New.
Qed.

Lemma DoFullUnicodeCaseFolding_quiet v :
  (∀ i c, v !! i = Some c →
          folds_at unicodeCaseFoldings DecodeRune v i c = false) →
  uncopied v (DoFullUnicodeCaseFolding_cob unicodeCaseFoldings DecodeRune v).
Proof.
  intros H. unfold DoFullUnicodeCaseFolding_cob.
  rewrite (DoFullUnicodeCaseFolding_loop_quiet _ _ v H) by lia.
  apply uncopied_New.
Qed.

End QuietFunctions.

(** C5. Each transformation returns an input without triggers as it is, the
    copy-on-write buffer never materialised: [EscapeHTML] when no byte is one
    of the four special bytes, [UnescapePunctuations] when no backslash is
    followed by a punctuation byte, [ResolveNumericReferences] when no
    ampersand is followed by a number sign, [ResolveEntityNames] when there
    is no ampersand, [URLEscape] when its scan meets only URL-safe bytes,
    percent triples and non-leading bytes (and, with reference resolution
    requested, there is no backslash and no ampersand either), and
    [DoFullUnicodeCaseFolding] when no position holds an ASCII capital or
    starts a code point of the folding table. The tables and the rune
    decoder are arbitrary. *)
Theorem trigger_free_input_returned_uncopied :
  ∀ (LookUpHTML5EntityByName : list byte → option (list byte))
    (unicodeCaseFoldings : Z → option (list Z))
    (DecodeRune : list byte → Z * nat) (v : list byte),
    ((∀ c, c ∈ v → c ∉ html_special) →
       uncopied v (EscapeHTML_cob v) ∧ EscapeHTML v = Some v)
  ∧ ((∀ i, ¬ escaped_punct_at v i) →
       uncopied v (UnescapePunctuations_cob v)
       ∧ UnescapePunctuations v = Some v)
  ∧ ((∀ i, ¬ numeric_lead_at v i) →
       uncopied v (ResolveNumericReferences_cob v)
       ∧ ResolveNumericReferences v = Some v)
  ∧ ("&" ∉ v →
       uncopied v (ResolveEntityNames_cob LookUpHTML5EntityByName v)
       ∧ ResolveEntityNames LookUpHTML5EntityByName v = Some v)
  ∧ (url_no_trigger v = true →
       uncopied v (URLEscape_cob LookUpHTML5EntityByName v false)
       ∧ URLEscape LookUpHTML5EntityByName v false = Some v)
  ∧ ("\" ∉ v → "&" ∉ v → url_no_trigger v = true →
       uncopied v (URLEscape_cob LookUpHTML5EntityByName v true)
       ∧ URLEscape LookUpHTML5EntityByName v true = Some v)
  ∧ ((∀ i c, v !! i = Some c →
             folds_at unicodeCaseFoldings DecodeRune v i c = false) →
       uncopied v (DoFullUnicodeCaseFolding_cob unicodeCaseFoldings DecodeRune v)
       ∧ DoFullUnicodeCaseFolding unicodeCaseFoldings DecodeRune v = Some v).
Proof.
  intros LookUp foldings Decode v.
  repeat apply conj; intros;
    (match goal with |- ?A ∧ _ => assert (Hu : A) end;
     [|split; [exact Hu | apply uncopied_Bytes, Hu]]).
  - apply EscapeHTML_quiet; assumption.
  - apply UnescapePunctuations_quiet; assumption.
  - apply ResolveNumericReferences_quiet; assumption.
  - apply ResolveEntityNames_quiet; assumption.
  - apply URLEscape_scan_quiet; assumption.
  - apply URLEscape_resolve_quiet; assumption.
  - apply DoFullUnicodeCaseFolding_quiet; assumption.
Qed.

Lemma trigger_free_input_returned_uncopied_witness :
  uncopied (bytes_of "plain-text_123") (EscapeHTML_cob (bytes_of "plain-text_123"))
  ∧ uncopied (bytes_of "plain-text_123")
             (UnescapePunctuations_cob (bytes_of "plain-text_123"))
  ∧ uncopied (bytes_of "plain-text_123")
             (ResolveNumericReferences_cob (bytes_of "plain-text_123"))
  ∧ uncopied (bytes_of "plain-text_123")
             (ResolveEntityNames_cob four_entities (bytes_of "plain-text_123"))
  ∧ uncopied (bytes_of "plain-text_123")
             (URLEscape_cob four_entities (bytes_of "plain-text_123") true)
  ∧ uncopied (bytes_of "plain-text_123")
             (DoFullUnicodeCaseFolding_cob (λ _, None) (λ _, (0%Z, 1))
                (bytes_of "plain-text_123")).
Proof.
  destruct (trigger_free_input_returned_uncopied four_entities (λ _, None)
              (λ _, (0%Z, 1)) (bytes_of "plain-text_123"))
    as (H1 & H2 & H3 & H4 & _ & H6 & H7).
  assert (Hb : "\" ∉ bytes_of "plain-text_123")
    by (apply (bool_decide_unpack _); vm_compute; exact I).
  assert (Ha : "&" ∉ bytes_of "plain-text_123")
    by (apply (bool_decide_unpack _); vm_compute; exact I).
  split; [apply H1|split; [apply H2|split; [apply H3|split; [apply H4|split;
    [apply H6|apply H7]]]]].
  - apply Forall_forall. apply (bool_decide_unpack _). vm_compute. exact I.
  - apply no_backslash_quiet, Hb.
  - apply no_ampersand_quiet, Ha.
  - exact Ha.
  - exact Hb.
  - exact Ha.
  - reflexivity.
  - intros i c H.
    do 14 (destruct i as [|i]; [injection H as <-; reflexivity|]).
    discriminate H.
Defined.

(** ** URLEscape: percent triples and truncated sequences *)

Lemma URLEscape_loop_percent v i n cob fuel c1 :
  v !! i = Some "%" → i + 2 < length v →
  v !! (i + 1) = Some c1 → IsHexDecimal c1 = true →
  URLEscape_loop (S fuel) v i n cob = URLEscape_loop fuel v (i + 3) n cob.
Proof.
  intros Hc Hlen Hc1 Hh. cbn [URLEscape_loop].
  rewrite decide_True by lia. rewrite Hc. cbn.
  rewrite url_percent_not_safe.
  rewrite (bool_decide_eq_true_2 (i + 2 < length v) Hlen). cbn.
  rewrite Hc1. cbn. rewrite Hh. reflexivity.
Qed.

Lemma URLEscape_loop_skip_safe v k :
  ∀ fuel i n cob,
    (∀ m, i ≤ m < i + k → ∃ c, v !! m = Some c ∧ table_at urlEscapeTable c = 1) →
    URLEscape_loop (k + fuel) v i n cob = URLEscape_loop fuel v (i + k) n cob.
Proof.
  induction k as [|k IH]; intros fuel i n cob H.
  - rewrite Nat.add_0_r. reflexivity.
  - destruct (H i ltac:(lia)) as (c & Hc & Hs).
    change (S k + fuel) with (S (k + fuel)). cbn [URLEscape_loop].
    rewrite decide_True by (eapply lookup_lt_Some, Hc).
    rewrite Hc. cbn. rewrite Hs. cbn.
    rewrite IH by (intros m Hm; apply H; lia).
    f_equal. lia.
Qed.

Lemma safe_prefix_lookup (p s : list byte) i :
  Forall (λ c, table_at urlEscapeTable c = 1) p →
  ∀ m, i ≤ m < i + (length p - i) →
       ∃ c, (p ++ s) !! m = Some c ∧ table_at urlEscapeTable c = 1.
Proof.
  intros Hp m Hm.
  destruct (lookup_in_range p m ltac:(lia)) as [c Hc].
  exists c. split; [apply lookup_app_l_Some, Hc|].
  rewrite Forall_forall in Hp. apply Hp. eapply list_elem_of_lookup_2, Hc.
Qed.

Lemma url_no_trigger_safe_prefix (p s : list byte) :
  Forall (λ c, table_at urlEscapeTable c = 1) p →
  url_no_trigger s = true → url_no_trigger (p ++ s) = true.
Proof.
  induction 1 as [|c p Hc _ IH]; intros Hs; [exact Hs|].
  cbn [app url_no_trigger]. rewrite Hc. cbn. apply IH, Hs.
Qed.

Lemma slice_extend (v : list byte) n i j :
  n ≤ i → i ≤ j →
  take (j - n) (drop n v) = take (i - n) (drop n v) ++ take (j - i) (drop i v).
Proof.
  intros Hn Hj. replace (j - n) with (i - n + (j - i)) by lia.
  rewrite <- (take_take_drop (drop n v) (i - n) (j - i)).
  rewrite drop_drop. repeat f_equal; lia.
Qed.

Lemma utf8len_nonzero c : table_at utf8lenTable c ≠ 0.
Proof. destruct c; cbv; intros H; discriminate H. Qed.

Lemma percent_test_total (v : list byte) (i : nat) (c : byte) :
  i < length v →
  ∃ pct, and_then (bool_decide (c = "%") && bool_decide (i + 2 < length v))
           (v !! (i + 1) ≫= λ c1, Some (IsHexDecimal c1 && IsHexDecimal c1))
         = Some pct
         ∧ (pct = true → i + 2 < length v).
Proof.
  intros Hi. destruct (bool_decide (c = "%")); cbn; [|exists false; split; [reflexivity|discriminate]].
  case_bool_decide as E; cbn; [|exists false; split; [reflexivity|discriminate]].
  destruct (lookup_in_range v (i + 1) ltac:(lia)) as [c1 Hc1].
  rewrite Hc1. cbn. eauto.
Qed.

Lemma URLEscape_tail_done v n cob :
  url_scan_ok v (length v) n cob →
  ∃ fin, URLEscape_tail v n cob = Some fin
         ∧ Bytes fin = (emitted cob ++ if copied cob then drop n v else v).
Proof.
  intros (Hn & _ & Hb). unfold URLEscape_tail, IsCopied, emitted.
  destruct (copied cob) eqn:E; cbn [andb].
  - case_bool_decide as Hlt.
    + rewrite slice_tail by lia. cbn. eexists. split; [reflexivity|].
      unfold Write. rewrite E. reflexivity.
    + exists cob. split; [reflexivity|]. unfold Bytes.
      rewrite drop_ge by lia. rewrite app_nil_r. reflexivity.
  - exists cob. split; [reflexivity|]. unfold Bytes.
    destruct (Hb eq_refl) as [-> _]. reflexivity.
Qed.

(** The scan of [URLEscape] always ends, and what it has settled (the
    buffer and the bytes between the two cursors) stays at the front of the
    result. *)
Lemma URLEscape_loop_prefix (v : list byte) :
  ∀ fuel i n cob,
    length v - i < fuel → url_scan_ok v i n cob →
    ∃ n' cob' fin rest,
      URLEscape_loop fuel v i n cob = Some (n', cob')
      ∧ URLEscape_tail v n' cob' = Some fin
      ∧ Bytes fin = emitted cob ++ take (i - n) (drop n v) ++ rest.
Proof.
  induction fuel as [|fuel IH]; intros i n cob Hf (Hn & Hi & Hb); [lia|].
  cbn [URLEscape_loop]. case_decide as Hlt.
  2: { assert (i = length v) by lia. subst i.
       destruct (URLEscape_tail_done v n cob) as (fin & Hfin & HB).
       { split; [lia|]. split; [lia|exact Hb]. }
       exists n, cob, fin. destruct (copied cob) eqn:E.
       - exists []. split; [reflexivity|]. split; [exact Hfin|]. rewrite HB.
         rewrite app_nil_r, take_ge by (rewrite length_drop; lia). reflexivity.
       - destruct (Hb eq_refl) as [_ [->|[-> _]]].
         + exists []. split; [reflexivity|]. split; [exact Hfin|]. rewrite HB.
           rewrite app_nil_r, drop_0, take_ge by lia. reflexivity.
         + exists v. split; [reflexivity|]. split; [exact Hfin|]. rewrite HB.
           rewrite Nat.sub_diag, take_0. reflexivity. }
  assert (Hn0 : copied cob = false → n = 0).
  { intros E. destruct (Hb E) as [_ [?|[? ?]]]; lia. }
  assert (Hbuf : copied cob = false → buffer cob = v).
  { intros E. apply Hb, E. }
  assert (Hkeep : ∀ j, i < j → j ≤ length v → length v - j < fuel →
            ∃ n' cob' fin rest,
              URLEscape_loop fuel v j n cob = Some (n', cob')
              ∧ URLEscape_tail v n' cob' = Some fin
              ∧ Bytes fin = emitted cob ++ take (i - n) (drop n v) ++ rest).
  { intros j Hij Hj Hfj.
    destruct (IH j n cob Hfj) as (n' & cob' & fin & rest & Hloop & Hfin & HB).
    { split; [lia|]. split; [lia|]. intros E. split; [apply Hbuf, E|].
      left. apply Hn0, E. }
    exists n', cob', fin, (take (j - i) (drop i v) ++ rest).
    split; [exact Hloop|]. split; [exact Hfin|]. rewrite HB.
    rewrite (slice_extend v n i j) by lia. rewrite <- !app_assoc. reflexivity. }
  assert (Hmove : ∀ j cob1 out, i < j → j ≤ length v → length v - j < fuel →
            copied cob1 = true →
            emitted cob1 = emitted cob ++ take (i - n) (drop n v) ++ out →
            ∃ n' cob' fin rest,
              URLEscape_loop fuel v j j cob1 = Some (n', cob')
              ∧ URLEscape_tail v n' cob' = Some fin
              ∧ Bytes fin = emitted cob ++ take (i - n) (drop n v) ++ rest).
  { intros j cob1 out Hij Hj Hfj Hc1 Hem.
    destruct (IH j j cob1 Hfj) as (n' & cob' & fin & rest & Hloop & Hfin & HB).
    { split; [lia|]. split; [lia|]. congruence. }
    exists n', cob', fin, (out ++ rest).
    split; [exact Hloop|]. split; [exact Hfin|]. rewrite HB, Hem.
    rewrite Nat.sub_diag, take_0, app_nil_l, <- !app_assoc. reflexivity. }
  destruct (lookup_in_range v i Hlt) as [c Hc]. rewrite Hc.
  cbn [mbind option_bind].
  destruct (table_at urlEscapeTable c =? 1); [apply Hkeep; lia|].
  destruct (percent_test_total v i c Hlt) as (pct & -> & Hpct).
  cbn [mbind option_bind].
  destruct pct; [specialize (Hpct eq_refl); apply Hkeep; lia|].
  destruct (table_at utf8lenTable c =? 99); [apply Hkeep; lia|].
  rewrite slice_Some by lia. cbn [mbind option_bind].
  destruct (bool_decide (c = " ")).
  { apply (Hmove (i + 1) _ htmlSpace); [lia|lia|lia|apply copied_Write|].
    rewrite !emitted_Write, <- !app_assoc. reflexivity. }
  set (u8len := if bool_decide (length v < table_at utf8lenTable c)
                then length v - 1 else table_at utf8lenTable c).
  destruct (u8len =? 0) eqn:E0.
  { apply Nat.eqb_eq in E0.
    assert (Hone : length v = 1).
    { unfold u8len in E0. pose proof (utf8len_nonzero c).
      case_bool_decide; lia. }
    assert (i = 0) by lia. subst i.
    destruct (IH 1 1 cob ltac:(lia)) as (n' & cob' & fin & rest & Hloop & Hfin & HB).
    { split; [lia|]. split; [lia|]. intros E. split; [apply Hbuf, E|]. right. lia. }
    exists n', cob', fin, rest. split; [exact Hloop|]. split; [exact Hfin|].
    rewrite HB. replace n with 0 by lia. reflexivity. }
  apply Nat.eqb_neq in E0.
  case_bool_decide as Hstop.
  { apply (Hmove (i + 1) _ []); [lia|lia|lia|apply copied_Write|].
    rewrite emitted_Write, app_nil_r. reflexivity. }
  rewrite slice_Some by lia. cbn [mbind option_bind].
  apply (Hmove (i + u8len) _ (QueryEscape (take (i + u8len - i) (drop i v))));
    [lia|lia|lia|apply copied_Write|].
  rewrite !emitted_Write, <- !app_assoc. reflexivity.
Qed.

Lemma url_scan_ok_start v : url_scan_ok v 0 0 (NewCopyOnWriteBuffer v).
Proof. split; [lia|]. split; [lia|]. intros _. split; [reflexivity|]. left. reflexivity. Qed.

(** [URLEscape] without reference resolution returns on every input. *)
Lemma URLEscape_total LookUp (v : list byte) :
  ∃ out, URLEscape LookUp v false = Some out.
Proof.
  destruct (URLEscape_loop_prefix v (S (length v)) 0 0 (NewCopyOnWriteBuffer v)
              ltac:(lia) (url_scan_ok_start v))
    as (n' & cob' & fin & rest & Hloop & Hfin & _).
  exists (Bytes fin). unfold URLEscape, URLEscape_cob. cbn [mbind option_bind].
  rewrite Hloop. cbn [mbind option_bind]. rewrite Hfin. reflexivity.
Qed.

(** A percent triple reached over URL-safe bytes is at the front of the
    result, whatever follows. *)
Lemma URLEscape_percent_kept LookUp (p s : list byte) (h x : byte) :
  Forall (λ c, table_at urlEscapeTable c = 1) p → IsHexDecimal h = true →
  ∃ rest, URLEscape LookUp (p ++ "%" :: h :: x :: s) false
          = Some (p ++ "%" :: h :: x :: rest).
Proof.
  intros Hp Hh. set (v := p ++ "%" :: h :: x :: s).
  assert (Hlen : length v = length p + 3 + length s).
  { unfold v. rewrite length_app. cbn. lia. }
  destruct (URLEscape_loop_prefix v (length s + 3) (length p + 3) 0
              (NewCopyOnWriteBuffer v) ltac:(lia))
    as (n' & cob' & fin & rest & Hloop & Hfin & HB).
  { split; [lia|]. split; [lia|]. intros _. split; [reflexivity|]. left. reflexivity. }
  exists rest. unfold URLEscape, URLEscape_cob. cbn [mbind option_bind].
  replace (S (length v)) with (length p + S (length s + 3)) by lia.
  rewrite (URLEscape_loop_skip_safe v (length p) _ 0)
    by (intros m Hm; apply (safe_prefix_lookup p _ 0 Hp); lia).
  cbn [Nat.add].
  rewrite (URLEscape_loop_percent v (length p) 0 _ _ h);
    [|unfold v; rewrite lookup_app_r, Nat.sub_diag by lia; reflexivity
     |lia
     |unfold v; rewrite lookup_app_r by lia;
      replace (length p + 1 - length p) with 1 by lia; reflexivity
     |exact Hh].
  rewrite Hloop. cbn [mbind option_bind]. rewrite Hfin. cbn [fmap option_fmap option_map].
  rewrite HB. cbn [emitted NewCopyOnWriteBuffer copied app].
  rewrite Nat.sub_0_r, drop_0.
  assert (Htake : take (length p + 3) v = p ++ ["%"; h; x]).
  { unfold v. change (p ++ "%" :: h :: x :: s) with (p ++ ["%"; h; x] ++ s).
    rewrite app_assoc. apply take_app_length'. rewrite length_app. reflexivity. }
  rewrite Htake, <- app_assoc. reflexivity.
Qed.

(** C9. When the scan of [URLEscape] stands at a ['%'] that is followed by
    at least two bytes, the first of them a hexadecimal digit, it moves three
    bytes on without touching the output position or the buffer: the second
    byte is not looked at. Hence an input made of URL-safe bytes, such a
    triple whose second byte [x] is arbitrary, and a trigger-free rest is
    returned as it is; whatever the rest is, the result starts with the
    URL-safe bytes and the untouched triple; ["%2G"] is returned as it is,
    although ['G'] is no hexadecimal digit, and in ["%2G "] only the space
    is escaped. *)
Theorem URLEscape_percent_checks_first_digit_only :
  (∀ v i n cob fuel c1,
     v !! i = Some "%" → i + 2 < length v →
     v !! (i + 1) = Some c1 → IsHexDecimal c1 = true →
     URLEscape_loop (S fuel) v i n cob = URLEscape_loop fuel v (i + 3) n cob)
  ∧ (∀ LookUp (p s : list byte) (h x : byte),
       Forall (λ c, table_at urlEscapeTable c = 1) p →
       IsHexDecimal h = true → url_no_trigger s = true →
       uncopied (p ++ "%" :: h :: x :: s)
                (URLEscape_cob LookUp (p ++ "%" :: h :: x :: s) false)
       ∧ URLEscape LookUp (p ++ "%" :: h :: x :: s) false
         = Some (p ++ "%" :: h :: x :: s))
  ∧ (∀ LookUp (p s : list byte) (h x : byte),
       Forall (λ c, table_at urlEscapeTable c = 1) p →
       IsHexDecimal h = true →
       ∃ rest, URLEscape LookUp (p ++ "%" :: h :: x :: s) false
               = Some (p ++ "%" :: h :: x :: rest))
  ∧ IsHexDecimal "G" = false
  ∧ (∀ LookUp, URLEscape LookUp (bytes_of "%2G") false = Some (bytes_of "%2G"))
  ∧ (∀ LookUp, URLEscape LookUp (bytes_of "%2G ") false
               = Some (bytes_of "%2G%20")).
Proof.
  split; [exact URLEscape_loop_percent|].
  split; [|split; [exact URLEscape_percent_kept
                  |repeat split; intros; vm_compute; reflexivity]].
  intros LookUp p s h x Hp Hh Hs.
  assert (Hu : uncopied (p ++ "%" :: h :: x :: s)
                 (URLEscape_cob LookUp (p ++ "%" :: h :: x :: s) false)).
  { apply URLEscape_scan_quiet, url_no_trigger_safe_prefix; [exact Hp|].
    cbn [url_no_trigger]. rewrite url_percent_not_safe.
    rewrite bool_decide_eq_true_2 by reflexivity. rewrite Hh. exact Hs. }
  split; [exact Hu | apply uncopied_Bytes, Hu].
Qed.

Lemma URLEscape_percent_checks_first_digit_only_witness :
  uncopied (["a"] ++ "%" :: "2" :: "G" :: ["b"])
           (URLEscape_cob four_entities (["a"] ++ "%" :: "2" :: "G" :: ["b"]) false)
  ∧ URLEscape four_entities (["a"] ++ "%" :: "2" :: "G" :: ["b"]) false
    = Some (["a"] ++ "%" :: "2" :: "G" :: ["b"]).
Proof.
  apply (proj1 (proj2 URLEscape_percent_checks_first_digit_only)
           four_entities ["a"] ["b"] "2" "G");
    [repeat constructor | reflexivity | reflexivity].
Defined.

(** C9 (as worded it fails). A percent sign that the scan does not reach
    is not kept: after the lead byte [0xC3] the percent sign is taken as the
    second byte of a two-byte sequence and escaped with it, although two
    bytes follow it and the first is a hexadecimal digit; and in ["%2%4<"]
    the second percent sign is the third byte of the first triple, so the
    [<] two bytes after it is escaped. In neither output the three bytes
    stand as they were. *)
Lemma URLEscape_percent_not_always_passed_through :
  [xc3; "%"; "2"; "G"] !! 1 = Some "%" ∧ IsHexDecimal "2" = true
  ∧ URLEscape (λ _, None) [xc3; "%"; "2"; "G"] false
    = Some (bytes_of "%C3%252G")
  ∧ (∀ p s, bytes_of "%C3%252G" ≠ p ++ bytes_of "%2G" ++ s)
  ∧ bytes_of "%2%4<" !! 2 = Some "%" ∧ IsHexDecimal "4" = true
  ∧ URLEscape (λ _, None) (bytes_of "%2%4<") false = Some (bytes_of "%2%4%3C")
  ∧ (∀ p s, bytes_of "%2%4%3C" ≠ p ++ bytes_of "%4<" ++ s).
Proof.
  split; [reflexivity|]. split; [reflexivity|].
  split; [vm_compute; reflexivity|]. split.
  { intros p s H. cbn in H.
    repeat (destruct p as [|? p]; [discriminate H|];
            cbn in H; injection H as _ H).
    destruct p; discriminate H. }
  split; [reflexivity|]. split; [reflexivity|].
  split; [vm_compute; reflexivity|].
  intros p s H. cbn in H.
  repeat (destruct p as [|? p]; [discriminate H|];
          cbn in H; injection H as _ H).
  destruct p; discriminate H.
Qed.

Lemma lead_byte_class c :
  2 ≤ table_at utf8lenTable c ≤ 4 →
  (table_at urlEscapeTable c =? 1) = false ∧ c ≠ "%" ∧ c ≠ " "
  ∧ (table_at utf8lenTable c =? 99) = false
  ∧ (table_at utf8lenTable c =? 0) = false.
Proof.
  destruct c; vm_compute; intros [H1 H2];
    first [ exfalso; apply H1; reflexivity
          | exfalso; lia
          | repeat split; congruence ].
Qed.

Lemma URLEscape_drops_trailing_lead LookUp (p : list byte) (c : byte) :
  Forall (λ c, table_at urlEscapeTable c = 1) p →
  2 ≤ table_at utf8lenTable c ≤ 4 →
  table_at utf8lenTable c ≤ length p + 1 →
  URLEscape LookUp (p ++ [c]) false = Some p.
Proof.
  intros Hp Hc Hlen.
  destruct (lead_byte_class c Hc) as (Hs & Hpct & Hsp & H99 & H0).
  unfold URLEscape, URLEscape_cob. cbn [mbind option_bind].
  set (v := p ++ [c]).
  assert (Hv : length v = length p + 1) by (unfold v; rewrite length_app; reflexivity).
  replace (S (length v)) with (length p + 2) by lia.
  rewrite (URLEscape_loop_skip_safe v (length p) 2 0)
    by (intros m Hm; apply (safe_prefix_lookup p [c] 0 Hp); lia).
  cbn [Nat.add]. cbn [URLEscape_loop].
  rewrite decide_True by lia.
  assert (Hvc : v !! length p = Some c).
  { unfold v. rewrite lookup_app_r by lia. rewrite Nat.sub_diag. reflexivity. }
  rewrite Hvc. cbn [mbind option_bind]. rewrite Hs.
  rewrite (bool_decide_eq_false_2 (c = "%") Hpct). cbn [andb and_then mbind option_bind].
  rewrite H99. rewrite (bool_decide_eq_false_2 (c = " ") Hsp).
  rewrite (bool_decide_eq_false_2 (length v < table_at utf8lenTable c)) by lia.
  rewrite H0.
  rewrite (slice_Some v 0 (length p)) by lia. cbn [mbind option_bind].
  rewrite (bool_decide_eq_true_2 (length v < length p + table_at utf8lenTable c)) by lia.
  rewrite decide_False by lia.
  rewrite Nat.sub_0_r, drop_0. unfold v at 3. rewrite take_app_length.
  cbn [mbind option_bind]. unfold URLEscape_tail.
  rewrite (bool_decide_eq_false_2 (length p + 1 < length v)) by lia.
  rewrite andb_false_r. reflexivity.
Qed.

(** C2 (the scan contradicts it). [URLEscape] returns on every input, but
    a leading byte whose declared length runs past the end of the input is
    not passed through: after URL-safe bytes it
    is left out of the output whenever the whole input is at least as long
    as the declared length (["a\xC3"] gives ["a"], [" \xC3"] gives ["%20"]);
    when the input is shorter than the declared length the byte is escaped
    alone (["\xE2\x98"] gives ["%E2\x98"]) or, being the only byte,
    returned. A byte that is no leading byte at all is passed through
    (["a\x98"] is returned as it is). *)
Theorem URLEscape_truncated_sequence_not_passed_through :
  (∀ LookUp (v : list byte), ∃ out, URLEscape LookUp v false = Some out)
  ∧ (∀ LookUp (p : list byte) (c : byte),
     Forall (λ c, table_at urlEscapeTable c = 1) p →
     2 ≤ table_at utf8lenTable c ≤ 4 →
     table_at utf8lenTable c ≤ length p + 1 →
     URLEscape LookUp (p ++ [c]) false = Some p)
  ∧ table_at utf8lenTable xc3 = 2
  ∧ (∀ LookUp, URLEscape LookUp ["a"; xc3] false = Some ["a"])
  ∧ (∀ LookUp, URLEscape LookUp [" "; xc3] false = Some (bytes_of "%20"))
  ∧ (∀ LookUp, URLEscape LookUp [xe2; x98] false = Some ["%"; "E"; "2"; x98])
  ∧ (∀ LookUp, URLEscape LookUp [xc3] false = Some [xc3])
  ∧ (∀ LookUp, URLEscape LookUp ["a"; x98] false = Some ["a"; x98]).
Proof.
  split; [exact URLEscape_total|].
  split; [exact URLEscape_drops_trailing_lead|].
  repeat split; intros; vm_compute; reflexivity.
Qed.

(** ** The scanners against their specifications *)

Lemma unescape_spec_escape d rest :
  IsPunct d = true →
  unescape_punctuations_spec ("\" :: d :: rest) = d :: unescape_punctuations_spec rest.
Proof. intros H. cbn. rewrite H. reflexivity. Qed.

Lemma UnescapePunctuations_loop_spec source :
  ∀ fuel i n cob,
    length source - i < fuel → n ≤ i → i ≤ length source →
    borrowed_ok source n cob →
    ∃ n' cob',
      UnescapePunctuations_loop fuel source i n cob = Some (n', cob')
      ∧ Bytes <$> flush_tail source n' cob'
        = Some (emitted cob ++ take (i - n) (drop n source)
                ++ unescape_punctuations_spec (drop i source)).
Proof.
  induction fuel as [|fuel IH]; intros i n cob Hf Hn Hi Hb; [lia|].
  cbn [UnescapePunctuations_loop]. case_decide as Hlt.
  - destruct (drop i source) as [|c rest] eqn:Ed.
    { apply (f_equal length) in Ed. rewrite length_drop in Ed. cbn in Ed. lia. }
    apply lookup_drop_head in Ed as (Hc & Hrest & _). rewrite Hc.
    cbn [mbind option_bind].
    destruct (bool_decide (i < length source - 1) && bool_decide (c = "\")) eqn:E1.
    + apply andb_prop in E1 as [E1 E2].
      apply bool_decide_eq_true in E1, E2. subst c.
      destruct rest as [|d rest'].
      { apply (f_equal length) in Hrest. rewrite length_drop in Hrest.
        cbn in Hrest. lia. }
      apply lookup_drop_head in Hrest as (Hd & Hrest' & _).
      replace (S i) with (i + 1) in Hd by lia.
      cbn [and_then]. rewrite Hd. cbn [mbind option_bind].
      destruct (IsPunct d) eqn:Ep.
      * rewrite slice_Some by lia. cbn [mbind option_bind].
        destruct (IH (i + 2) (i + 2) (WriteByte (Write cob (take (i - n) (drop n source))) d))
          as (n' & cob' & Hloop & Hfin); try lia.
        { apply borrowed_ok_copied, copied_WriteByte. }
        exists n', cob'. split; [exact Hloop|]. rewrite Hfin.
        rewrite emitted_WriteByte, emitted_Write.
        rewrite Nat.sub_diag, take_0, app_nil_l.
        rewrite unescape_spec_escape by exact Ep.
        replace (i + 2) with (S (S i)) by lia. rewrite Hrest'.
        rewrite <- !app_assoc. reflexivity.
      * destruct (IH (i + 1) n cob) as (n' & cob' & Hloop & Hfin); try lia; [exact Hb|].
        exists n', cob'. split; [exact Hloop|]. rewrite Hfin.
        rewrite (slice_snoc source n i "\") by (lia || exact Hc).
        replace (i + 1) with (S i) by lia.
        replace (drop (S i) source) with (d :: rest')
          by (symmetry; rewrite (drop_S _ d (S i)); [congruence | rewrite <- Hd; f_equal; lia]).
        cbn [unescape_punctuations_spec]. rewrite Ep. cbn [andb].
        rewrite andb_false_r. rewrite <- !app_assoc. reflexivity.
    + cbn [and_then mbind option_bind].
      destruct (IH (i + 1) n cob) as (n' & cob' & Hloop & Hfin); try lia; [exact Hb|].
      exists n', cob'. split; [exact Hloop|]. rewrite Hfin.
      rewrite (slice_snoc source n i c) by (lia || exact Hc).
      replace (i + 1) with (S i) by lia. rewrite Hrest.
      rewrite <- !app_assoc. do 2 f_equal.
      destruct rest as [|d rest']; [reflexivity|].
      cbn [unescape_punctuations_spec app].
      apply andb_false_iff in E1 as [E1|E1].
      * apply bool_decide_eq_false in E1.
        apply (f_equal length) in Hrest. rewrite length_drop in Hrest.
        cbn in Hrest. lia.
      * rewrite E1. reflexivity.
  - exists n, cob. split; [reflexivity|].
    rewrite flush_tail_done by (lia || exact Hb).
    replace i with (length source) by lia.
    rewrite drop_all. cbn [unescape_punctuations_spec]. rewrite app_nil_r.
    do 2 f_equal. rewrite take_ge by (rewrite length_drop; lia). reflexivity.
Qed.

(** C7. [UnescapePunctuations] computes the specification function: each
    backslash immediately followed by a punctuation byte is replaced by that
    byte, both bytes being consumed; every other byte is copied; a trailing
    backslash with nothing after it is copied. *)
Theorem UnescapePunctuations_refines_spec :
  (∀ source, UnescapePunctuations source = Some (unescape_punctuations_spec source))
  ∧ (∀ d rest, IsPunct d = true →
       unescape_punctuations_spec ("\" :: d :: rest)
       = d :: unescape_punctuations_spec rest)
  ∧ (∀ c rest, c ≠ "\" →
       unescape_punctuations_spec (c :: rest) = c :: unescape_punctuations_spec rest)
  ∧ (∀ d rest, IsPunct d = false →
       unescape_punctuations_spec ("\" :: d :: rest)
       = "\" :: unescape_punctuations_spec (d :: rest))
  ∧ unescape_punctuations_spec ["\"] = ["\"].
Proof.
  split; [|split; [|split; [|split]]].
  - intros source. unfold UnescapePunctuations, UnescapePunctuations_cob.
    destruct (UnescapePunctuations_loop_spec source (S (length source)) 0 0
                (NewCopyOnWriteBuffer source)) as (n' & cob' & Hloop & Hfin);
      try lia.
    { intros _. split; reflexivity. }
    rewrite Hloop. cbn [mbind option_bind]. rewrite Hfin.
    rewrite drop_0. reflexivity.
  - exact unescape_spec_escape.
  - intros c rest Hc. destruct rest as [|d rest]; [reflexivity|].
    cbn [unescape_punctuations_spec].
    rewrite (bool_decide_eq_false_2 (c = "\") Hc). reflexivity.
  - intros d rest Hd. cbn [unescape_punctuations_spec]. rewrite Hd.
    rewrite andb_false_r. reflexivity.
  - reflexivity.
Qed.

Lemma EscapeHTMLByte_spec c :
  match EscapeHTMLByte c with
  | Some escaped => escape_html_byte_spec c = escaped
  | None => escape_html_byte_spec c = [c]
  end.
Proof. destruct c; reflexivity. Qed.

Lemma EscapeHTML_loop_spec v :
  ∀ fuel i n cob,
    length v - i < fuel → n ≤ i → i ≤ length v → borrowed_ok v n cob →
    ∃ n' cob',
      EscapeHTML_loop fuel v i n cob = Some (n', cob')
      ∧ Bytes <$> flush_tail v n' cob'
        = Some (emitted cob ++ take (i - n) (drop n v)
                ++ escape_html_spec (drop i v)).
Proof.
  induction fuel as [|fuel IH]; intros i n cob Hf Hn Hi Hb; [lia|].
  cbn [EscapeHTML_loop]. case_decide as Hlt.
  - destruct (drop i v) as [|c rest] eqn:Ed.
    { apply (f_equal length) in Ed. rewrite length_drop in Ed. cbn in Ed. lia. }
    apply lookup_drop_head in Ed as (Hc & Hrest & _). rewrite Hc.
    cbn [mbind option_bind].
    pose proof (EscapeHTMLByte_spec c) as Hspec.
    destruct (EscapeHTMLByte c) as [escaped|].
    + rewrite slice_Some by lia. cbn [mbind option_bind].
      destruct (IH (i + 1) (i + 1) (Write (Write cob (take (i - n) (drop n v))) escaped))
        as (n' & cob' & Hloop & Hfin); try lia.
      { apply borrowed_ok_copied, copied_Write. }
      exists n', cob'. split; [exact Hloop|]. rewrite Hfin.
      rewrite !emitted_Write, Nat.sub_diag, take_0, app_nil_l.
      replace (i + 1) with (S i) by lia. rewrite Hrest.
      unfold escape_html_spec. cbn [flat_map]. rewrite Hspec.
      rewrite <- !app_assoc. reflexivity.
    + destruct (IH (i + 1) n cob) as (n' & cob' & Hloop & Hfin); try lia; [exact Hb|].
      exists n', cob'. split; [exact Hloop|]. rewrite Hfin.
      rewrite (slice_snoc v n i c) by (lia || exact Hc).
      replace (i + 1) with (S i) by lia. rewrite Hrest.
      unfold escape_html_spec. cbn [flat_map]. rewrite Hspec.
      rewrite <- !app_assoc. reflexivity.
  - exists n, cob. split; [reflexivity|].
    rewrite flush_tail_done by (lia || exact Hb).
    replace i with (length v) by lia.
    rewrite drop_all. cbn. rewrite app_nil_r.
    do 2 f_equal. rewrite take_ge by (rewrite length_drop; lia). reflexivity.
Qed.

Lemma EscapeHTML_spec v : EscapeHTML v = Some (escape_html_spec v).
Proof.
  unfold EscapeHTML, EscapeHTML_cob.
  destruct (EscapeHTML_loop_spec v (S (length v)) 0 0 (NewCopyOnWriteBuffer v))
    as (n' & cob' & Hloop & Hfin); try lia.
  { intros _. split; reflexivity. }
  rewrite Hloop. cbn [mbind option_bind]. rewrite Hfin, drop_0. reflexivity.
Qed.

(** [ReadWhile] over a run of accepted bytes that ends at a rejected one. *)
Lemma ReadWhile_loop_run (pred : byte → bool) (c : byte) (post : list byte) :
  pred c = false →
  ∀ run fuel pre ok,
    Forall (λ x, pred x = true) run → length run < fuel →
    ReadWhile_loop fuel (pre ++ run ++ c :: post) (length pre)
      (length (pre ++ run ++ c :: post)) pred ok
    = Some (length pre + length run, ok || negb (bool_decide (run = []))).
Proof.
  intros Hc. induction run as [|x run IH]; intros fuel pre ok Hrun Hf;
    (destruct fuel as [|fuel]; [cbn in Hf; lia|]); cbn [ReadWhile_loop].
  - rewrite decide_True by (rewrite length_app; cbn; lia).
    rewrite lookup_app_r, Nat.sub_diag by lia. cbn.
    rewrite Hc, Nat.add_0_r, orb_false_r. reflexivity.
  - rewrite decide_True by (rewrite !length_app; cbn; lia).
    rewrite lookup_app_r, Nat.sub_diag by lia. cbn.
    apply Forall_cons in Hrun as [Hx Hrun]. rewrite Hx.
    specialize (IH fuel (pre ++ [x]) true Hrun ltac:(cbn in Hf; lia)).
    rewrite <- !app_assoc in IH. cbn [app] in IH.
    rewrite length_app in IH. cbn [length] in IH.
    rewrite IH. rewrite orb_true_r. cbn. f_equal. f_equal. lia.
Qed.

Lemma alphanumeric_not_hash c : IsAlphaNumeric c = true → c ≠ "#".
Proof. intros H ->. discriminate H. Qed.

Section EntityNames.

Variable LookUpHTML5EntityByName : list byte → option (list byte).

(** The loop body of [ResolveEntityNames] at the ampersand of a reference
    whose name the table knows. *)
Lemma entity_reference_named (pre name rest chars s : list byte) n cob :
  name ≠ [] → Forall (λ x, IsAlphaNumeric x = true) name →
  LookUpHTML5EntityByName name = Some chars →
  slice (pre ++ "&" :: name ++ ";" :: rest) n (length pre) = Some s →
  entity_reference LookUpHTML5EntityByName (pre ++ "&" :: name ++ ";" :: rest)
    (length pre) n cob
  = Some (Some (length pre + 1 + length name, length pre + 1 + length name + 1,
                Write (Write cob s) chars)).
Proof.
  intros Hne Hal Hlook Hs. unfold entity_reference.
  set (source := pre ++ "&" :: name ++ ";" :: rest) in *.
  assert (Hsrc : source = (pre ++ ["&"]) ++ name ++ ";" :: rest).
  { unfold source. rewrite <- app_assoc. reflexivity. }
  assert (Hlen : length source = length pre + 1 + length name + 1 + length rest).
  { rewrite Hsrc, !length_app. cbn. lia. }
  destruct name as [|x name']; [congruence|].
  assert (Hx : source !! (length pre + 1) = Some x).
  { rewrite Hsrc, lookup_app_r by (rewrite length_app; cbn; lia).
    rewrite length_app. cbn. replace (length pre + 1 - (length pre + 1)) with 0 by lia.
    reflexivity. }
  rewrite (bool_decide_eq_true_2 (length pre + 1 < length source)) by (cbn in Hlen; lia).
  cbn [and_then]. rewrite Hx. cbn [mbind option_bind].
  rewrite (bool_decide_eq_false_2 (x = "#"))
    by (apply alphanumeric_not_hash; apply Forall_cons in Hal as [? _]; assumption).
  cbn [mbind option_bind].
  unfold ReadWhile. cbn [fst snd].
  pose proof (ReadWhile_loop_run IsAlphaNumeric ";" rest eq_refl (x :: name')
                (S (length source - (length pre + 1))) (pre ++ ["&"]) false Hal) as Hrw.
  rewrite <- Hsrc in Hrw. rewrite length_app in Hrw. cbn [length] in Hrw.
  rewrite Hrw by (cbn in Hlen |- *; lia). clear Hrw.
  cbn [mbind option_bind orb negb].
  rewrite (bool_decide_eq_false_2 (x :: name' = [])) by discriminate.
  cbn [negb andb].
  rewrite (bool_decide_eq_true_2 (length pre + 1 + S (length name') < length source))
    by (cbn in Hlen; lia).
  cbn [and_then].
  assert (Hsemi : source !! (length pre + 1 + S (length name')) = Some ";").
  { rewrite Hsrc, lookup_app_r by (rewrite length_app; cbn; lia).
    rewrite length_app. cbn [length].
    replace (length pre + 1 + S (length name') - (length pre + 1))
      with (length (x :: name') + 0) by (cbn; lia).
    rewrite lookup_app_r by lia.
    replace (length (x :: name') + 0 - length (x :: name')) with 0 by lia.
    reflexivity. }
  rewrite Hsemi. cbn [mbind option_bind].
  rewrite bool_decide_eq_true_2 by reflexivity.
  assert (Hname : slice source (length pre + 1) (length pre + 1 + S (length name'))
                  = Some (x :: name')).
  { rewrite slice_Some by (cbn in Hlen; lia). f_equal.
    rewrite Hsrc.
    rewrite drop_app_length' by (rewrite length_app; reflexivity).
    apply take_app_length'. cbn. lia. }
  rewrite Hname. cbn [mbind option_bind]. rewrite Hlook, Hs.
  reflexivity.
Qed.

End EntityNames.

Section RoundTrip.

Variable LookUpHTML5EntityByName : list byte → option (list byte).
Hypothesis lookup_quot : LookUpHTML5EntityByName (bytes_of "quot") = Some [x22].
Hypothesis lookup_lt : LookUpHTML5EntityByName (bytes_of "lt") = Some ["<"].
Hypothesis lookup_gt : LookUpHTML5EntityByName (bytes_of "gt") = Some [">"].

(** A byte other than the ampersand is either written as a reference the
    table decodes back to it, or copied. *)
Lemma escape_html_byte_cases c :
  c ≠ "&" →
  (∃ name, escape_html_byte_spec c = "&" :: name ++ [";"] ∧ name ≠ []
           ∧ Forall (λ x, IsAlphaNumeric x = true) name
           ∧ LookUpHTML5EntityByName name = Some [c])
  ∨ escape_html_byte_spec c = [c].
Proof.
  intros Hamp. unfold escape_html_byte_spec.
  case_bool_decide as E1; [subst c; left; exists (bytes_of "quot")|].
  { repeat split; [discriminate | repeat constructor | exact lookup_quot]. }
  rewrite bool_decide_eq_false_2 by exact Hamp.
  case_bool_decide as E2; [subst c; left; exists (bytes_of "lt")|].
  { repeat split; [discriminate | repeat constructor | exact lookup_lt]. }
  case_bool_decide as E3; [subst c; left; exists (bytes_of "gt")|].
  { repeat split; [discriminate | repeat constructor | exact lookup_gt]. }
  right. reflexivity.
Qed.

Lemma ResolveEntityNames_loop_unescapes :
  ∀ (w : list byte) fuel (pre : list byte) n cob,
    "&" ∉ w → length (escape_html_spec w) < fuel → n ≤ length pre →
    borrowed_ok (pre ++ escape_html_spec w) n cob →
    ∃ n' cob',
      ResolveEntityNames_loop LookUpHTML5EntityByName fuel
        (pre ++ escape_html_spec w) (length pre) n cob = Some (n', cob')
      ∧ Bytes <$> flush_tail (pre ++ escape_html_spec w) n' cob'
        = Some (emitted cob
                ++ take (length pre - n) (drop n (pre ++ escape_html_spec w))
                ++ w).
Proof.
  induction w as [|c w IH]; intros fuel pre n cob Hamp Hf Hn Hb;
    (destruct fuel as [|fuel]; [lia|]); cbn [ResolveEntityNames_loop].
  - cbn [escape_html_spec flat_map] in *. rewrite app_nil_r in *.
    rewrite decide_False by lia. exists n, cob. split; [reflexivity|].
    rewrite flush_tail_done by (lia || exact Hb).
    rewrite app_nil_r. do 2 f_equal.
    rewrite take_ge by (rewrite length_drop; lia). reflexivity.
  - apply not_elem_of_cons in Hamp as [Hc Hamp].
    change (escape_html_spec (c :: w))
      with (escape_html_byte_spec c ++ escape_html_spec w) in *.
    rewrite length_app in Hf.
    destruct (escape_html_byte_cases c ltac:(congruence))
      as [(name & Hesc & Hne & Hal & Hlook)|Hesc]; rewrite Hesc in *.
    + set (source := pre ++ ("&" :: name ++ [";"]) ++ escape_html_spec w) in *.
      assert (Hsrc : source = pre ++ "&" :: name ++ ";" :: escape_html_spec w).
      { unfold source. cbn [app]. rewrite <- app_assoc. reflexivity. }
      assert (Hsrc' : source = (pre ++ "&" :: name ++ [";"]) ++ escape_html_spec w).
      { unfold source. rewrite <- app_assoc. reflexivity. }
      assert (Hlen : length source
                     = length pre + 1 + length name + 1 + length (escape_html_spec w)).
      { rewrite Hsrc, !length_app. cbn. rewrite length_app. cbn. lia. }
      rewrite decide_True by lia.
      assert (Hi : source !! length pre = Some "&").
      { rewrite Hsrc, lookup_app_r, Nat.sub_diag by lia. reflexivity. }
      rewrite Hi. cbn [mbind option_bind].
      rewrite bool_decide_eq_true_2 by reflexivity.
      pose proof (entity_reference_named LookUpHTML5EntityByName pre name
                    (escape_html_spec w) [c] (take (length pre - n) (drop n source))
                    n cob Hne Hal Hlook) as Href.
      rewrite <- Hsrc in Href. rewrite Href by (apply slice_Some; lia).
      clear Href. cbn [mbind option_bind].
      cbn [length app] in Hf. rewrite length_app in Hf. cbn [length] in Hf.
      specialize (IH fuel (pre ++ "&" :: name ++ [";"]) (length pre + 1 + length name + 1)
                    (Write (Write cob (take (length pre - n) (drop n source))) [c])
                    Hamp ltac:(lia)).
      rewrite <- Hsrc' in IH.
      assert (Hpre : length (pre ++ "&" :: name ++ [";"])
                     = length pre + 1 + length name + 1).
      { rewrite length_app. cbn. rewrite length_app. cbn. lia. }
      rewrite Hpre in IH.
      destruct IH as (n' & cob' & Hloop & Hfin); [lia| |].
      { apply borrowed_ok_copied, copied_Write. }
      exists n', cob'. split; [exact Hloop|]. rewrite Hfin.
      rewrite !emitted_Write, Nat.sub_diag, take_0, app_nil_l.
      rewrite <- !app_assoc. reflexivity.
    + set (source := pre ++ [c] ++ escape_html_spec w) in *.
      assert (Hsrc' : source = (pre ++ [c]) ++ escape_html_spec w).
      { unfold source. rewrite <- app_assoc. reflexivity. }
      assert (Hlen : length source = length pre + 1 + length (escape_html_spec w)).
      { unfold source. rewrite !length_app. cbn. lia. }
      rewrite decide_True by lia.
      assert (Hi : source !! length pre = Some c).
      { unfold source. rewrite lookup_app_r, Nat.sub_diag by lia. reflexivity. }
      rewrite Hi. cbn [mbind option_bind].
      rewrite bool_decide_eq_false_2 by congruence.
      cbn [length] in Hf.
      specialize (IH fuel (pre ++ [c]) n cob Hamp ltac:(lia)).
      rewrite <- Hsrc' in IH. rewrite length_app in IH. cbn [length] in IH.
      destruct IH as (n' & cob' & Hloop & Hfin); [lia|exact Hb|].
      exists n', cob'. split; [exact Hloop|]. rewrite Hfin.
      rewrite (slice_snoc source n (length pre) c) by (lia || exact Hi).
      rewrite <- !app_assoc. reflexivity.
Qed.

Lemma ResolveEntityNames_unescapes w :
  "&" ∉ w →
  ResolveEntityNames LookUpHTML5EntityByName (escape_html_spec w) = Some w.
Proof.
  intros Hamp. unfold ResolveEntityNames, ResolveEntityNames_cob.
  destruct (ResolveEntityNames_loop_unescapes w
              (S (length (escape_html_spec w))) [] 0
              (NewCopyOnWriteBuffer (escape_html_spec w)) Hamp)
    as (n' & cob' & Hloop & Hfin); cbn [length app]; try lia.
  { intros _. split; reflexivity. }
  cbn [length app] in Hloop, Hfin.
  rewrite Hloop. cbn [mbind option_bind]. rewrite Hfin. reflexivity.
Qed.

End RoundTrip.

(** C6. With a named-entity table that decodes [quot], [lt] and [gt], for an
    input without an ampersand: [EscapeHTML] returns the input with each of
    the four special bytes replaced by its named reference and every other
    byte copied, and [ResolveEntityNames] maps that result back to the
    input. *)
Theorem EscapeHTML_ResolveEntityNames_round_trip :
  ∀ (LookUpHTML5EntityByName : list byte → option (list byte)) (v : list byte),
    LookUpHTML5EntityByName (bytes_of "quot") = Some [x22] →
    LookUpHTML5EntityByName (bytes_of "lt") = Some ["<"] →
    LookUpHTML5EntityByName (bytes_of "gt") = Some [">"] →
    "&" ∉ v →
    EscapeHTML v = Some (escape_html_spec v)
    ∧ ResolveEntityNames LookUpHTML5EntityByName (escape_html_spec v) = Some v
    ∧ (EscapeHTML v ≫= ResolveEntityNames LookUpHTML5EntityByName) = Some v.
Proof.
  intros LookUp v Hq Hl Hg Hamp.
  pose proof (ResolveEntityNames_unescapes LookUp Hq Hl Hg v Hamp) as Hr.
  split; [apply EscapeHTML_spec|]. split; [exact Hr|].
  rewrite EscapeHTML_spec. exact Hr.
Qed.

Lemma EscapeHTML_ResolveEntityNames_round_trip_witness :
  EscapeHTML (bytes_of "<a href=x>") = Some (escape_html_spec (bytes_of "<a href=x>"))
  ∧ ResolveEntityNames four_entities (escape_html_spec (bytes_of "<a href=x>"))
    = Some (bytes_of "<a href=x>")
  ∧ (EscapeHTML (bytes_of "<a href=x>") ≫= ResolveEntityNames four_entities)
    = Some (bytes_of "<a href=x>").
Proof.
  apply (EscapeHTML_ResolveEntityNames_round_trip four_entities (bytes_of "<a href=x>"));
    [reflexivity | reflexivity | reflexivity |].
  apply (bool_decide_unpack _). vm_compute. exact I.
Defined.

(** ** BytesFilter *)

Module BytesFilterProps.
Import BytesFilter.

#[local] Arguments bit : simpl never.

Lemma bit_nonzero j : j < 8 → bit j ≠ 0%N.
Proof.
  intros H. do 8 (destruct j as [|j]; [discriminate|]). lia.
Qed.

Lemma land_lor_bit x j : j < 8 → N.land (N.lor x (bit j)) (bit j) ≠ 0%N.
Proof.
  intros H E. rewrite N.land_lor_distr_l, N.land_diag in E.
  apply N.lor_eq_0_iff in E as [_ E]. exact (bit_nonzero j H E).
Qed.

Lemma land_lor_mono x y z : N.land x z ≠ 0%N → N.land (N.lor x y) z ≠ 0%N.
Proof.
  intros H E. rewrite N.land_lor_distr_l in E.
  apply N.lor_eq_0_iff in E as [E _]. exact (H E).
Qed.

Lemma byte_index_bound (c : byte) : Byte.to_nat c < 256.
Proof. destruct c; vm_compute; lia. Qed.

(** The mask loop of [Add]: it succeeds, keeps the table's length, keeps
    every bit that was set, and sets bit [j] at [b[j]] for each position it
    visits. *)
Lemma set_mask_spec (b : list byte) :
  ∀ k i (chars0 : list N),
    i + k ≤ length b → i + k ≤ 8 → length chars0 = 256 →
    ∃ chars1,
      set_mask k b i chars0 = Some chars1
      ∧ length chars1 = 256
      ∧ (∀ idx x z, chars0 !! idx = Some x → N.land x z ≠ 0%N →
           ∃ x', chars1 !! idx = Some x' ∧ N.land x' z ≠ 0%N)
      ∧ (∀ j, i ≤ j < i + k →
           ∃ c x, b !! j = Some c ∧ chars1 !! Byte.to_nat c = Some x
                  ∧ N.land x (bit j) ≠ 0%N).
Proof.
  induction k as [|k IH]; intros i chars0 Hb H8 Hlen; cbn [set_mask].
  - exists chars0. repeat split; [exact Hlen|eauto|intros; lia].
  - destruct (lookup_lt_is_Some_2 b i ltac:(lia)) as [c Hc].
    destruct (lookup_lt_is_Some_2 chars0 (Byte.to_nat c)
                ltac:(pose proof (byte_index_bound c); lia)) as [x Hx].
    rewrite Hc. cbn [mbind option_bind]. rewrite Hx. cbn [mbind option_bind].
    destruct (IH (i + 1) (<[Byte.to_nat c := N.lor x (bit i)]> chars0))
      as (chars1 & Hset & Hlen1 & Hmono & Hbits);
      [lia | lia | rewrite length_insert; exact Hlen|].
    exists chars1. split; [exact Hset|]. split; [exact Hlen1|]. split.
    + intros idx x0 z Hidx Hz.
      destruct (decide (idx = Byte.to_nat c)) as [->|Hne].
      * apply (Hmono (Byte.to_nat c) (N.lor x (bit i)) z).
        -- apply list_lookup_insert_eq. eapply lookup_lt_Some, Hx.
        -- rewrite Hx in Hidx. injection Hidx as ->. apply land_lor_mono, Hz.
      * apply (Hmono idx x0 z); [|exact Hz].
        rewrite list_lookup_insert_ne by congruence. exact Hidx.
    + intros j Hj. destruct (decide (j = i)) as [->|Hne].
      * destruct (Hmono (Byte.to_nat c) (N.lor x (bit i)) (bit i)) as (x' & Hx' & Hb').
        -- apply list_lookup_insert_eq. eapply lookup_lt_Some, Hx.
        -- apply land_lor_bit. lia.
        -- exists c, x'. repeat split; assumption.
      * apply Hbits. lia.
Qed.

(** The mask loop of [Contains] answers true when every visited bit is set. *)
Lemma check_mask_pass (b : list byte) (chars0 : list N) :
  ∀ k i,
    (∀ j, i ≤ j < i + k →
       ∃ c x, b !! j = Some c ∧ chars0 !! Byte.to_nat c = Some x
              ∧ N.land x (bit j) ≠ 0%N) →
    check_mask k b i chars0 = Some true.
Proof.
  induction k as [|k IH]; intros i H; cbn [check_mask]; [reflexivity|].
  destruct (H i ltac:(lia)) as (c & x & Hc & Hx & Hbit).
  rewrite Hc. cbn [mbind option_bind]. rewrite Hx. cbn [mbind option_bind].
  rewrite (proj2 (N.eqb_neq _ _) Hbit).
  apply IH. intros j Hj. apply H. lia.
Qed.

Lemma prefix_len_le s b : prefix_len s b ≤ length b ∧ prefix_len s b ≤ threshold s.
Proof. unfold prefix_len. case_decide; lia. Qed.

Lemma check_mask_ok s b : mask_ok s b → check_mask (prefix_len s b) b 0 (chars s) = Some true.
Proof. intros H. apply check_mask_pass. intros j Hj. apply H. lia. Qed.

Section Operations.

Variable growcap : nat → nat → nat.

(** [append] on a valid header: the new header sees the old elements
    followed by [b]; the arrays other than the one it may write in place are
    untouched, and no array changes its length. *)
Lemma append_spec (h : heap) (hd : header) (b : list byte) (a : cells) :
  h !! ptr hd = Some a → len hd ≤ length a → cap hd ≤ length a →
  ∃ h' hd' a',
    append growcap h hd b = Some (h', hd')
    ∧ h' !! ptr hd' = Some a' ∧ len hd' ≤ length a' ∧ cap hd' ≤ length a'
    ∧ take (len hd') a' = take (len hd) a ++ [b]
    ∧ length h ≤ length h'
    ∧ (ptr hd' = ptr hd ∨ length h ≤ ptr hd')
    ∧ (∀ p x, h !! p = Some x → p ≠ ptr hd' → h' !! p = Some x)
    ∧ (∀ p x, h !! p = Some x →
         ∃ x', h' !! p = Some x' ∧ length x' = length x
               ∧ (x' = x ∨ p = ptr hd ∧ take (len hd) x' = take (len hd) x))
    ∧ len hd' = len hd + 1.
Proof.
  intros Ha Hlen Hcap.
  assert (Hp : ptr hd < length h) by (eapply lookup_lt_Some, Ha).
  destruct (decide (len hd < cap hd)) as [Hroom|Hroom].
  - exists (<[ptr hd := <[len hd := b]> a]> h),
           {| ptr := ptr hd; len := len hd + 1; cap := cap hd |},
           (<[len hd := b]> a).
    split.
    { unfold append. rewrite Ha. cbn [mbind option_bind].
      rewrite decide_True by exact Hroom. reflexivity. }
    cbn [ptr len cap].
    split; [apply list_lookup_insert_eq; exact Hp|].
    rewrite !length_insert.
    split; [lia|]. split; [lia|].
    split; [|split; [lia|split; [left; reflexivity|split; [|split]]]].
    + replace (len hd + 1) with (S (len hd)) by lia.
      rewrite (take_S_r _ _ b) by (apply list_lookup_insert_eq; lia).
      rewrite take_insert_ge by lia. reflexivity.
    + intros p x Hx Hne. rewrite list_lookup_insert_ne by congruence. exact Hx.
    + intros p x Hx. destruct (decide (p = ptr hd)) as [->|Hne].
      * exists (<[len hd := b]> a). split; [apply list_lookup_insert_eq; exact Hp|].
        rewrite length_insert. split; [congruence|]. right. split; [reflexivity|].
        rewrite take_insert_ge by lia. congruence.
      * exists x. split; [|split; [reflexivity|left; reflexivity]].
        rewrite list_lookup_insert_ne by congruence. exact Hx.
    + reflexivity.
  - set (a' := take (len hd) a ++ [b]
               ++ replicate (growcap (cap hd) (len hd + 1) - (len hd + 1)) []).
    assert (Hla : length a' = len hd + 1
                  + (growcap (cap hd) (len hd + 1) - (len hd + 1))).
    { unfold a'. rewrite !length_app, length_take, length_replicate. cbn. lia. }
    exists (h ++ [a']), {| ptr := length h; len := len hd + 1;
                           cap := growcap (cap hd) (len hd + 1) |}, a'.
    split.
    { unfold append. rewrite Ha. cbn [mbind option_bind].
      rewrite decide_False by exact Hroom. reflexivity. }
    cbn [ptr len cap].
    split; [rewrite lookup_app_r, Nat.sub_diag by lia; reflexivity|].
    split; [lia|]. split; [lia|].
    split; [|split; [rewrite length_app; cbn; lia|split; [right; lia|split; [|split]]]].
    + unfold a'. rewrite app_assoc. apply take_app_length'.
      rewrite length_app, length_take. cbn. lia.
    + intros p x Hx _. apply lookup_app_l_Some, Hx.
    + intros p x Hx. exists x.
      split; [apply lookup_app_l_Some, Hx|split; [reflexivity|left; reflexivity]].
    + reflexivity.
Qed.

Lemma bucket_lt s b : length (slots s) ≠ 0 → bucket s b < length (slots s).
Proof.
  intros H. unfold bucket.
  pose proof (N.mod_lt (bytesHash b) (N.of_nat (length (slots s))) ltac:(lia)).
  lia.
Qed.

Lemma elements_Some h hd a :
  h !! ptr hd = Some a → len hd ≤ length a →
  elements h (Some hd) = Some (take (len hd) a).
Proof.
  intros Ha Hl. unfold elements. rewrite Ha. cbn [mbind option_bind].
  rewrite decide_True by exact Hl. reflexivity.
Qed.

(** The slot update of [Add]: an empty slice is made for a nil slot, then
    [b] is appended. *)
Lemma slot_append_spec (h : heap) (slot : option header) (b : list byte) :
  (∀ hd, slot = Some hd → wf_header h hd) →
  ∃ old h' hd',
    elements h slot = Some old
    ∧ (let '(h1, hd1) :=
         match slot with
         | None => (h ++ [[]], {| ptr := length h; len := 0; cap := 0 |})
         | Some hd => (h, hd)
         end in append growcap h1 hd1 b) = Some (h', hd')
    ∧ wf_header h' hd'
    ∧ elements h' (Some hd') = Some (old ++ [b])
    ∧ ((∃ hd0, slot = Some hd0 ∧ ptr hd' = ptr hd0 ∧ len hd0 ≤ len hd')
       ∨ length h ≤ ptr hd')
    ∧ (∀ p x, h !! p = Some x → p ≠ ptr hd' → h' !! p = Some x)
    ∧ (∀ p x, h !! p = Some x →
         ∃ x', h' !! p = Some x' ∧ length x' = length x
               ∧ (x' = x ∨ ∃ hd0, slot = Some hd0 ∧ p = ptr hd0
                                  ∧ take (len hd0) x' = take (len hd0) x)).
Proof.
  intros Hwf. destruct slot as [hd|].
  - destruct (Hwf hd eq_refl) as (a & Ha & Hlen & Hcap).
    destruct (append_spec h hd b a Ha Hlen Hcap)
      as (h' & hd' & a' & Happ & Ha' & Hlen' & Hcap' & Htake & _ & Hptr & Hfr
          & Hsz & Hl').
    exists (take (len hd) a), h', hd'.
    split; [apply elements_Some; assumption|].
    split; [exact Happ|].
    split; [exists a'; auto|].
    split; [rewrite (elements_Some _ _ _ Ha' Hlen'), Htake; reflexivity|].
    split.
    { destruct Hptr as [Hptr|Hptr]; [left|right; exact Hptr].
      exists hd. split; [reflexivity|]. split; [exact Hptr|lia]. }
    split; [exact Hfr|].
    intros p x Hx. destruct (Hsz p x Hx) as (x' & Hx' & Hlx & Hcase).
    exists x'. split; [exact Hx'|]. split; [exact Hlx|].
    destruct Hcase as [->|[-> Ht]]; [left; reflexivity|right; eauto].
  - set (h1 := h ++ [[]]).
    set (hd1 := {| ptr := length h; len := 0; cap := 0 |}).
    assert (H1 : h1 !! ptr hd1 = Some []).
    { unfold h1, hd1. cbn [ptr]. rewrite lookup_app_r, Nat.sub_diag by lia.
      reflexivity. }
    destruct (append_spec h1 hd1 b [] H1 ltac:(cbn; lia) ltac:(cbn; lia))
      as (h' & hd' & a' & Happ & Ha' & Hlen' & Hcap' & Htake & Hext & Hptr & Hfr
          & Hsz & _).
    assert (Hl1 : length h1 = length h + 1) by (unfold h1; rewrite length_app; reflexivity).
    exists [], h', hd'.
    split; [reflexivity|]. split; [exact Happ|].
    split; [exists a'; auto|].
    split; [rewrite (elements_Some _ _ _ Ha' Hlen'), Htake; reflexivity|].
    split; [right; destruct Hptr as [->|Hptr]; cbn; lia|].
    split.
    + intros p x Hx Hne. apply Hfr; [apply lookup_app_l_Some, Hx|exact Hne].
    + intros p x Hx.
      destruct (Hsz p x (lookup_app_l_Some _ _ _ _ Hx)) as (x' & Hx' & Hlx & Hcase).
      exists x'. split; [exact Hx'|]. split; [exact Hlx|]. left.
      destruct Hcase as [->|[Hp _]]; [reflexivity|].
      apply lookup_lt_Some in Hx. unfold hd1 in Hp. cbn in Hp. lia.
Qed.

(** [Add] on a well-formed filter. *)
Lemma Add_spec (h : heap) (s : bytesFilter) (b : list byte) :
  wf h s →
  ∃ h' s' hd' slot old,
    Add growcap h s b = Some (h', s')
    ∧ wf h' s'
    ∧ threshold s' = threshold s
    ∧ slots s' = <[bucket s b := Some hd']> (slots s)
    ∧ slots s !! bucket s b = Some slot
    ∧ elements h slot = Some old
    ∧ elements h' (Some hd') = Some (old ++ [b])
    ∧ mask_ok s' b
    ∧ (∀ e, mask_ok s e → mask_ok s' e)
    ∧ ((∃ hd0, slot = Some hd0 ∧ ptr hd' = ptr hd0 ∧ len hd0 ≤ len hd')
       ∨ length h ≤ ptr hd')
    ∧ (∀ p x, h !! p = Some x → p ≠ ptr hd' → h' !! p = Some x)
    ∧ (∀ p x, h !! p = Some x →
         ∃ x', h' !! p = Some x' ∧ length x' = length x
               ∧ (x' = x ∨ ∃ hd0, slot = Some hd0 ∧ p = ptr hd0
                                  ∧ take (len hd0) x' = take (len hd0) x)).
Proof.
  intros (Hchars & Hthr & Hslots & Hhd).
  pose proof (prefix_len_le s b) as [Hpl1 Hpl2].
  destruct (set_mask_spec b (prefix_len s b) 0 (chars s))
    as (chars1 & Hset & Hlen1 & Hmono & Hbits); [lia|lia|exact Hchars|].
  pose proof (bucket_lt s b Hslots) as Hbk.
  destruct (lookup_lt_is_Some_2 (slots s) (bucket s b) Hbk) as [slot Hslot].
  destruct (slot_append_spec h slot b) as
    (old & h' & hd' & Hold & Happ & Hwf' & Hels & Hptr & Hfr & Hsz).
  { intros hd ->. eapply Hhd, Hslot. }
  exists h', {| chars := chars1; threshold := threshold s;
                slots := <[bucket s b := Some hd']> (slots s) |}, hd', slot, old.
  split.
  { unfold Add. rewrite Hset. cbn [mbind option_bind].
    rewrite decide_False by exact Hslots.
    fold (bucket s b). rewrite Hslot. cbn [mbind option_bind].
    destruct slot as [hd0|]; cbn [fst snd] in Happ |- *;
      rewrite Happ; reflexivity. }
  split.
  { split; [exact Hlen1|]. split; [exact Hthr|].
    cbn [slots]. rewrite length_insert. split; [exact Hslots|].
    intros k hd Hk. destruct (decide (k = bucket s b)) as [->|Hne].
    - rewrite list_lookup_insert_eq in Hk by exact Hbk.
      injection Hk as <-. exact Hwf'.
    - rewrite list_lookup_insert_ne in Hk by congruence.
      destruct (Hhd k hd Hk) as (a & Ha & Hl & Hc).
      destruct (Hsz _ _ Ha) as (a' & Ha' & Hla' & _).
      exists a'. rewrite Hla'. auto. }
  split; [reflexivity|]. split; [reflexivity|].
  split; [exact Hslot|]. split; [exact Hold|]. split; [exact Hels|].
  split.
  { intros j Hj. apply Hbits. unfold prefix_len in Hj |- *. cbn [threshold] in Hj.
    lia. }
  split.
  { intros e He j Hj. unfold prefix_len in Hj. cbn [threshold] in Hj.
    destruct (He j Hj) as (c & x & Hc & Hx & Hbit).
    destruct (Hmono _ _ _ Hx Hbit) as (x' & Hx' & Hbit').
    exists c, x'. auto. }
  split; [exact Hptr|]. split; assumption.
Qed.

(** Right after [Add(b)], [Contains(b)] answers true. *)
Lemma Contains_after_Add (h : heap) (s : bytesFilter) (b : list byte) :
  wf h s →
  ∃ h' s', Add growcap h s b = Some (h', s') ∧ wf h' s'
           ∧ Contains h' s' b = Some true.
Proof.
  intros Hwf.
  destruct (Add_spec h s b Hwf) as
    (h' & s' & hd' & slot & old & HAdd & Hwf' & Hthr & Hsl & Hslot & Hold & Hels
     & Hmask & _).
  exists h', s'. split; [exact HAdd|]. split; [exact Hwf'|].
  destruct Hwf as (_ & _ & Hslots & _).
  unfold Contains. rewrite (check_mask_ok s' b Hmask). cbn [mbind option_bind negb].
  rewrite Hsl, length_insert. rewrite decide_False by exact Hslots.
  fold (bucket s b).
  rewrite list_lookup_insert_eq by (apply bucket_lt, Hslots).
  cbn [mbind option_bind]. rewrite Hels. cbn [mbind option_bind].
  rewrite decide_False by (rewrite length_app; cbn; lia).
  f_equal. rewrite existsb_app. cbn.
  rewrite bool_decide_eq_true_2 by reflexivity. apply orb_true_r.
Qed.

(** [Contains] answers true only on an exact match in the bucket. *)
Lemma Contains_true_in_bucket (h : heap) (s : bytesFilter) (q : list byte) :
  Contains h s q = Some true →
  ∃ slot els, slots s !! bucket s q = Some slot
              ∧ elements h slot = Some els ∧ q ∈ els.
Proof.
  unfold Contains. intros H.
  destruct (check_mask _ q 0 (chars s)) as [[|]|]; cbn in H; try discriminate.
  case_decide; [discriminate|]. fold (bucket s q) in H.
  destruct (slots s !! bucket s q) as [slot|] eqn:Hslot; cbn in H; [|discriminate].
  destruct (elements h slot) as [els|] eqn:Hels; cbn in H; [|discriminate].
  case_decide; [discriminate|]. injection H as H.
  exists slot, els. split; [reflexivity|]. split; [exact Hels|].
  apply existsb_exists in H as (e & Hin & He).
  apply bool_decide_eq_true in He. subst e. apply list_elem_of_In, Hin.
Qed.

Lemma check_mask_total (b : list byte) (chars0 : list N) :
  length chars0 = 256 →
  ∀ k i, i + k ≤ length b → ∃ r, check_mask k b i chars0 = Some r.
Proof.
  intros Hlen. induction k as [|k IH]; intros i Hk; cbn [check_mask]; [eauto|].
  destruct (lookup_lt_is_Some_2 b i ltac:(lia)) as [c Hc].
  destruct (lookup_lt_is_Some_2 chars0 (Byte.to_nat c)
              ltac:(pose proof (byte_index_bound c); lia)) as [x Hx].
  rewrite Hc. cbn [mbind option_bind]. rewrite Hx. cbn [mbind option_bind].
  destruct (N.land x (bit i) =? 0)%N; [eauto|]. apply IH. lia.
Qed.

(** A filter that represents [L] answers membership in [L]. *)
Lemma represents_Contains (h : heap) (s : bytesFilter) (L : list (list byte)) q :
  represents h s L → Contains h s q = Some (bool_decide (q ∈ L)).
Proof.
  intros ((Hchars & Hthr & Hslots & Hhd) & Hsep & Hels & Hmask).
  pose proof (bucket_lt s q Hslots) as Hbk.
  destruct (lookup_lt_is_Some_2 (slots s) (bucket s q) Hbk) as [slot Hslot].
  destruct (Hels _ _ Hslot) as (els & Helts & Hmem).
  assert (Hscan : existsb (λ element, bool_decide (element = q)) els
                  = bool_decide (q ∈ L)).
  { case_bool_decide as HL.
    - apply existsb_exists. exists q. split.
      + apply list_elem_of_In, Hmem. auto.
      + apply bool_decide_eq_true_2. reflexivity.
    - apply not_true_is_false. intros H.
      apply existsb_exists in H as (e & Hin & He).
      apply bool_decide_eq_true in He. subst e. apply HL.
      apply list_elem_of_In, Hmem in Hin. tauto. }
  unfold Contains.
  destruct (check_mask_total q (chars s) Hchars (prefix_len s q) 0
              ltac:(pose proof (prefix_len_le s q); lia)) as [pass Hpass].
  rewrite Hpass. cbn [mbind option_bind].
  destruct pass; cbn [negb].
  - rewrite decide_False by exact Hslots. fold (bucket s q).
    rewrite Hslot. cbn [mbind option_bind]. rewrite Helts.
    cbn [mbind option_bind]. rewrite Hscan.
    destruct (decide (length els = 0)) as [Hnil|Hnil]; [|reflexivity].
    destruct els; [|discriminate]. cbn in Hscan. rewrite <- Hscan. reflexivity.
  - f_equal. symmetry. apply bool_decide_eq_false_2. intros HL.
    rewrite (check_mask_ok s q (Hmask q HL)) in Hpass. discriminate.
Qed.

Lemma bucket_same_length s s' e :
  length (slots s') = length (slots s) → bucket s' e = bucket s e.
Proof. unfold bucket. intros ->. reflexivity. Qed.

(** [Add] keeps the representation, with [b] as a new member. *)
Lemma represents_Add (h : heap) (s : bytesFilter) (L : list (list byte)) b :
  represents h s L →
  ∃ h' s', Add growcap h s b = Some (h', s') ∧ represents h' s' (L ++ [b]).
Proof.
  intros (Hwf & Hsep & Hels & Hmask).
  destruct (Add_spec h s b Hwf) as
    (h' & s' & hd' & slot & old & HAdd & Hwf' & Hthr & Hsl & Hslot & Hold & Hnew
     & Hmb & Hmono & Hptr & Hfr & _).
  destruct Hwf as (Hchars & Hthr8 & Hslots & Hhd).
  pose proof (bucket_lt s b Hslots) as Hbk.
  assert (Hlen : length (slots s') = length (slots s))
    by (rewrite Hsl; apply length_insert).
  assert (Hother : ∀ k hd, k ≠ bucket s b → slots s !! k = Some (Some hd) →
                           ptr hd ≠ ptr hd').
  { intros k hd Hk Hkhd Heq.
    destruct (Hhd k hd Hkhd) as (a & Ha & _).
    apply lookup_lt_Some in Ha.
    destruct Hptr as [(hd0 & -> & Hp0 & _)|Hfresh]; [|lia].
    apply Hk. eapply (Hsep k (bucket s b) hd hd0); [exact Hkhd|exact Hslot|congruence]. }
  exists h', s'. split; [exact HAdd|]. split; [exact Hwf'|]. split; [|split].
  - intros k1 k2 hd1 hd2 H1 H2 Hp. rewrite Hsl in H1, H2.
    destruct (decide (k1 = bucket s b)) as [->|N1];
      destruct (decide (k2 = bucket s b)) as [->|N2]; [reflexivity| | |].
    + rewrite list_lookup_insert_eq in H1 by exact Hbk. injection H1 as <-.
      rewrite list_lookup_insert_ne in H2 by congruence.
      exfalso. eapply (Hother k2 hd2); eauto.
    + rewrite list_lookup_insert_eq in H2 by exact Hbk. injection H2 as <-.
      rewrite list_lookup_insert_ne in H1 by congruence.
      exfalso. eapply (Hother k1 hd1); eauto.
    + rewrite list_lookup_insert_ne in H1, H2 by congruence.
      eapply Hsep; eauto.
  - intros k slot' Hk. rewrite Hsl in Hk.
    destruct (decide (k = bucket s b)) as [->|Hne].
    + rewrite list_lookup_insert_eq in Hk by exact Hbk. injection Hk as <-.
      exists (old ++ [b]). split; [exact Hnew|].
      destruct (Hels _ _ Hslot) as (old' & Hold' & Hmem).
      rewrite Hold in Hold'. injection Hold' as <-.
      intros e. rewrite (bucket_same_length s s' e Hlen).
      rewrite !elem_of_app, !list_elem_of_singleton, Hmem.
      split; [intros [[? ?]| ->]; auto|intros [[?| ->] ?]; auto].
    + rewrite list_lookup_insert_ne in Hk by congruence.
      destruct (Hels _ _ Hk) as (els & Helts & Hmem).
      exists els. split.
      * destruct slot' as [hd|]; [|exact Helts].
        destruct (Hhd k hd Hk) as (a & Ha & Hl & _).
        unfold elements in Helts |- *.
        rewrite (Hfr _ _ Ha (Hother k hd Hne Hk)). rewrite Ha in Helts.
        exact Helts.
      * intros e. rewrite (bucket_same_length s s' e Hlen).
        rewrite elem_of_app, list_elem_of_singleton, Hmem.
        split; [intros [? ?]; auto|intros [[?| ->] ?]; [auto|congruence]].
  - intros e He. apply elem_of_app in He as [He|He].
    + apply Hmono, Hmask, He.
    + apply list_elem_of_singleton in He. subst e. exact Hmb.
Qed.

Lemma Add_all_cons h s b bs :
  Add_all growcap h s (b :: bs)
  = Add growcap h s b ≫= λ st, Add_all growcap st.1 st.2 bs.
Proof.
  unfold Add_all. cbn [foldl mbind option_bind].
  destruct (Add growcap h s b) as [[h' s']|]; cbn; [reflexivity|].
  induction bs as [|b' bs IH]; [reflexivity|exact IH].
Qed.

Lemma represents_Add_all bs :
  ∀ (h : heap) (s : bytesFilter) (L : list (list byte)),
    represents h s L →
    ∃ h' s', Add_all growcap h s bs = Some (h', s') ∧ represents h' s' (L ++ bs).
Proof.
  induction bs as [|b bs IH]; intros h s L Hr.
  - exists h, s. rewrite app_nil_r. split; [reflexivity|exact Hr].
  - destruct (represents_Add h s L b Hr) as (h1 & s1 & HAdd & Hr1).
    destruct (IH h1 s1 (L ++ [b]) Hr1) as (h' & s' & Hall & Hr').
    exists h', s'. rewrite Add_all_cons, HAdd. cbn.
    rewrite <- app_assoc in Hr'. split; [exact Hall|exact Hr'].
Qed.

Lemma represents_empty (h : heap) :
  represents h {| chars := replicate 256 0%N; threshold := 3;
                  slots := replicate 64 None |} [].
Proof.
  split; [|split; [|split]].
  - split; [reflexivity|]. split; [cbn; lia|]. split; [discriminate|].
    intros k hd Hk. cbn [slots] in Hk.
    apply lookup_replicate in Hk as [Hk _]. discriminate.
  - intros k1 k2 hd1 hd2 H1. cbn [slots] in H1.
    apply lookup_replicate in H1 as [H1 _]. discriminate.
  - intros k slot Hk. cbn [slots] in Hk. apply lookup_replicate in Hk as [-> _].
    exists []. split; [reflexivity|]. intros e. split.
    + intros H. inversion H.
    + intros [H _]. inversion H.
  - intros e H. inversion H.
Qed.

Lemma represents_NewBytesFilter (h : heap) (elements : list (list byte)) :
  ∃ h' s', NewBytesFilter growcap h elements = Some (h', s')
           ∧ represents h' s' elements.
Proof.
  exact (represents_Add_all elements h _ [] (represents_empty h)).
Qed.

(** [Add] on a filter [s2] leaves a filter [s1] it runs behind as it was. *)
Lemma represents_frame_Add (h : heap) (s1 s2 : bytesFilter)
    (L1 : list (list byte)) b :
  represents h s1 L1 → wf h s2 → behind s1 s2 →
  ∃ h' s2', Add growcap h s2 b = Some (h', s2')
            ∧ represents h' s1 L1 ∧ behind s1 s2'.
Proof.
  intros ((Hchars & Hthr8 & Hslots & Hhd) & Hsep & Hels & Hmask) Hwf2 Hbeh.
  destruct (Add_spec h s2 b Hwf2) as
    (h' & s2' & hd' & slot & old & HAdd & Hwf' & Hthr & Hsl & Hslot & Hold & Hnew
     & Hmb & Hmono & Hptr & Hfr & Hsz).
  destruct Hwf2 as (_ & _ & Hslots2 & Hhd2).
  pose proof (bucket_lt s2 b Hslots2) as Hbk.
  exists h', s2'. split; [exact HAdd|]. split; [split; [|split; [|split]]|].
  - split; [exact Hchars|]. split; [exact Hthr8|]. split; [exact Hslots|].
    intros k hd Hk. destruct (Hhd k hd Hk) as (a & Ha & Hl & Hc).
    destruct (Hsz _ _ Ha) as (a' & Ha' & Hla' & _).
    exists a'. rewrite Hla'. auto.
  - exact Hsep.
  - intros k slot1 Hk. destruct (Hels _ _ Hk) as (els & Helts & Hmem).
    exists els. split; [|exact Hmem].
    destruct slot1 as [hd1|]; [|exact Helts].
    destruct (Hhd k hd1 Hk) as (a & Ha & Hl & _).
    destruct (Hsz _ _ Ha) as (a' & Ha' & Hla' & Hcase).
    rewrite (elements_Some _ _ _ Ha Hl) in Helts.
    rewrite (elements_Some _ _ _ Ha') by lia. rewrite <- Helts. f_equal.
    destruct Hcase as [->|(hd0 & -> & Hp & Ht)]; [reflexivity|].
    pose proof (Hbeh k (bucket s2 b) hd1 hd0 Hk Hslot Hp) as Hle.
    rewrite <- (Nat.min_l (len hd1) (len hd0)) by exact Hle.
    rewrite <- !take_take. rewrite Ht. reflexivity.
  - exact Hmask.
  - intros k1 k2 hd1 hd2 H1 H2 Hp. rewrite Hsl in H2.
    destruct (decide (k2 = bucket s2 b)) as [->|Hne].
    + rewrite list_lookup_insert_eq in H2 by exact Hbk. injection H2 as <-.
      destruct Hptr as [(hd0 & -> & Hp0 & Hl0)|Hfresh].
      * pose proof (Hbeh k1 (bucket s2 b) hd1 hd0 H1 Hslot ltac:(congruence)). lia.
      * destruct (Hhd k1 hd1 H1) as (a & Ha & _). apply lookup_lt_Some in Ha. lia.
    + rewrite list_lookup_insert_ne in H2 by congruence.
      eapply Hbeh; eauto.
Qed.

Lemma represents_frame_Add_all xs :
  ∀ (h : heap) (s1 s2 : bytesFilter) (L1 L2 : list (list byte)),
    represents h s1 L1 → represents h s2 L2 → behind s1 s2 →
    ∃ h' s2', Add_all growcap h s2 xs = Some (h', s2')
              ∧ represents h' s2' (L2 ++ xs)
              ∧ represents h' s1 L1 ∧ behind s1 s2'.
Proof.
  induction xs as [|b xs IH]; intros h s1 s2 L1 L2 H1 H2 Hbeh.
  - exists h, s2. rewrite app_nil_r. split; [reflexivity|]. auto.
  - destruct (represents_Add h s2 L2 b H2) as (h1 & s2a & HAdd & H2a).
    destruct (represents_frame_Add h s1 s2 L1 b H1 (proj1 H2) Hbeh)
      as (h1' & s2a' & HAdd' & H1a & Hbeh').
    rewrite HAdd in HAdd'. injection HAdd' as <- <-.
    destruct (IH h1 s1 s2a L1 (L2 ++ [b]) H1a H2a Hbeh')
      as (h' & s2' & Hall & Hr2 & Hr1 & Hb').
    exists h', s2'. rewrite Add_all_cons, HAdd. cbn.
    rewrite <- app_assoc in Hr2. auto.
Qed.

(** Allocation leaves a represented filter as it was. *)
Lemma represents_alloc (h G : heap) (s : bytesFilter) (L : list (list byte)) :
  represents h s L → represents (h ++ G) s L.
Proof.
  intros ((Hchars & Hthr8 & Hslots & Hhd) & Hsep & Hels & Hmask).
  split; [|split; [exact Hsep|split; [|exact Hmask]]].
  - split; [exact Hchars|]. split; [exact Hthr8|]. split; [exact Hslots|].
    intros k hd Hk. destruct (Hhd k hd Hk) as (a & Ha & Hl & Hc).
    exists a. split; [apply lookup_app_l_Some, Ha|auto].
  - intros k slot Hk. destruct (Hels _ _ Hk) as (els & Helts & Hmem).
    exists els. split; [|exact Hmem].
    destruct slot as [hd|]; [|exact Helts].
    destruct (Hhd k hd Hk) as (a & Ha & Hl & _).
    rewrite (elements_Some _ _ _ Ha Hl) in Helts.
    rewrite (elements_Some _ _ a (lookup_app_l_Some _ _ _ _ Ha) Hl). exact Helts.
Qed.

(** The slot loop of [Extend] stores the source's own headers. *)
Lemma Extend_slots_spec (src : list (option header)) :
  ∀ (h : heap) k (dst : list (option header)),
    length dst = k + length src →
    (∀ j hd, src !! j = Some (Some hd) → wf_header h hd) →
    ∃ G, Extend_slots h k src dst = Some (h ++ G, take k dst ++ src).
Proof.
  induction src as [|v src IH]; intros h k dst Hlen Hwf; cbn [Extend_slots].
  - exists []. rewrite !app_nil_r. rewrite take_ge by (cbn in Hlen; lia).
    reflexivity.
  - cbn [length] in Hlen.
    assert (Hnew : ∃ newSlot,
               match v with
               | None => Some []
               | Some hd => h !! ptr hd ≫= λ a, Some (take (len hd) a)
               end = Some newSlot).
    { destruct v as [hd|]; [|eauto].
      destruct (Hwf 0 hd eq_refl) as (a & Ha & _). rewrite Ha. cbn. eauto. }
    destruct Hnew as [newSlot ->]. cbn [mbind option_bind].
    rewrite decide_True by lia.
    destruct (IH (h ++ [newSlot]) (S k) (<[k := v]> dst)) as [G HG].
    + rewrite length_insert. lia.
    + intros j hd Hj. destruct (Hwf (S j) hd Hj) as (a & Ha & Hl & Hc).
      exists a. split; [apply lookup_app_l_Some, Ha|auto].
    + exists (newSlot :: G). rewrite HG. f_equal. f_equal.
      * rewrite <- app_assoc. reflexivity.
      * rewrite (take_S_r _ _ v) by (apply list_lookup_insert_eq; lia).
        rewrite take_insert_ge by lia. rewrite <- app_assoc. reflexivity.
Qed.

Lemma behind_self s : separated s → behind s s.
Proof.
  intros Hsep k1 k2 hd1 hd2 H1 H2 Hp.
  pose proof (Hsep _ _ _ _ H1 H2 Hp). subst k2.
  rewrite H1 in H2. injection H2 as <-. lia.
Qed.

(** [Extend] on a filter with 64 slots: the clone represents the original's
    sequences and the new ones, the original still represents its own, and
    the clone's headers run behind the original's. *)
Lemma represents_Extend (h : heap) (s : bytesFilter) (L xs : list (list byte)) :
  represents h s L → length (slots s) = 64 →
  ∃ h' s2, Extend growcap h s xs = Some (h', s2)
           ∧ represents h' s2 (L ++ xs) ∧ represents h' s L ∧ behind s s2.
Proof.
  intros Hr H64.
  destruct (Extend_slots_spec (slots s) h 0 (replicate 64 None)) as [G HG].
  { rewrite length_replicate. lia. }
  { intros j hd Hj. eapply Hr, Hj. }
  pose proof (represents_alloc h G s L Hr) as HrG.
  destruct (represents_frame_Add_all xs (h ++ G) s s L L HrG HrG
              (behind_self s (proj1 (proj2 Hr))))
    as (h' & s2 & Hall & Hr2 & Hr1 & Hbeh).
  exists h', s2. split; [|auto].
  unfold Extend, NewBytesFilter.
  change (Add_all growcap h ?s0 []) with (Some (h, s0)).
  cbn [mbind option_bind slots]. rewrite HG. cbn [mbind option_bind take app].
  destruct s as [c t sl]. exact Hall.
Qed.

Lemma Add_slots_length (h : heap) (s : bytesFilter) b h' s' :
  Add growcap h s b = Some (h', s') → length (slots s') = length (slots s).
Proof.
  unfold Add. intros H.
  destruct (set_mask _ b 0 (chars s)) as [chars1|]; cbn in H; [|discriminate].
  case_decide; [discriminate|].
  destruct (slots s !! _) as [slot|]; cbn in H; [|discriminate].
  destruct slot as [hd|];
    (destruct (append _ _ _ b) as [[h1 hd1]|]; cbn in H; [|discriminate]);
    injection H as <- <-; cbn [slots]; apply length_insert.
Qed.

Lemma Add_all_slots_length bs :
  ∀ (h : heap) (s : bytesFilter) h' s',
    Add_all growcap h s bs = Some (h', s') →
    length (slots s') = length (slots s).
Proof.
  induction bs as [|b bs IH]; intros h s h' s' H.
  - injection H as <- <-. reflexivity.
  - rewrite Add_all_cons in H.
    destruct (Add growcap h s b) as [[h1 s1]|] eqn:E; cbn in H; [|discriminate].
    rewrite (IH _ _ _ _ H). eapply Add_slots_length, E.
Qed.

(** A filter, its clone, and further additions to the clone. *)
Lemma clone_run (h0 : heap) (es xs ys : list (list byte)) :
  ∃ h1 f1 h2 f2 h3 f2',
    NewBytesFilter growcap h0 es = Some (h1, f1)
    ∧ Extend growcap h1 f1 xs = Some (h2, f2)
    ∧ Add_all growcap h2 f2 ys = Some (h3, f2')
    ∧ represents h1 f1 es ∧ represents h2 f1 es ∧ represents h3 f1 es
    ∧ represents h2 f2 (es ++ xs) ∧ represents h3 f2' ((es ++ xs) ++ ys).
Proof.
  destruct (represents_NewBytesFilter h0 es) as (h1 & f1 & Hnew & Hr1).
  assert (H64 : length (slots f1) = 64).
  { unfold NewBytesFilter in Hnew.
    rewrite (Add_all_slots_length _ _ _ _ _ Hnew). reflexivity. }
  destruct (represents_Extend h1 f1 es xs Hr1 H64)
    as (h2 & f2 & Hext & Hr2 & Hr1' & Hbeh).
  destruct (represents_frame_Add_all ys h2 f1 f2 es (es ++ xs) Hr1' Hr2 Hbeh)
    as (h3 & f2' & Hall & Hr2' & Hr1'' & _).
  exists h1, f1, h2, f2, h3, f2'. auto 10.
Qed.

End Operations.

(** X29. Whatever the growth policy of [append]: on every well-formed
    filter [Add(b)] succeeds and [Contains(b)] answers true right after it;
    [Contains(q)] answers true only when a sequence equal to [q] sits in the
    bucket [q] hashes to, the mask alone never giving a true answer; and for
    a filter made by [NewBytesFilter(es...)] and then grown by [Add] over
    [bs], [Contains(q)] is true exactly when [q] is one of [es] or [bs];
    likewise a clone made by [Extend(xs...)] and grown by [Add] over [ys]
    answers true exactly on [es], [xs] and [ys], as long as the original is
    not added to in between. *)
Theorem Contains_after_Add_and_only_added :
  ∀ growcap : nat → nat → nat,
    (∀ (h : heap) (s : bytesFilter) (b : list byte),
       wf h s →
       ∃ h' s', Add growcap h s b = Some (h', s') ∧ wf h' s'
                ∧ Contains h' s' b = Some true)
    ∧ (∀ (h : heap) (s : bytesFilter) (q : list byte),
         Contains h s q = Some true →
         ∃ slot els, slots s !! bucket s q = Some slot
                     ∧ elements h slot = Some els ∧ q ∈ els)
    ∧ (∀ (h0 : heap) (es bs : list (list byte)),
         ∃ h1 s1 h s,
           NewBytesFilter growcap h0 es = Some (h1, s1)
           ∧ Add_all growcap h1 s1 bs = Some (h, s)
           ∧ wf h s
           ∧ ∀ q, Contains h s q = Some (bool_decide (q ∈ es ++ bs)))
    ∧ (∀ (h0 : heap) (es xs ys : list (list byte)),
         ∃ h1 original h2 clone h3 clone',
           NewBytesFilter growcap h0 es = Some (h1, original)
           ∧ Extend growcap h1 original xs = Some (h2, clone)
           ∧ Add_all growcap h2 clone ys = Some (h3, clone')
           ∧ (∀ q, Contains h2 clone q = Some (bool_decide (q ∈ es ++ xs)))
           ∧ (∀ q, Contains h3 clone' q
                   = Some (bool_decide (q ∈ (es ++ xs) ++ ys)))).
Proof.
  intros growcap. split; [|split; [|split]].
  - apply Contains_after_Add.
  - apply Contains_true_in_bucket.
  - intros h0 es bs.
    destruct (represents_NewBytesFilter growcap h0 es) as (h1 & s1 & Hnew & Hr1).
    destruct (represents_Add_all growcap bs h1 s1 es Hr1) as (h & s & Hall & Hr).
    exists h1, s1, h, s. split; [exact Hnew|]. split; [exact Hall|].
    split; [apply Hr|]. intros q. apply represents_Contains, Hr.
  - intros h0 es xs ys.
    destruct (clone_run growcap h0 es xs ys)
      as (h1 & f1 & h2 & f2 & h3 & f2' & Hnew & Hext & Hall & _ & _ & _ & Hr2 & Hr3).
    exists h1, f1, h2, f2, h3, f2'. split; [exact Hnew|]. split; [exact Hext|].
    split; [exact Hall|].
    split; intros q; eapply represents_Contains; eassumption.
Qed.

Lemma Contains_after_Add_and_only_added_witness :
  ∃ h' s',
    Add go_growcap []
      {| chars := replicate 256 0%N; threshold := 3; slots := replicate 64 None |}
      (bytes_of "td") = Some (h', s')
    ∧ wf h' s' ∧ Contains h' s' (bytes_of "td") = Some true.
Proof.
  apply (proj1 (Contains_after_Add_and_only_added go_growcap)).
  exact (proj1 (represents_empty [])).
Defined.

(** C4 (the code contradicts it). Two clones of one filter share its
    backing arrays, because [Extend] stores the original's slot headers:
    after [a := g.Extend("dfn")] and [b := g.Extend("ddp")] the clone [a]
    answers true on ["ddp"], which was never added to [a] nor to the filter
    it was derived from, and false on ["dfn"], which it was extended with.
    The true answer is wrong, and it comes from the bucket scan, not from
    the mask. *)
Theorem Contains_true_for_sequence_never_added :
  extend_twice
  = Some {| a_has_dfn := true; a_has_ddp := false;
            a_has_dfn_later := false; a_has_ddp_later := true;
            b_has_ddp := true |}
  ∧ bytes_of "ddp" ∉ [bytes_of "td"; bytes_of "dt"; bytes_of "sup"; bytes_of "dfn"].
Proof.
  split; [vm_compute; reflexivity|].
  intros H. repeat (apply elem_of_cons in H as [H|H]; [discriminate H|]).
  inversion H.
Qed.

(** X1. The part of the clone contract that holds. For a filter made by
    [NewBytesFilter(es...)], its clone by [Extend(xs...)] and any further
    [Add]s [ys] on the clone, the original not being added to: the original
    answers [Contains(q)] by membership in [es] before [Extend], after it
    and after the clone's additions, and the clone answers by membership in
    [es], [xs] and [ys]. So a new [x] is in the clone and not in the
    original, and additions to the clone never change the original's
    answers. *)
Theorem Extend_clone_leaves_original_answers :
  ∀ (growcap : nat → nat → nat) (h0 : heap) (es xs ys : list (list byte)),
    ∃ h1 original h2 clone h3 clone',
      NewBytesFilter growcap h0 es = Some (h1, original)
      ∧ Extend growcap h1 original xs = Some (h2, clone)
      ∧ Add_all growcap h2 clone ys = Some (h3, clone')
      ∧ (∀ q, Contains h1 original q = Some (bool_decide (q ∈ es)))
      ∧ (∀ q, Contains h2 original q = Some (bool_decide (q ∈ es)))
      ∧ (∀ q, Contains h3 original q = Some (bool_decide (q ∈ es)))
      ∧ (∀ q, Contains h2 clone q = Some (bool_decide (q ∈ es ++ xs)))
      ∧ (∀ q, Contains h3 clone' q
              = Some (bool_decide (q ∈ (es ++ xs) ++ ys)))
      ∧ (∀ x, x ∈ xs → x ∉ es →
              Contains h2 original x = Some false
              ∧ Contains h2 clone x = Some true).
Proof.
  intros growcap h0 es xs ys.
  destruct (clone_run growcap h0 es xs ys)
    as (h1 & f1 & h2 & f2 & h3 & f2' & Hnew & Hext & Hall & Hr1 & Hr1' & Hr1''
        & Hr2 & Hr3).
  exists h1, f1, h2, f2, h3, f2'. split; [exact Hnew|]. split; [exact Hext|].
  split; [exact Hall|].
  split; [intros q; eapply represents_Contains; eassumption|].
  split; [intros q; eapply represents_Contains; eassumption|].
  split; [intros q; eapply represents_Contains; eassumption|].
  split; [intros q; eapply represents_Contains; eassumption|].
  split; [intros q; eapply represents_Contains; eassumption|].
  intros x Hx Hes. split.
  - rewrite (represents_Contains _ _ _ x Hr1').
    rewrite bool_decide_eq_false_2 by exact Hes. reflexivity.
  - rewrite (represents_Contains _ _ _ x Hr2).
    rewrite bool_decide_eq_true_2 by (apply elem_of_app; auto). reflexivity.
Qed.

(** C1 (the code contradicts it). [Extend] stores the original's slot
    headers in the clone, not the copies it makes: after three sequences in
    one slot the backing array has capacity four, the clone's [Add] of
    ["dfn"] writes its fourth cell, and a later [Add] on the original writes
    the same cell. The clone then no longer contains ["dfn"], which it was
    extended with, and contains ["ddp"], which was only added to the
    original. *)
Theorem Extend_shares_slots_with_original :
  extend_then_add_to_original
  = Some {| original_slot := Some (Some {| ptr := 3; len := 3; cap := 4 |});
            clone_slot := Some (Some {| ptr := 3; len := 4; cap := 4 |});
            clone_has_dfn := true; original_has_dfn := false;
            clone_has_dfn_later := false; clone_has_ddp_later := true |}.
Proof. vm_compute. reflexivity. Qed.

End BytesFilterProps.

(** * Trimming, spaces, indentation and URLs *)

#[local] Arguments IsSpace : simpl never.
#[local] Arguments int_of : simpl never.
#[local] Arguments TabWidth : simpl never.
#[local] Arguments urlTable_has : simpl never.

(** ** The two scans *)

Lemma scan_while_shift p rest :
  ∀ i, scan_while p rest i = i + scan_while p rest 0.
Proof.
  induction rest as [|c rest IH]; intros i; cbn [scan_while]; [lia|].
  destruct (p c); cbn [negb]; [|lia].
  rewrite (IH (i + 1)), (IH (0 + 1)). lia.
Qed.

Lemma scan_while_le p rest : scan_while p rest 0 ≤ length rest.
Proof.
  induction rest as [|c rest IH]; cbn [scan_while length]; [lia|].
  destruct (p c); cbn [negb]; [|lia].
  rewrite scan_while_shift. lia.
Qed.

Lemma scan_while_skip p rest :
  drop (scan_while p rest 0) rest = skip_while p rest.
Proof.
  induction rest as [|c rest IH]; cbn [scan_while skip_while]; [reflexivity|].
  destruct (p c); cbn [negb]; [|reflexivity].
  rewrite scan_while_shift. exact IH.
Qed.

Lemma scan_while_prefix p rest :
  Forall (λ c, p c = true) (take (scan_while p rest 0) rest).
Proof.
  induction rest as [|c rest IH]; cbn [scan_while]; [constructor|].
  destruct (p c) eqn:E; cbn [negb]; [|constructor].
  rewrite scan_while_shift. cbn. constructor; assumption.
Qed.

Lemma skip_while_head p l c t : skip_while p l = c :: t → p c = false.
Proof.
  induction l as [|x l IH]; cbn [skip_while]; [discriminate|].
  destruct (p x) eqn:E; [exact IH|]. intros [= <- _]. exact E.
Qed.

Lemma scan_while_stop p rest c :
  rest !! scan_while p rest 0 = Some c → p c = false.
Proof.
  intros H. destruct (skip_while p rest) as [|x t] eqn:E.
  - rewrite <- scan_while_skip in E.
    apply (f_equal length) in E. rewrite length_drop in E. cbn in E.
    apply lookup_lt_Some in H. lia.
  - pose proof (skip_while_head _ _ _ _ E) as Hx.
    rewrite <- scan_while_skip in E.
    apply lookup_drop_head in E as (Hc & _). congruence.
Qed.

Lemma skip_while_all p l t :
  Forall (λ c, p c = true) l → skip_while p (l ++ t) = skip_while p t.
Proof.
  induction 1 as [|x l Hx _ IH]; [reflexivity|].
  cbn [app skip_while]. rewrite Hx. exact IH.
Qed.

Lemma skip_while_stop p l c t :
  p c = false → skip_while p (l ++ c :: t) = skip_while p l ++ c :: t.
Proof.
  intros Hc. induction l as [|x l IH]; cbn [app skip_while].
  - rewrite Hc. reflexivity.
  - destruct (p x); [exact IH|reflexivity].
Qed.

Lemma skip_while_suffix p l :
  skip_while p l = drop (length l - length (skip_while p l)) l.
Proof.
  rewrite <- scan_while_skip at 2. rewrite length_drop.
  pose proof (scan_while_le p l).
  replace (length l - (length l - scan_while p l 0)) with (scan_while p l 0) by lia.
  symmetry. apply scan_while_skip.
Qed.

Lemma scan_back_while_rev p source :
  ∀ n fuel, n ≤ length source → n < fuel →
    scan_back_while fuel p source (Z.of_nat n - 1)
    = Some (Z.of_nat (length (skip_while p (reverse (take n source)))) - 1)%Z.
Proof.
  induction n as [|n IH]; intros fuel Hn Hf.
  - destruct fuel; [lia|]. reflexivity.
  - destruct fuel as [|fuel]; [lia|]. cbn [scan_back_while].
    replace (0 <=? Z.of_nat (S n) - 1)%Z with true by (symmetry; apply Z.leb_le; lia).
    replace (Z.to_nat (Z.of_nat (S n) - 1)) with n by lia.
    destruct (lookup_in_range source n ltac:(lia)) as [c Hc].
    rewrite Hc. cbn [mbind option_bind].
    rewrite (take_S_r _ _ _ Hc), reverse_snoc. cbn [skip_while].
    destruct (p c); cbn [negb].
    + replace (Z.of_nat (S n) - 1 - 1)%Z with (Z.of_nat n - 1)%Z by lia.
      apply IH; lia.
    + f_equal. cbn [length]. rewrite length_reverse, length_take. lia.
Qed.

(** ** Trimming *)

Lemma found_in_elem c b : found_in c b = true ↔ c ∈ b.
Proof.
  induction b as [|x b IH]; cbn [found_in].
  - split; [discriminate|]. intros H. inversion H.
  - case_bool_decide as E.
    + subst. split; [intros _; left|reflexivity].
    + rewrite IH. split; [intros; right; assumption|].
      intros H. inversion H; subst; [contradiction|assumption].
Qed.

Lemma TrimLeft_skip source b :
  TrimLeft source b = Some (skip_while (λ c, found_in c b) source).
Proof.
  unfold TrimLeft. rewrite slice_tail by apply scan_while_le.
  rewrite scan_while_skip. reflexivity.
Qed.

Lemma TrimRight_skip source b :
  TrimRight source b
  = Some (reverse (skip_while (λ c, found_in c b) (reverse source))).
Proof.
  unfold TrimRight.
  rewrite (scan_back_while_rev _ source (length source)) by lia.
  cbn [mbind option_bind]. rewrite firstn_all.
  set (r := skip_while _ (reverse source)).
  assert (Hr : length r ≤ length source).
  { unfold r. rewrite (skip_while_suffix _ (reverse source)).
    rewrite length_drop, length_reverse. lia. }
  replace (Z.to_nat (Z.of_nat (length r) - 1 + 1)) with (length r) by lia.
  rewrite slice_Some by lia. f_equal.
  rewrite drop_0, Nat.sub_0_r.
  unfold r at 2. rewrite (skip_while_suffix _ (reverse source)). fold r.
  rewrite length_reverse.
  rewrite <- (reverse_involutive source) at 1.
  rewrite take_reverse, length_reverse. reflexivity.
Qed.

(** X2. [TrimLeft] returns the suffix of [source] that starts at its first
    byte outside the cutset [b]: the [k] bytes it drops all belong to [b],
    the byte that follows them, if there is one, does not, and
    [TrimLeftLength] returns that [k]. *)
Theorem TrimLeft_drops_leading_cutset source b :
  ∃ k, k ≤ length source
    ∧ TrimLeft source b = Some (drop k source)
    ∧ TrimLeftLength source b = Some k
    ∧ (∀ c, c ∈ take k source → c ∈ b)
    ∧ (∀ c, source !! k = Some c → c ∉ b).
Proof.
  set (p := λ c, found_in c b).
  exists (scan_while p source 0).
  pose proof (scan_while_le p source) as Hle.
  split; [exact Hle|]. split; [|split; [|split]].
  - rewrite TrimLeft_skip, scan_while_skip. reflexivity.
  - unfold TrimLeftLength. rewrite TrimLeft_skip. cbn [mbind option_bind].
    fold p. rewrite <- scan_while_skip, length_drop. f_equal. lia.
  - intros c Hc. apply found_in_elem.
    pose proof (scan_while_prefix p source) as Hp.
    rewrite Forall_forall in Hp. apply (Hp c Hc).
  - intros c Hc Hin. apply found_in_elem in Hin.
    apply scan_while_stop in Hc. unfold p in Hc. congruence.
Qed.

(** X3. [TrimRight] returns the prefix of [source] that ends at its last
    byte outside the cutset [b]: the bytes it cuts all belong to [b], the
    last byte it keeps, if there is one, does not, and [TrimRightLength]
    returns the number of bytes cut. *)
Theorem TrimRight_drops_trailing_cutset source b :
  ∃ k, k ≤ length source
    ∧ TrimRight source b = Some (take k source)
    ∧ TrimRightLength source b = Some (length source - k)
    ∧ (∀ c, c ∈ drop k source → c ∈ b)
    ∧ (∀ c, last (take k source) = Some c → c ∉ b).
Proof.
  set (p := λ c, found_in c b).
  set (r := skip_while p (reverse source)).
  assert (Hr : r = drop (length source - length r) (reverse source)).
  { unfold r at 1. rewrite (skip_while_suffix p (reverse source)).
    rewrite length_reverse. reflexivity. }
  assert (Hle : length r ≤ length source).
  { rewrite Hr, length_drop, length_reverse. lia. }
  assert (Hk : reverse r = take (length r) source).
  { rewrite Hr at 1. rewrite <- (reverse_involutive source) at 3.
    rewrite take_reverse, length_reverse. reflexivity. }
  exists (length r). split; [exact Hle|]. split; [|split; [|split]].
  - rewrite TrimRight_skip. fold p r. rewrite Hk. reflexivity.
  - unfold TrimRightLength. rewrite TrimRight_skip. cbn [mbind option_bind].
    fold p r. rewrite length_reverse. reflexivity.
  - intros c Hc. apply found_in_elem.
    pose proof (scan_while_prefix p (reverse source)) as Hp.
    rewrite Forall_forall in Hp. apply Hp.
    assert (Hs : scan_while p (reverse source) 0 = length source - length r).
    { pose proof (scan_while_le p (reverse source)) as H1.
      rewrite length_reverse in H1.
      unfold r. rewrite <- scan_while_skip, length_drop, length_reverse. lia. }
    rewrite Hs.
    assert (Hd : drop (length r) source
                 = reverse (take (length source - length r) (reverse source))).
    { rewrite <- (reverse_involutive source) at 1.
      rewrite drop_reverse, length_reverse. reflexivity. }
    rewrite Hd, elem_of_reverse in Hc. exact Hc.
  - intros c Hc Hin. apply found_in_elem in Hin.
    rewrite <- Hk in Hc. destruct r as [|x t] eqn:Er.
    + discriminate.
    + rewrite reverse_cons, last_snoc in Hc. injection Hc as ->.
      apply skip_while_head in Er. unfold p in Er. congruence.
Qed.

(** X4. Trimming the same cutset from the left and from the right gives the
    same bytes in either order. *)
Theorem TrimLeft_TrimRight_commute source b :
  ∃ r, (v ← TrimLeft source b; TrimRight v b) = Some r
     ∧ (v ← TrimRight source b; TrimLeft v b) = Some r.
Proof.
  set (p := λ c, found_in c b).
  rewrite TrimLeft_skip, TrimRight_skip. cbn [mbind option_bind].
  rewrite TrimLeft_skip, TrimRight_skip. fold p.
  eexists. split; [reflexivity|]. f_equal.
  destruct (skip_while p source) as [|x mid] eqn:E.
  - assert (Hall : Forall (λ c, p c = true) source).
    { rewrite <- (take_drop (scan_while p source 0) source).
      rewrite scan_while_skip, E, app_nil_r. apply scan_while_prefix. }
    apply Forall_reverse in Hall.
    rewrite <- (app_nil_r (reverse source)).
    rewrite (skip_while_all p _ [] Hall). reflexivity.
  - pose proof (skip_while_head _ _ _ _ E) as Hx.
    pose proof (scan_while_prefix p source) as Hpre.
    assert (Hs : source = take (scan_while p source 0) source ++ x :: mid).
    { rewrite <- E, <- scan_while_skip, take_drop. reflexivity. }
    set (pre := take (scan_while p source 0) source) in *.
    rewrite Hs at 1. rewrite reverse_app, reverse_cons, <- app_assoc.
    cbn [app]. rewrite (skip_while_stop p _ x _ Hx).
    rewrite reverse_app, reverse_cons, reverse_involutive, <- app_assoc.
    cbn [app]. rewrite (skip_while_all p _ _ Hpre).
    cbn [skip_while]. rewrite Hx.
    rewrite (skip_while_stop p _ x [] Hx), reverse_app. reflexivity.
Qed.

(** ** Spaces *)

Lemma IsBlank_skip bs : IsBlank bs = true ↔ skip_while IsSpace bs = [].
Proof.
  induction bs as [|c bs IH]; cbn [IsBlank skip_while]; [tauto|].
  destruct (IsSpace c); cbn [negb]; [exact IH|].
  split; discriminate.
Qed.

Lemma skip_while_nil_reverse p l :
  skip_while p l = [] ↔ skip_while p (reverse l) = [].
Proof.
  assert (H : ∀ l, skip_while p l = [] → skip_while p (reverse l) = []).
  { clear l. intros l E.
    assert (Hall : Forall (λ c, p c = true) l).
    { rewrite <- (take_drop (scan_while p l 0) l).
      rewrite scan_while_skip, E, app_nil_r. apply scan_while_prefix. }
    apply Forall_reverse in Hall.
    rewrite <- (app_nil_r (reverse l)).
    rewrite (skip_while_all p _ [] Hall). reflexivity. }
  split; [apply H|]. intros E. apply H in E.
  rewrite reverse_involutive in E. exact E.
Qed.

Lemma TrimRightSpaceLength_skip source :
  TrimRightSpaceLength source
  = Some (Z.of_nat (length source
                    - length (skip_while IsSpace (reverse source)))).
Proof.
  unfold TrimRightSpaceLength.
  rewrite (scan_back_while_rev _ source (length source)) by lia.
  cbn [mbind option_bind]. rewrite firstn_all.
  set (r := skip_while _ (reverse source)).
  assert (Hr : length r ≤ length source).
  { unfold r. rewrite (skip_while_suffix _ (reverse source)).
    rewrite length_drop, length_reverse. lia. }
  destruct (Z.ltb_spec (Z.of_nat (length r) - 1) 0); f_equal; lia.
Qed.

Lemma spaces_cover c :
  found_in c spaces
  = IsSpace c || bool_decide (c = x0b) || bool_decide (c = x0c).
Proof. destruct c; reflexivity. Qed.

Lemma scan_while_ge (q : byte → bool) l k :
  k ≤ length l → Forall (λ c, q c = true) (take k l) →
  k ≤ scan_while q l 0.
Proof.
  revert k. induction l as [|c l IH]; intros k Hk Hall.
  - cbn in Hk. lia.
  - destruct k as [|k]; [lia|]. cbn [take] in Hall.
    inversion Hall as [|? ? Hc Hall']; subst.
    cbn [scan_while]. rewrite Hc. cbn [negb].
    rewrite scan_while_shift. cbn in Hk.
    specialize (IH k ltac:(lia) Hall'). lia.
Qed.

(** X5. A line is blank exactly when the leading, and exactly when the
    trailing, space length is the whole line; trimming a blank line from
    either side leaves nothing. *)
Theorem IsBlank_iff_space_length_is_all bs :
  (IsBlank bs = true ↔ TrimLeftSpaceLength bs = length bs)
  ∧ (IsBlank bs = true
     ↔ TrimRightSpaceLength bs = Some (Z.of_nat (length bs)))
  ∧ (IsBlank bs = true →
     TrimLeftSpace bs = Some [] ∧ TrimRightSpace bs = Some []).
Proof.
  assert (Hlen : ∀ l, length (skip_while IsSpace l) ≤ length l).
  { intros l. rewrite (skip_while_suffix _ l), length_drop. lia. }
  split; [|split].
  - rewrite IsBlank_skip. unfold TrimLeftSpaceLength.
    pose proof (scan_while_le IsSpace bs).
    rewrite <- scan_while_skip. split.
    + intros E. apply (f_equal length) in E. rewrite length_drop in E.
      cbn in E. lia.
    + intros ->. apply drop_all.
  - rewrite IsBlank_skip, TrimRightSpaceLength_skip, skip_while_nil_reverse.
    specialize (Hlen (reverse bs)). rewrite length_reverse in Hlen.
    split.
    + intros ->. cbn [length]. do 2 f_equal. lia.
    + intros [= E]. apply nil_length_inv. lia.
  - intros Hb. apply IsBlank_skip in Hb.
    assert (Hall : Forall (λ c, found_in c spaces = true) bs).
    { rewrite <- (take_drop (scan_while IsSpace bs 0) bs).
      rewrite scan_while_skip, Hb, app_nil_r.
      eapply Forall_impl; [apply scan_while_prefix|].
      intros c Hc. cbv beta in *. rewrite spaces_cover, Hc. reflexivity. }
    unfold TrimLeftSpace, TrimRightSpace.
    rewrite TrimLeft_skip, TrimRight_skip. split; f_equal.
    + rewrite <- (app_nil_r bs). rewrite (skip_while_all _ _ [] Hall).
      reflexivity.
    + apply Forall_reverse in Hall.
      rewrite <- (app_nil_r (reverse bs)).
      rewrite (skip_while_all _ _ [] Hall). reflexivity.
Qed.

(** X6. The cutset of [TrimLeftSpace] holds two bytes, vertical tab and
    form feed, that [IsSpace] rejects: the leading space length is at most
    the number of bytes [TrimLeftSpace] removes, and it is smaller exactly
    when the byte at which it stops is one of those two. *)
Theorem TrimLeftSpaceLength_le_TrimLeftSpace source :
  ∃ n, TrimLeftLength source spaces = Some n
    ∧ TrimLeftSpaceLength source ≤ n
    ∧ (TrimLeftSpaceLength source < n
       ↔ ∃ c, source !! TrimLeftSpaceLength source = Some c
              ∧ (c = x0b ∨ c = x0c)).
Proof.
  set (q := λ c, found_in c spaces).
  unfold TrimLeftLength. rewrite TrimLeft_skip. cbn [mbind option_bind].
  fold q. unfold TrimLeftSpaceLength.
  set (m := scan_while IsSpace source 0).
  pose proof (scan_while_le IsSpace source) as Hm. fold m in Hm.
  pose proof (scan_while_le q source) as Hn.
  assert (Hpre : Forall (λ c, q c = true) (take m source)).
  { eapply Forall_impl; [apply scan_while_prefix|].
    intros c Hc. cbv beta in *. unfold q. rewrite spaces_cover, Hc.
    reflexivity. }
  exists (scan_while q source 0). split; [|split].
  - rewrite <- scan_while_skip, length_drop. f_equal. lia.
  - apply scan_while_ge; assumption.
  - split.
    + intros Hlt. destruct (lookup_in_range source m ltac:(lia)) as [c Hc].
      exists c. split; [exact Hc|].
      pose proof (scan_while_stop _ _ _ Hc) as Hs.
      pose proof (scan_while_prefix q source) as Hq.
      rewrite Forall_lookup in Hq.
      specialize (Hq m c). rewrite lookup_take_lt in Hq by lia.
      specialize (Hq Hc). unfold q in Hq.
      rewrite spaces_cover, Hs in Hq. cbn [orb] in Hq.
      apply orb_prop in Hq as [Hq|Hq]; apply bool_decide_eq_true in Hq; tauto.
    + intros (c & Hc & Hv).
      assert (S m ≤ scan_while q source 0); [|lia].
      pose proof (lookup_lt_Some _ _ _ Hc).
      apply scan_while_ge; [lia|].
      rewrite (take_S_r _ _ _ Hc). apply Forall_app. split; [exact Hpre|].
      constructor; [|constructor]. unfold q.
      destruct Hv as [-> | ->]; reflexivity.
Qed.

(** ** ReplaceSpaces *)

(** Decides a comparison of integers whose outcome follows from the context. *)
Ltac zbool :=
  rewrite ?Z.geb_leb;
  first [apply Z.leb_le; lia | apply Z.leb_gt; lia
        | apply Z.ltb_lt; lia | apply Z.ltb_ge; lia
        | apply Z.eqb_eq; lia | apply Z.eqb_neq; lia].

Lemma ReplaceSpaces_loop_some repl source :
  ∀ rest i r start,
    ∃ r' start',
      ReplaceSpaces_loop rest source repl i (Some r) start
      = Some (Some r', start')
      ∧ (if (start' >=? 0)%Z then r' ++ [repl] else r')
        = r ++ collapse repl (start >=? 0)%Z rest.
Proof.
  induction rest as [|c rest IH]; intros i r start.
  - exists r, start. split; [reflexivity|]. cbn [collapse].
    destruct (start >=? 0)%Z; [reflexivity|]. rewrite app_nil_r. reflexivity.
  - cbn [ReplaceSpaces_loop collapse].
    destruct (Z.ltb_spec start 0) as [Hs|Hs];
      [replace (start >=? 0)%Z with false by (symmetry; zbool)
      |replace (start >=? 0)%Z with true by (symmetry; zbool)];
      destruct (IsSpace c) eqn:Ec; cbn [andb mbind option_bind].
    + destruct (IH (i + 1) r (Z.of_nat i)) as (r' & s' & Hl & Hf).
      exists r', s'. split; [exact Hl|]. rewrite Hf.
      replace (Z.of_nat i >=? 0)%Z with true
        by (symmetry; zbool).
      reflexivity.
    + destruct (IH (i + 1) (r ++ [c]) start) as (r' & s' & Hl & Hf).
      exists r', s'. split; [exact Hl|]. rewrite Hf.
      replace (start >=? 0)%Z with false
        by (symmetry; zbool).
      rewrite <- app_assoc. reflexivity.
    + destruct (IH (i + 1) r start) as (r' & s' & Hl & Hf).
      exists r', s'. split; [exact Hl|]. rewrite Hf.
      replace (start >=? 0)%Z with true
        by (symmetry; zbool).
      reflexivity.
    + destruct (IH (i + 1) ((r ++ [repl]) ++ [c]) (-1)%Z) as (r' & s' & Hl & Hf).
      exists r', s'. split; [exact Hl|]. rewrite Hf.
      cbn. rewrite <- !app_assoc. reflexivity.
Qed.

Lemma ReplaceSpaces_loop_none repl source :
  ∀ rest i start,
    source = take i source ++ rest → i ≤ length source →
    (start ≤ Z.of_nat i)%Z →
    ∃ ret start',
      ReplaceSpaces_loop rest source repl i None start = Some (ret, start')
      ∧ match ret with
        | Some r => if (start' >=? 0)%Z then r ++ [repl] else r
        | None => source
        end
        = if (start <? 0)%Z then
            if spaces_only_trailing rest then source
            else take i source ++ collapse repl false rest
          else
            if forallb IsSpace rest then source
            else take (Z.to_nat start) source ++ collapse repl true rest.
Proof.
  induction rest as [|c rest IH]; intros i start Hsrc Hi Hst.
  - exists None, start. split; [reflexivity|]. cbn.
    destruct (start <? 0)%Z; reflexivity.
  - assert (Hc : source !! i = Some c).
    { rewrite Hsrc at 1. rewrite lookup_app_r by (rewrite length_take; lia).
      rewrite length_take. replace (i - i `min` length source) with 0 by lia.
      reflexivity. }
    assert (Hnext : source = take (i + 1) source ++ rest).
    { replace (i + 1) with (S i) by lia.
      rewrite (take_S_r _ _ _ Hc), <- app_assoc. exact Hsrc. }
    pose proof (lookup_lt_Some _ _ _ Hc) as Hlt.
    cbn [ReplaceSpaces_loop spaces_only_trailing forallb collapse].
    destruct (Z.ltb_spec start 0) as [Hs|Hs];
      [replace (start >=? 0)%Z with false by (symmetry; zbool)
      |replace (start >=? 0)%Z with true by (symmetry; zbool)];
      destruct (IsSpace c) eqn:Ec; cbn [andb mbind option_bind].
    + destruct (IH (i + 1) (Z.of_nat i) Hnext ltac:(lia) ltac:(lia))
        as (ret & s' & Hl & Hf).
      exists ret, s'. split; [exact Hl|]. rewrite Hf.
      replace (Z.of_nat i <? 0)%Z with false by (symmetry; zbool).
      rewrite Nat2Z.id. reflexivity.
    + destruct (IH (i + 1) start Hnext ltac:(lia) ltac:(lia))
        as (ret & s' & Hl & Hf).
      exists ret, s'. split; [exact Hl|]. rewrite Hf.
      replace (start <? 0)%Z with true by (symmetry; zbool).
      replace (i + 1) with (S i) by lia.
      rewrite (take_S_r _ _ _ Hc), <- app_assoc. reflexivity.
    + destruct (IH (i + 1) start Hnext ltac:(lia) ltac:(lia))
        as (ret & s' & Hl & Hf).
      exists ret, s'. split; [exact Hl|]. rewrite Hf.
      replace (start <? 0)%Z with false by (symmetry; zbool).
      reflexivity.
    + rewrite slice_Some by lia. cbn [mbind option_bind].
      rewrite drop_0, Nat.sub_0_r.
      destruct (ReplaceSpaces_loop_some repl source rest (i + 1)
                  ((take (Z.to_nat start) source ++ [repl]) ++ [c]) (-1)%Z)
        as (r' & s' & Hl & Hf).
      exists (Some r'), s'. split; [exact Hl|]. rewrite Hf.
      cbn. rewrite <- !app_assoc. reflexivity.
Qed.

Lemma ReplaceSpaces_spec source repl :
  ReplaceSpaces source repl
  = Some (if spaces_only_trailing source then source
          else collapse repl false source).
Proof.
  unfold ReplaceSpaces.
  destruct (ReplaceSpaces_loop_none repl source source 0 (-1)%Z)
    as (ret & s' & Hl & Hf); [reflexivity|lia|lia|].
  rewrite Hl. cbn [mbind option_bind].
  change (-1 <? 0)%Z with true in Hf. rewrite take_0, app_nil_l in Hf.
  rewrite <- Hf.
  destruct ret as [r|]; [|reflexivity].
  destruct (s' >=? 0)%Z; reflexivity.
Qed.

(** X7. [ReplaceSpaces] replaces every maximal run of space bytes by one
    [repl], with one exception: an input whose only spaces are at its end
    is returned as it is, the trailing run included. *)
Theorem ReplaceSpaces_collapses_runs source repl :
  ReplaceSpaces source repl
  = Some (if spaces_only_trailing source then source
          else collapse repl false source).
Proof. apply ReplaceSpaces_spec. Qed.

(** ** Case folding of ASCII input, link references *)

Section AsciiFolding.

Variable unicodeCaseFoldings : Z → option (list Z).
Variable DecodeRune : list byte → Z * nat.

Lemma DoFullUnicodeCaseFolding_loop_ascii v :
  (∀ c, c ∈ v → Byte.to_nat c < 181) →
  ∀ fuel i n cob,
    length v - i < fuel → n ≤ i → i ≤ length v → borrowed_ok v n cob →
    ∃ n' cob',
      DoFullUnicodeCaseFolding_loop unicodeCaseFoldings DecodeRune fuel v i n cob
      = Some (n', cob')
      ∧ Bytes <$> flush_tail v n' cob'
        = Some (emitted cob ++ take (i - n) (drop n v)
                ++ map ascii_lower (drop i v)).
Proof.
  intros Hv.
  induction fuel as [|fuel IH]; intros i n cob Hf Hn Hi Hb; [lia|].
  cbn [DoFullUnicodeCaseFolding_loop]. case_decide as Hlt.
  - destruct (drop i v) as [|c rest] eqn:Ed.
    { apply (f_equal length) in Ed. rewrite length_drop in Ed. cbn in Ed. lia. }
    apply lookup_drop_head in Ed as (Hc & Hrest & _). rewrite Hc.
    cbn [mbind option_bind].
    assert (Hlow : byte_le xb5 c = false).
    { unfold byte_le. apply Nat.leb_gt.
      apply (Hv c). eapply list_elem_of_lookup_2, Hc. }
    rewrite Hlow. cbn [negb].
    destruct (byte_le x41 c && byte_le c x5a) eqn:Ecap.
    + rewrite slice_Some by lia. cbn [mbind option_bind].
      destruct (IH (i + 1) (i + 1)
                  (WriteByte (Write cob (take (i - n) (drop n v)))
                             (byte_of_Z (byte_z c + 32))))
        as (n' & cob' & Hloop & Hfin); try lia.
      { apply borrowed_ok_copied, copied_WriteByte. }
      exists n', cob'. split; [exact Hloop|]. rewrite Hfin.
      rewrite emitted_WriteByte, emitted_Write, Nat.sub_diag, take_0, app_nil_l.
      replace (i + 1) with (S i) by lia. rewrite Hrest.
      cbn [map]. unfold ascii_lower at 2. rewrite Ecap.
      rewrite <- !app_assoc. reflexivity.
    + destruct (IH (i + 1) n cob) as (n' & cob' & Hloop & Hfin); try lia;
        [exact Hb|].
      exists n', cob'. split; [exact Hloop|]. rewrite Hfin.
      rewrite (slice_snoc v n i c) by (lia || exact Hc).
      replace (i + 1) with (S i) by lia. rewrite Hrest.
      cbn [map]. unfold ascii_lower at 2. rewrite Ecap.
      rewrite <- !app_assoc. reflexivity.
  - exists n, cob. split; [reflexivity|].
    rewrite flush_tail_done by (lia || exact Hb).
    replace i with (length v) by lia.
    rewrite drop_all. cbn [map]. rewrite app_nil_r.
    do 2 f_equal. rewrite take_ge by (rewrite length_drop; lia). reflexivity.
Qed.

Lemma DoFullUnicodeCaseFolding_ascii v :
  (∀ c, c ∈ v → Byte.to_nat c < 181) →
  DoFullUnicodeCaseFolding unicodeCaseFoldings DecodeRune v
  = Some (map ascii_lower v).
Proof.
  intros Hv. unfold DoFullUnicodeCaseFolding, DoFullUnicodeCaseFolding_cob.
  destruct (DoFullUnicodeCaseFolding_loop_ascii v Hv (S (length v)) 0 0
              (NewCopyOnWriteBuffer v)) as (n' & cob' & Hloop & Hfin); try lia.
  { intros _. split; reflexivity. }
  rewrite Hloop. cbn [mbind option_bind]. rewrite Hfin, drop_0. reflexivity.
Qed.

End AsciiFolding.

(** X8. On an input whose bytes are all below [0xb5],
    [DoFullUnicodeCaseFolding] is ASCII lower-casing, whatever the folding
    table and the decoder are: the bytes [A] to [Z] are moved by 32, every
    other byte is kept. *)
Theorem DoFullUnicodeCaseFolding_lowercases_ascii
    (unicodeCaseFoldings : Z → option (list Z))
    (DecodeRune : list byte → Z * nat) (v : list byte) :
  (∀ c, c ∈ v → Byte.to_nat c < 181) →
  DoFullUnicodeCaseFolding unicodeCaseFoldings DecodeRune v
  = Some (map ascii_lower v).
Proof. apply DoFullUnicodeCaseFolding_ascii. Qed.

Lemma DoFullUnicodeCaseFolding_lowercases_ascii_witness :
  DoFullUnicodeCaseFolding (λ _, None) (λ _, (RuneError, 1))
    (bytes_of "Foo BAR [z]")
  = Some (bytes_of "foo bar [z]").
Proof.
  apply (DoFullUnicodeCaseFolding_lowercases_ascii
           (λ _, None) (λ _, (RuneError, 1)) (bytes_of "Foo BAR [z]")).
  intros c Hc. cbn in Hc.
  repeat (apply elem_of_cons in Hc as [-> | Hc]; [cbn; lia|]).
  inversion Hc.
Defined.

(** ** Link references *)

Lemma collapse_no_trailing repl l :
  spaces_only_trailing l = true →
  (∀ c, last l = Some c → IsSpace c = false) →
  collapse repl false l = l.
Proof.
  induction l as [|c l IH]; intros Hs Hl; [reflexivity|].
  cbn [spaces_only_trailing collapse] in *.
  destruct (IsSpace c) eqn:Ec.
  - exfalso. destruct l as [|d l'] using rev_ind.
    + specialize (Hl c eq_refl). congruence.
    + rewrite forallb_app in Hs. apply andb_prop in Hs as [_ Hd].
      cbn in Hd. rewrite andb_true_r in Hd.
      specialize (Hl d). rewrite app_comm_cons, last_snoc in Hl.
      specialize (Hl eq_refl). congruence.
  - cbn [app]. f_equal. apply IH; [exact Hs|].
    intros d Hd. apply Hl. destruct l; [discriminate|exact Hd].
Qed.

Lemma ReplaceSpaces_no_trailing source repl :
  (∀ c, last source = Some c → IsSpace c = false) →
  ReplaceSpaces source repl = Some (collapse repl false source).
Proof.
  intros Hl. rewrite ReplaceSpaces_spec.
  destruct (spaces_only_trailing source) eqn:E; [|reflexivity].
  rewrite collapse_no_trailing by assumption. reflexivity.
Qed.

Lemma skip_while_elem p l c : c ∈ skip_while p l → c ∈ l.
Proof.
  rewrite (skip_while_suffix p l). intros H.
  rewrite <- (take_drop (length l - length (skip_while p l)) l).
  apply elem_of_app. right. exact H.
Qed.

Lemma trim_spaces_elem l c : c ∈ trim_spaces l → c ∈ l.
Proof.
  unfold trim_spaces. rewrite elem_of_reverse. intros H.
  apply skip_while_elem in H. rewrite elem_of_reverse in H.
  apply skip_while_elem in H. exact H.
Qed.

Lemma trim_spaces_last l c :
  last (trim_spaces l) = Some c → found_in c spaces = false.
Proof.
  unfold trim_spaces. rewrite last_reverse.
  destruct (skip_while _ (reverse _)) as [|x t] eqn:E; [discriminate|].
  intros [= ->]. apply skip_while_head in E. exact E.
Qed.

Lemma trim_spaces_head l c :
  head (trim_spaces l) = Some c → found_in c spaces = false.
Proof.
  unfold trim_spaces. set (p := λ c, found_in c spaces).
  destruct (skip_while p l) as [|x mid] eqn:E; [discriminate|].
  pose proof (skip_while_head _ _ _ _ E) as Hx.
  rewrite reverse_cons, (skip_while_stop p _ x [] Hx), reverse_app.
  intros [= ->]. exact Hx.
Qed.

Lemma trim_spaces_fixed l :
  (∀ c, head l = Some c → found_in c spaces = false) →
  (∀ c, last l = Some c → found_in c spaces = false) →
  trim_spaces l = l.
Proof.
  intros Hh Hl. unfold trim_spaces.
  assert (H : ∀ l, (∀ c, head l = Some c → found_in c spaces = false) →
                   skip_while (λ c, found_in c spaces) l = l).
  { clear. intros [|x t] H; [reflexivity|]. cbn [skip_while].
    rewrite (H x eq_refl). reflexivity. }
  rewrite (H l Hh), H, reverse_involutive; [reflexivity|].
  intros c. rewrite head_reverse. apply Hl.
Qed.

Lemma ascii_lower_spaces c :
  found_in (ascii_lower c) spaces = found_in c spaces
  ∧ IsSpace (ascii_lower c) = IsSpace c
  ∧ ascii_lower (ascii_lower c) = ascii_lower c.
Proof. destruct c; repeat split. Qed.

Lemma ascii_lower_low c : Byte.to_nat c < 181 → Byte.to_nat (ascii_lower c) < 181.
Proof.
  rewrite <- !Nat.ltb_lt.
  destruct c; vm_compute; intros H; first [reflexivity | discriminate H].
Qed.

Lemma not_spaces_not_space c : found_in c spaces = false → IsSpace c = false.
Proof. rewrite spaces_cover. destruct (IsSpace c); [discriminate|reflexivity]. Qed.

Lemma collapse_elem repl b l c : c ∈ collapse repl b l → c = repl ∨ c ∈ l.
Proof.
  revert b. induction l as [|x l IH]; intros b; cbn [collapse].
  - destruct b; intros H; [|inversion H].
    apply list_elem_of_singleton in H. tauto.
  - destruct (IsSpace x).
    + intros H. apply IH in H as [H|H]; [tauto|]. right. right. exact H.
    + rewrite elem_of_app, elem_of_cons. intros [H|[H|H]].
      * destruct b; [|inversion H].
        apply list_elem_of_singleton in H. tauto.
      * right. subst. left.
      * apply IH in H as [H|H]; [tauto|]. right. right. exact H.
Qed.

Lemma collapse_last repl l c :
  last l = Some c → IsSpace c = false →
  ∀ b, last (collapse repl b l) = Some c.
Proof.
  intros Hl Hc. induction l as [|x l IH]; [discriminate|]. intros b.
  cbn [collapse]. destruct l as [|y l'].
  - injection Hl as ->. rewrite Hc. cbn [collapse].
    rewrite last_app. reflexivity.
  - specialize (IH Hl). destruct (IsSpace x); [apply IH|].
    rewrite last_app. rewrite last_cons, IH. reflexivity.
Qed.

Lemma collapse_idempotent repl :
  IsSpace repl = true →
  ∀ l b, collapse repl false (collapse repl b l) = collapse repl b l.
Proof.
  intros Hr. induction l as [|x l IH]; intros b.
  - destruct b; cbn [collapse]; [|reflexivity]. rewrite Hr. reflexivity.
  - cbn [collapse]. destruct (IsSpace x) eqn:Ex; [apply IH|].
    destruct b; cbn [app collapse].
    + rewrite Hr, Ex. cbn [app]. rewrite IH. reflexivity.
    + rewrite Ex. cbn [app]. rewrite IH. reflexivity.
Qed.

Section LinkReference.

Variable unicodeCaseFoldings : Z → option (list Z).
Variable DecodeRune : list byte → Z * nat.

Lemma ToLinkReference_ascii v :
  (∀ c, c ∈ v → Byte.to_nat c < 181) →
  ToLinkReference unicodeCaseFoldings DecodeRune v
  = Some (collapse " " false (map ascii_lower (trim_spaces v))).
Proof.
  intros Hv. unfold ToLinkReference, TrimLeftSpace, TrimRightSpace.
  rewrite TrimLeft_skip. cbn [mbind option_bind].
  rewrite TrimRight_skip. cbn [mbind option_bind].
  fold (trim_spaces v).
  rewrite DoFullUnicodeCaseFolding_ascii
    by (intros c Hc; apply Hv, (trim_spaces_elem _ _ Hc)).
  cbn [mbind option_bind].
  apply ReplaceSpaces_no_trailing.
  intros c Hc. rewrite fmap_last in Hc.
  destruct (last (trim_spaces v)) as [x|] eqn:El; [|discriminate].
  injection Hc as <-.
  destruct (ascii_lower_spaces x) as (_ & -> & _).
  apply not_spaces_not_space, (trim_spaces_last _ _ El).
Qed.

Lemma ToLinkReference_normal_form v :
  let o := collapse " " false (map ascii_lower (trim_spaces v)) in
  trim_spaces o = o ∧ map ascii_lower o = o.
Proof.
  intros o. split.
  - apply trim_spaces_fixed.
    + intros c Hc. unfold o in Hc.
      destruct (trim_spaces v) as [|x t] eqn:Et; [discriminate|].
      pose proof (trim_spaces_head v x) as Hx. rewrite Et in Hx.
      specialize (Hx eq_refl).
      destruct (ascii_lower_spaces x) as (Hf & Hs & _).
      cbn [map collapse] in Hc. rewrite Hs in Hc.
      rewrite (not_spaces_not_space _ Hx) in Hc. injection Hc as <-.
      rewrite Hf. exact Hx.
    + intros c Hc. unfold o in Hc.
      destruct (last (trim_spaces v)) as [x|] eqn:El.
      * pose proof (trim_spaces_last _ _ El) as Hx.
        destruct (ascii_lower_spaces x) as (Hf & Hs & _).
        rewrite (collapse_last " " _ (ascii_lower x)) in Hc.
        -- injection Hc as <-. rewrite Hf. exact Hx.
        -- rewrite fmap_last, El. reflexivity.
        -- rewrite Hs. apply not_spaces_not_space, Hx.
      * apply last_None in El. rewrite El in Hc. discriminate.
  - rewrite <- (map_id o) at 2. apply map_ext_in.
    intros c Hc. apply list_elem_of_In in Hc.
    apply collapse_elem in Hc as [-> | Hc]; [reflexivity|].
    apply list_elem_of_fmap in Hc as (x & -> & _).
    apply ascii_lower_spaces.
Qed.

Lemma ToLinkReference_ascii_idempotent v o :
  (∀ c, c ∈ v → Byte.to_nat c < 181) →
  ToLinkReference unicodeCaseFoldings DecodeRune v = Some o →
  ToLinkReference unicodeCaseFoldings DecodeRune o = Some o.
Proof.
  intros Hv. rewrite ToLinkReference_ascii by exact Hv. intros [= <-].
  rewrite ToLinkReference_ascii.
  - destruct (ToLinkReference_normal_form v) as [-> ->].
    rewrite collapse_idempotent by reflexivity. reflexivity.
  - intros c Hc. apply collapse_elem in Hc as [-> | Hc]; [cbn; lia|].
    apply list_elem_of_fmap in Hc as (x & -> & Hx).
    apply ascii_lower_low, Hv, (trim_spaces_elem _ _ Hx).
Qed.

End LinkReference.

(** X9. On an input whose bytes are all below [0xb5], [ToLinkReference]
    trims the bytes of [spaces] from both ends, lower-cases the ASCII
    capitals and replaces every run of space bytes that is left by one
    space. *)
Theorem ToLinkReference_ascii_normalises
    (unicodeCaseFoldings : Z → option (list Z))
    (DecodeRune : list byte → Z * nat) (v : list byte) :
  (∀ c, c ∈ v → Byte.to_nat c < 181) →
  ToLinkReference unicodeCaseFoldings DecodeRune v
  = Some (collapse " " false (map ascii_lower (trim_spaces v))).
Proof. apply ToLinkReference_ascii. Qed.

Lemma ToLinkReference_ascii_normalises_witness :
  ToLinkReference (λ _, None) (λ _, (RuneError, 1))
    (" " :: x09 :: bytes_of "Foo " ++ x0a :: bytes_of " BAR  ")
  = Some (bytes_of "foo bar").
Proof.
  apply (ToLinkReference_ascii_normalises (λ _, None) (λ _, (RuneError, 1))
           (" " :: x09 :: bytes_of "Foo " ++ x0a :: bytes_of " BAR  ")).
  intros c Hc. cbn in Hc.
  repeat (apply elem_of_cons in Hc as [-> | Hc]; [cbn; lia|]).
  inversion Hc.
Defined.

(** X10. On such inputs [ToLinkReference] is idempotent: a link reference
    is its own link reference. *)
Theorem ToLinkReference_idempotent_on_ascii
    (unicodeCaseFoldings : Z → option (list Z))
    (DecodeRune : list byte → Z * nat) (v o : list byte) :
  (∀ c, c ∈ v → Byte.to_nat c < 181) →
  ToLinkReference unicodeCaseFoldings DecodeRune v = Some o →
  ToLinkReference unicodeCaseFoldings DecodeRune o = Some o.
Proof. apply ToLinkReference_ascii_idempotent. Qed.

Lemma ToLinkReference_idempotent_on_ascii_witness :
  ToLinkReference (λ _, None) (λ _, (RuneError, 1)) (bytes_of "foo bar")
  = Some (bytes_of "foo bar").
Proof.
  apply (ToLinkReference_idempotent_on_ascii (λ _, None) (λ _, (RuneError, 1))
           (bytes_of " Foo   BAR ") (bytes_of "foo bar")).
  - intros c Hc. cbn in Hc.
    repeat (apply elem_of_cons in Hc as [-> | Hc]; [cbn; lia|]).
    inversion Hc.
  - reflexivity.
Defined.

(** ** Indentation *)

Lemma int_of_small z : (- 2 ^ 63 ≤ z < 2 ^ 63)%Z → int_of z = z.
Proof. intros H. unfold int_of. rewrite Z.mod_small; lia. Qed.

Lemma TabWidth_nonneg p :
  (0 ≤ p)%Z → (1 ≤ TabWidth p ≤ 4)%Z ∧ ((p + TabWidth p) mod 4 = 0)%Z.
Proof.
  intros Hp. unfold TabWidth. rewrite Z.rem_mod_nonneg by lia.
  pose proof (Z.mod_pos_bound p 4 ltac:(lia)) as Hb.
  split; [lia|].
  replace (p + (4 - p mod 4))%Z with (p - p mod 4 + 1 * 4)%Z by lia.
  rewrite Z.mod_add by lia.
  rewrite Zminus_mod_idemp_r, Z.sub_diag. reflexivity.
Qed.

(** X11. At a column [p >= 0] a tab is 1 to 4 columns wide and ends at the
    next tab stop: [p + TabWidth p] is the least multiple of 4 above [p]. *)
Theorem TabWidth_reaches_next_tab_stop (p : Z) :
  (0 ≤ p)%Z →
  (1 ≤ TabWidth p ≤ 4)%Z
  ∧ ((p + TabWidth p) mod 4 = 0)%Z
  ∧ ∀ q, (p < q)%Z → (q mod 4 = 0)%Z → (p + TabWidth p ≤ q)%Z.
Proof.
  intros Hp. destruct (TabWidth_nonneg p Hp) as [Hb Hm].
  split; [exact Hb|]. split; [exact Hm|].
  intros q Hq Hq4.
  apply Z.mod_divide in Hm as [a Ha]; [|lia].
  apply Z.mod_divide in Hq4 as [b Hb']; [|lia]. nia.
Qed.

Lemma TabWidth_reaches_next_tab_stop_witness :
  (1 ≤ TabWidth 6 ≤ 4)%Z
  ∧ ((6 + TabWidth 6) mod 4 = 0)%Z
  ∧ ∀ q, (6 < q)%Z → (q mod 4 = 0)%Z → (6 + TabWidth 6 ≤ q)%Z.
Proof. apply (TabWidth_reaches_next_tab_stop 6). lia. Defined.

Lemma advance_bounds cp w c :
  (0 ≤ cp + w)%Z → (w + 1 ≤ advance cp w c ≤ w + 4)%Z.
Proof.
  intros H. unfold advance. pose proof (TabWidth_nonneg _ H).
  case_bool_decide; lia.
Qed.

Lemma width_after_bounds cp l :
  ∀ w, (0 ≤ cp)%Z → (0 ≤ w)%Z →
    (w + Z.of_nat (length l) ≤ width_after cp w l
     ≤ w + 4 * Z.of_nat (length l))%Z.
Proof.
  induction l as [|c l IH]; intros w Hcp Hw; unfold width_after in *;
    cbn [foldl length]; [lia|].
  pose proof (advance_bounds cp w c ltac:(lia)).
  specialize (IH (advance cp w c) Hcp ltac:(lia)). lia.
Qed.

Lemma width_after_snoc cp w l c :
  width_after cp w (l ++ [c]) = advance cp (width_after cp w l) c.
Proof. unfold width_after. rewrite foldl_app. reflexivity. Qed.

Lemma scan_while_take p l j :
  j ≤ scan_while p l 0 → scan_while p (take j l) 0 = j.
Proof.
  intros Hj. pose proof (scan_while_le p l) as Hl.
  pose proof (scan_while_le p (take j l)) as Hle.
  rewrite length_take in Hle.
  assert (j ≤ scan_while p (take j l) 0); [|lia].
  apply scan_while_ge; [rewrite length_take; lia|].
  rewrite take_take, Nat.min_id.
  replace (take j l) with (take j (take (scan_while p l 0) l))
    by (rewrite take_take; f_equal; lia).
  apply Forall_take, scan_while_prefix.
Qed.

Lemma indent_byte_cases c :
  indent_byte c = true ↔ c = " " ∨ c = x09.
Proof.
  unfold indent_byte. rewrite orb_true_iff, !bool_decide_eq_true. tauto.
Qed.

Lemma IndentWidth_loop_spec cp :
  (0 ≤ cp)%Z →
  ∀ rest w p,
    (0 ≤ w)%Z → (0 ≤ p)%Z →
    (cp + w + 4 * Z.of_nat (length rest) < 2 ^ 63)%Z →
    (p + Z.of_nat (length rest) < 2 ^ 63)%Z →
    IndentWidth_loop rest cp w p
    = (width_after cp w (take (scan_while indent_byte rest 0) rest),
       (p + Z.of_nat (scan_while indent_byte rest 0))%Z).
Proof.
  intros Hcp. induction rest as [|c rest IH]; intros w p Hw Hp Hb1 Hb2.
  - cbn. f_equal. lia.
  - cbn [IndentWidth_loop scan_while]. cbn [length] in Hb1, Hb2.
    unfold indent_byte at 1 3.
    pose proof (TabWidth_nonneg (cp + w) ltac:(lia)) as [Htw _].
    case_bool_decide as E1; cbn [orb negb].
    + subst c. rewrite !int_of_small by lia.
      rewrite IH by lia. rewrite (scan_while_shift _ rest 1).
      cbn [take]. f_equal. lia.
    + case_bool_decide as E2; cbn [negb].
      * subst c. rewrite !int_of_small by (rewrite ?int_of_small; lia).
        rewrite IH by lia. rewrite (scan_while_shift _ rest 1).
        cbn [take]. f_equal. lia.
      * cbn. f_equal. lia.
Qed.

Lemma IndentWidth_spec bs cp :
  (0 ≤ cp < 2 ^ 31)%Z → (Z.of_nat (length bs) < 2 ^ 31)%Z →
  IndentWidth bs cp
  = (width_after cp 0 (take (scan_while indent_byte bs 0) bs),
     Z.of_nat (scan_while indent_byte bs 0)).
Proof.
  intros Hcp Hl. unfold IndentWidth.
  rewrite IndentWidth_loop_spec by lia. reflexivity.
Qed.

(** X12. [IndentWidth] consumes the leading spaces and tabs of the line and
    nothing else: [pos] is their number [k], the byte after them is neither,
    and the width lies between [k] and [4 * k]. *)
Theorem IndentWidth_counts_leading_indentation bs cp :
  (0 ≤ cp < 2 ^ 31)%Z → (Z.of_nat (length bs) < 2 ^ 31)%Z →
  ∃ k width,
    IndentWidth bs cp = (width, Z.of_nat k)
    ∧ k ≤ length bs
    ∧ (∀ c, c ∈ take k bs → c = " " ∨ c = x09)
    ∧ (∀ c, bs !! k = Some c → c ≠ " " ∧ c ≠ x09)
    ∧ (Z.of_nat k ≤ width ≤ 4 * Z.of_nat k)%Z.
Proof.
  intros Hcp Hl. set (k := scan_while indent_byte bs 0).
  pose proof (scan_while_le indent_byte bs) as Hk. fold k in Hk.
  exists k, (width_after cp 0 (take k bs)).
  split; [apply IndentWidth_spec; assumption|]. split; [exact Hk|].
  split; [|split].
  - intros c Hc. apply indent_byte_cases.
    pose proof (scan_while_prefix indent_byte bs) as Hp.
    rewrite Forall_forall in Hp. apply (Hp c Hc).
  - intros c Hc. apply scan_while_stop in Hc.
    split; intros ->; discriminate.
  - pose proof (width_after_bounds cp (take k bs) 0 ltac:(lia) ltac:(lia)) as Hw.
    rewrite length_take in Hw. lia.
Qed.

Lemma IndentWidth_counts_leading_indentation_witness :
  ∃ k width,
    IndentWidth [" "; x09; " "; "a"; " "] 2 = (width, Z.of_nat k)
    ∧ k ≤ 5
    ∧ (∀ c, c ∈ take k [" "; x09; " "; "a"; " "] → c = " " ∨ c = x09)
    ∧ (∀ c, [" "; x09; " "; "a"; " "] !! k = Some c → c ≠ " " ∧ c ≠ x09)
    ∧ (Z.of_nat k ≤ width ≤ 4 * Z.of_nat k)%Z.
Proof.
  apply (IndentWidth_counts_leading_indentation [" "; x09; " "; "a"; " "] 2);
    cbn; lia.
Defined.

Lemma IndentPositionPadding_loop_spec cp width :
  (0 ≤ cp)%Z →
  ∀ rest i w,
    (0 ≤ w)%Z → (cp + w + 4 * Z.of_nat (length rest) < 2 ^ 63)%Z →
    ∃ j,
      j ≤ scan_while indent_byte rest 0
      ∧ IndentPositionPadding_loop rest cp width i w
        = (i + j, width_after cp w (take j rest))
      ∧ (∀ j', j' < j → (width_after cp w (take j' rest) < width)%Z)
      ∧ ((width_after cp w (take j rest) < width)%Z →
         j = scan_while indent_byte rest 0).
Proof.
  intros Hcp. induction rest as [|c rest IH]; intros i w Hw Hb.
  - exists 0. cbn. split; [lia|]. split; [f_equal; lia|]. split; [lia|reflexivity].
  - cbn [IndentPositionPadding_loop scan_while]. cbn [length] in Hb.
    pose proof (TabWidth_nonneg (cp + w) ltac:(lia)) as [Htw _].
    assert (Hstop : ∃ j, j ≤ (if negb (indent_byte c) then 0
                              else scan_while indent_byte rest (0 + 1))
              ∧ (i, w) = (i + j, width_after cp w (take j (c :: rest)))
              ∧ (∀ j', j' < j → (width_after cp w (take j' (c :: rest)) < width)%Z)
              ∧ ((width_after cp w (take j (c :: rest)) < width)%Z →
                 (w < width)%Z)).
    { exists 0. split; [lia|]. split; [cbn; f_equal; lia|].
      split; [lia|]. cbn. tauto. }
    assert (Hgo : ∀ w', (w < width)%Z → indent_byte c = true →
              w' = advance cp w c →
              ∃ j, j ≤ (if negb (indent_byte c) then 0
                        else scan_while indent_byte rest (0 + 1))
                ∧ IndentPositionPadding_loop rest cp width (i + 1) w'
                  = (i + j, width_after cp w (take j (c :: rest)))
                ∧ (∀ j', j' < j →
                     (width_after cp w (take j' (c :: rest)) < width)%Z)
                ∧ ((width_after cp w (take j (c :: rest)) < width)%Z →
                   j = (if negb (indent_byte c) then 0
                        else scan_while indent_byte rest (0 + 1)))).
    { intros w' Hlt Hc ->. pose proof (advance_bounds cp w c ltac:(lia)) as Ha.
      destruct (IH (i + 1) (advance cp w c) ltac:(lia) ltac:(lia))
        as (j & Hj & Hl & Hmin & Hall).
      exists (S j). rewrite Hc. cbn [negb].
      rewrite (scan_while_shift _ rest 1).
      split; [lia|]. split; [rewrite Hl; cbn; f_equal; lia|]. split.
      - intros [|j'] Hj'; [cbn; lia|]. cbn. apply Hmin. lia.
      - cbn. intros H. apply Hall in H. lia. }
    destruct (Z.ltb_spec w width) as [Hlt|Hge].
    + case_bool_decide as E1; cbn [andb].
      * subst c. rewrite !int_of_small by (rewrite ?int_of_small; lia).
        apply Hgo; [exact Hlt|reflexivity|reflexivity].
      * case_bool_decide as E2; cbn [andb].
        -- subst c. rewrite !int_of_small by lia.
           apply Hgo; [exact Hlt|reflexivity|reflexivity].
        -- destruct Hstop as (j & Hj & Hl & Hmin & _).
           exists j. split; [exact Hj|]. split; [exact Hl|].
           split; [exact Hmin|].
           intros _. unfold indent_byte in *.
           rewrite (bool_decide_eq_false_2 _ E1), (bool_decide_eq_false_2 _ E2) in *.
           cbn in *. lia.
    + rewrite !andb_false_r.
      destruct Hstop as (j & Hj & Hl & Hmin & Hc).
      exists j. split; [exact Hj|]. split; [exact Hl|].
      split; [exact Hmin|]. intros H. apply Hc in H. lia.
Qed.

Lemma IndentWidth_prefix bs cp j :
  (0 ≤ cp < 2 ^ 31)%Z → (Z.of_nat (length bs) < 2 ^ 31)%Z →
  j ≤ scan_while indent_byte bs 0 →
  IndentWidth (take j bs) cp = (width_after cp 0 (take j bs), Z.of_nat j).
Proof.
  intros Hcp Hl Hj.
  rewrite IndentWidth_spec by (rewrite ?length_take; lia).
  rewrite (scan_while_take _ _ _ Hj), take_take, Nat.min_id. reflexivity.
Qed.

(** X13. For a positive [width], [IndentPositionPadding] walks the leading
    spaces and tabs until their width reaches [width]. It fails with
    [(-1, -1)] exactly when the whole indentation of the line is narrower
    than [width]; otherwise it stops after the first [j] bytes whose width
    [IndentWidth] measures as [width + padding], with a padding of at most
    3 columns (the part of a tab that goes beyond [width]), and returns
    [j - paddingv] and that padding. *)
Theorem IndentPositionPadding_stops_at_width bs cp paddingv width :
  (0 ≤ cp < 2 ^ 31)%Z → (Z.of_nat (length bs) < 2 ^ 31)%Z →
  (0 < width < 2 ^ 31)%Z → (- 2 ^ 31 < paddingv < 2 ^ 31)%Z →
  (IndentPositionPadding bs cp paddingv width = (-1, -1)%Z
   ∧ ((IndentWidth bs cp).1 < width)%Z)
  ∨ ∃ j padding,
      IndentPositionPadding bs cp paddingv width
      = ((Z.of_nat j - paddingv)%Z, padding)
      ∧ 1 ≤ j ≤ length bs
      ∧ (0 ≤ padding ≤ 3)%Z
      ∧ IndentWidth (take j bs) cp = ((width + padding)%Z, Z.of_nat j)
      ∧ ((IndentWidth (take (j - 1) bs) cp).1 < width)%Z.
Proof.
  intros Hcp Hl Hw Hp. unfold IndentPositionPadding.
  replace (width =? 0)%Z with false by (symmetry; zbool).
  destruct (IndentPositionPadding_loop_spec cp width ltac:(lia) bs 0 0%Z
              ltac:(lia) ltac:(lia)) as (j & Hj & Hloop & Hmin & Hall).
  rewrite Hloop. cbn [Nat.add].
  pose proof (scan_while_le indent_byte bs) as Hk.
  set (W := width_after cp 0 (take j bs)) in *.
  destruct (Z.ltb_spec W width) as [Hlt|Hge].
  - left. replace (W >=? width)%Z with false by (symmetry; zbool).
    split; [reflexivity|].
    rewrite IndentWidth_spec by lia. cbn [fst].
    rewrite <- (Hall Hlt). exact Hlt.
  - right. replace (W >=? width)%Z with true by (symmetry; zbool).
    destruct j as [|j];
      [unfold W, width_after in Hge; rewrite take_0 in Hge; cbn in Hge; lia|].
    specialize (Hmin j ltac:(lia)).
    assert (Hstep : (W ≤ width_after cp 0 (take j bs) + 4)%Z).
    { destruct (lookup_in_range bs j ltac:(lia)) as [c Hc].
      unfold W. rewrite (take_S_r _ _ _ Hc), width_after_snoc.
      pose proof (width_after_bounds cp (take j bs) 0 ltac:(lia) ltac:(lia)).
      pose proof (advance_bounds cp (width_after cp 0 (take j bs)) c ltac:(lia)).
      lia. }
    pose proof (width_after_bounds cp (take (S j) bs) 0 ltac:(lia) ltac:(lia)) as HW.
    rewrite length_take in HW. fold W in HW.
    exists (S j), (W - width)%Z.
    rewrite !int_of_small by lia.
    split; [reflexivity|]. split; [lia|]. split; [lia|]. split.
    + rewrite IndentWidth_prefix by (assumption || lia).
      fold W. f_equal. lia.
    + replace (S j - 1) with j by lia.
      rewrite IndentWidth_prefix by (assumption || lia). exact Hmin.
Qed.

Lemma IndentPositionPadding_stops_at_width_witness :
  (IndentPositionPadding [x09; "a"] 0 0 2 = (-1, -1)%Z
   ∧ ((IndentWidth [x09; "a"] 0).1 < 2)%Z)
  ∨ ∃ j padding,
      IndentPositionPadding [x09; "a"] 0 0 2
      = ((Z.of_nat j - 0)%Z, padding)
      ∧ 1 ≤ j ≤ 2
      ∧ (0 ≤ padding ≤ 3)%Z
      ∧ IndentWidth (take j [x09; "a"]) 0 = ((2 + padding)%Z, Z.of_nat j)
      ∧ ((IndentWidth (take (j - 1) [x09; "a"]) 0).1 < 2)%Z.
Proof.
  apply (IndentPositionPadding_stops_at_width [x09; "a"] 0 0 2); cbn; lia.
Defined.

Lemma DedentPosition_loop_spec cp :
  (0 ≤ cp)%Z →
  ∀ rest i w,
    (0 ≤ w)%Z → (cp + w + 4 * Z.of_nat (length rest) < 2 ^ 63)%Z →
    DedentPosition_loop rest cp i w
    = (i + scan_while indent_byte rest 0,
       width_after cp w (take (scan_while indent_byte rest 0) rest)).
Proof.
  intros Hcp. induction rest as [|c rest IH]; intros i w Hw Hb.
  - cbn. f_equal. lia.
  - cbn [DedentPosition_loop scan_while]. cbn [length] in Hb.
    pose proof (TabWidth_nonneg (cp + w) ltac:(lia)) as [Htw _].
    case_bool_decide as E1.
    + subst c. change (indent_byte x09) with true. cbn [negb].
      rewrite !int_of_small by (rewrite ?int_of_small; lia).
      rewrite IH by lia. rewrite (scan_while_shift _ rest 1).
      cbn [take]. f_equal. lia.
    + case_bool_decide as E2.
      * subst c. change (indent_byte " ") with true. cbn [negb].
        rewrite !int_of_small by lia.
        rewrite IH by lia. rewrite (scan_while_shift _ rest 1).
        cbn [take]. f_equal. lia.
      * replace (indent_byte c) with false
          by (symmetry; unfold indent_byte;
              rewrite !bool_decide_eq_false_2 by assumption; reflexivity).
        cbn. f_equal. lia.
Qed.

(** X14. The two deprecated dedent functions never stop at the requested
    width: for a width other than zero they consume the whole indentation
    of the line, as [IndentWidth] does, and return its position ([paddingv]
    subtracted by [DedentPositionPadding]) with the width in excess of
    [width], or zero when the indentation is narrower. *)
Theorem DedentPosition_consumes_whole_indentation bs cp paddingv width :
  (0 ≤ cp < 2 ^ 31)%Z → (Z.of_nat (length bs) < 2 ^ 31)%Z →
  (width ≠ 0)%Z → (- 2 ^ 31 < width < 2 ^ 31)%Z →
  (- 2 ^ 31 < paddingv < 2 ^ 31)%Z →
  ∃ w pos,
    IndentWidth bs cp = (w, pos)
    ∧ DedentPosition bs cp width = (pos, Z.max (w - width) 0)
    ∧ DedentPositionPadding bs cp paddingv width
      = ((pos - paddingv)%Z, Z.max (w - width) 0).
Proof.
  intros Hcp Hl Hw0 Hw Hp.
  pose proof (scan_while_le indent_byte bs) as Hk.
  set (k := scan_while indent_byte bs 0) in *.
  exists (width_after cp 0 (take k bs)), (Z.of_nat k).
  split; [apply IndentWidth_spec; assumption|].
  pose proof (width_after_bounds cp (take k bs) 0 ltac:(lia) ltac:(lia)) as HW.
  rewrite length_take in HW.
  unfold DedentPosition, DedentPositionPadding.
  replace (width =? 0)%Z with false by (symmetry; zbool).
  rewrite DedentPosition_loop_spec by lia. fold k. cbn [Nat.add].
  set (W := width_after cp 0 (take k bs)) in *.
  destruct (Z.ltb_spec W width) as [Hlt|Hge].
  - replace (W >=? width)%Z with false by (symmetry; zbool).
    rewrite !int_of_small by lia.
    split; f_equal; lia.
  - replace (W >=? width)%Z with true by (symmetry; zbool).
    rewrite !int_of_small by lia.
    split; f_equal; lia.
Qed.

Lemma DedentPosition_consumes_whole_indentation_witness :
  ∃ w pos,
    IndentWidth [x09; " "; " "; "a"] 0 = (w, pos)
    ∧ DedentPosition [x09; " "; " "; "a"] 0 2 = (pos, Z.max (w - 2) 0)
    ∧ DedentPositionPadding [x09; " "; " "; "a"] 0 1 2
      = ((pos - 1)%Z, Z.max (w - 2) 0).
Proof.
  apply (DedentPosition_consumes_whole_indentation
           [x09; " "; " "; "a"] 0 1 2); cbn; lia.
Defined.

Lemma FirstNonSpacePosition_loop_spec :
  ∀ rest i,
    FirstNonSpacePosition_loop rest i
    = match rest !! scan_while indent_byte rest 0 with
      | None => (-1)%Z
      | Some c =>
        if bool_decide (c = x0a) then (-1)%Z
        else Z.of_nat (i + scan_while indent_byte rest 0)
      end.
Proof.
  induction rest as [|c rest IH]; intros i; [reflexivity|].
  cbn [FirstNonSpacePosition_loop scan_while].
  fold (indent_byte c). destruct (indent_byte c) eqn:E; cbn [negb].
  - rewrite IH, (scan_while_shift _ rest 1). cbn [lookup list_lookup Nat.add].
    destruct (rest !! _); [|reflexivity].
    case_bool_decide; [reflexivity|]. f_equal. lia.
  - cbn. case_bool_decide; [reflexivity|]. f_equal. lia.
Qed.

(** X15. [FirstNonSpacePosition] skips the leading spaces and tabs; it
    returns the index of the byte that follows them, or [-1] when there is
    none or when it is a newline. *)
Theorem FirstNonSpacePosition_skips_indentation bs :
  ∃ k, k ≤ length bs
    ∧ (∀ c, c ∈ take k bs → c = " " ∨ c = x09)
    ∧ match bs !! k with
      | None => FirstNonSpacePosition bs = (-1)%Z
      | Some c =>
        c ≠ " " ∧ c ≠ x09
        ∧ FirstNonSpacePosition bs
          = if bool_decide (c = x0a) then (-1)%Z else Z.of_nat k
      end.
Proof.
  exists (scan_while indent_byte bs 0).
  split; [apply scan_while_le|]. split.
  - intros c Hc. apply indent_byte_cases.
    pose proof (scan_while_prefix indent_byte bs) as Hp.
    rewrite Forall_forall in Hp. apply (Hp c Hc).
  - unfold FirstNonSpacePosition. rewrite FirstNonSpacePosition_loop_spec.
    destruct (bs !! _) as [c|] eqn:Hc; [|reflexivity].
    apply scan_while_stop in Hc.
    split; [intros ->; discriminate|]. split; [intros ->; discriminate|].
    reflexivity.
Qed.

(** ** FindURLIndex *)

Lemma urlTable_classes c :
  urlTable_has c 7 = is_letter c
  ∧ urlTable_has c 4 = is_scheme_byte c
  ∧ urlTable_has c 1 = is_url_byte c.
Proof. destruct c; vm_compute; repeat split. Qed.

Lemma scan_while_ext p q l :
  (∀ c, p c = q c) → ∀ i, scan_while p l i = scan_while q l i.
Proof.
  intros H. induction l as [|c l IH]; intros i; cbn [scan_while]; [reflexivity|].
  rewrite H, IH. reflexivity.
Qed.

Lemma scan_while_app_stop p l t :
  Forall (λ c, p c = true) l → (∀ c, head t = Some c → p c = false) →
  scan_while p (l ++ t) 0 = length l.
Proof.
  intros Hl Ht. induction Hl as [|x l Hx _ IH]; cbn [app scan_while length].
  - destruct t as [|c t]; [reflexivity|]. cbn [scan_while].
    rewrite (Ht c eq_refl). reflexivity.
  - rewrite Hx. cbn [negb]. rewrite scan_while_shift, IH. lia.
Qed.

Lemma FindURLIndex_unfold c0 t :
  FindURLIndex (c0 :: t)
  = Some (if negb (is_letter c0) then (-1)%Z
          else
            let k := scan_while is_scheme_byte t 0 in
            if bool_decide (k = 0) || bool_decide (32 < k)
               || bool_decide (length t ≤ k)
            then (-1)%Z
            else match t !! k with
                 | Some c =>
                   if bool_decide (c = ":") then
                     Z.of_nat (k + 2 + scan_while is_url_byte (drop (k + 1) t) 0)
                   else (-1)%Z
                 | None => (-1)%Z
                 end).
Proof.
  unfold FindURLIndex. cbn [length lookup list_lookup drop].
  rewrite (bool_decide_eq_true_2 (0 < S (length t))) by lia.
  rewrite drop_0. cbn [and_then mbind option_bind].
  destruct (urlTable_classes c0) as (-> & _ & _).
  destruct (is_letter c0); cbn [negb]; [|reflexivity].
  rewrite (scan_while_ext _ is_scheme_byte) by (intros c; apply urlTable_classes).
  rewrite (scan_while_shift _ t 1).
  set (k := scan_while is_scheme_byte t 0). cbv zeta.
  replace (bool_decide (1 + k = 1)) with (bool_decide (k = 0))
    by (apply bool_decide_ext; lia).
  replace (bool_decide (33 < 1 + k)) with (bool_decide (32 < k))
    by (apply bool_decide_ext; lia).
  replace (bool_decide (S (length t) ≤ 1 + k)) with (bool_decide (length t ≤ k))
    by (apply bool_decide_ext; lia).
  destruct (_ || _ || _) eqn:E; [reflexivity|].
  apply orb_false_elim in E as [_ E]. apply bool_decide_eq_false in E.
  change ((c0 :: t) !! (1 + k)) with (t !! k).
  destruct (lookup_in_range t k ltac:(lia)) as [c Hc]. rewrite Hc.
  cbn [mbind option_bind].
  case_bool_decide; cbn [negb]; [|reflexivity].
  do 2 f_equal. cbn [drop].
  rewrite (scan_while_ext _ is_url_byte) by (intros x; apply urlTable_classes).
  change (drop (1 + k + 1) (c0 :: t)) with (drop (k + 1) t).
  rewrite (scan_while_shift _ _ (1 + k + 1)). lia.
Qed.

Lemma FindURLIndex_shape b n :
  FindURLIndex b = Some (Z.of_nat n)
  ↔ ∃ c scheme body rest,
      b = c :: scheme ++ ":" :: body ++ rest
      ∧ n = length scheme + 2 + length body
      ∧ is_letter c = true
      ∧ Forall (λ x, is_scheme_byte x = true) scheme
      ∧ 1 ≤ length scheme ≤ 32
      ∧ Forall (λ x, is_url_byte x = true) body
      ∧ (∀ x, head rest = Some x → is_url_byte x = false).
Proof.
  split.
  - destruct b as [|c0 t]; [intros [= H]; lia|].
    rewrite FindURLIndex_unfold. intros [= H].
    destruct (is_letter c0) eqn:El; cbn [negb] in H; [|lia].
    set (k := scan_while is_scheme_byte t 0) in *. cbv zeta in H.
    destruct (bool_decide (k = 0)) eqn:E1; [cbn in H; lia|].
    destruct (bool_decide (32 < k)) eqn:E2; [cbn in H; lia|].
    destruct (bool_decide (length t ≤ k)) eqn:E3; [cbn in H; lia|].
    cbn [orb] in H.
    apply bool_decide_eq_false in E1, E2, E3.
    destruct (t !! k) as [c|] eqn:Hc; [|lia].
    case_bool_decide as Ec; [subst c|lia].
    apply Nat2Z.inj in H.
    set (u := drop (k + 1) t) in *.
    set (m := scan_while is_url_byte u 0) in *.
    pose proof (scan_while_le is_url_byte u) as Hm. fold m in Hm.
    exists c0, (take k t), (take m u), (drop m u).
    split; [|split; [|split; [|split; [|split; [|split]]]]].
    + f_equal. rewrite take_drop. unfold u.
      replace (k + 1) with (S k) by lia.
      rewrite <- (drop_S _ _ _ Hc). rewrite take_drop. reflexivity.
    + rewrite !length_take. lia.
    + exact El.
    + apply scan_while_prefix.
    + rewrite length_take. lia.
    + apply scan_while_prefix.
    + intros x Hx. apply (scan_while_stop is_url_byte u x).
      fold m. rewrite head_lookup, lookup_drop, Nat.add_0_r in Hx. exact Hx.
  - intros (c & scheme & body & rest & -> & -> & Hc & Hs & Hlen & Hb & Hr).
    rewrite FindURLIndex_unfold. rewrite Hc. cbn [negb].
    assert (Hk : scan_while is_scheme_byte (scheme ++ ":" :: body ++ rest) 0
                 = length scheme).
    { apply scan_while_app_stop; [exact Hs|]. intros x [= <-]. reflexivity. }
    rewrite Hk. cbv zeta.
    rewrite (bool_decide_eq_false_2 (length scheme = 0)) by lia.
    rewrite (bool_decide_eq_false_2 (32 < length scheme)) by lia.
    rewrite bool_decide_eq_false_2 by (rewrite length_app; cbn [length]; lia).
    cbn [orb].
    rewrite lookup_app_r by lia. rewrite Nat.sub_diag. cbn [lookup list_lookup].
    rewrite bool_decide_eq_true_2 by reflexivity.
    replace (drop (length scheme + 1) (scheme ++ ":" :: body ++ rest))
      with (body ++ rest).
    2:{ rewrite drop_app_ge by lia.
        replace (length scheme + 1 - length scheme) with 1 by lia.
        reflexivity. }
    rewrite (scan_while_app_stop _ _ _ Hb Hr). do 2 f_equal.
Qed.

(** X16. [FindURLIndex] returns a stop index exactly for inputs that start
    with a letter, 1 to 32 further scheme bytes (letters, digits, [.], [+],
    [-]) and a colon, that is for schemes of 2 to 33 bytes; the index is
    the end of the longest run of bytes other than [<], [>] and the bytes
    up to [0x20] that follows the colon. Every other input gives [-1]. *)
Theorem FindURLIndex_accepts_scheme_colon_body b :
  (FindURLIndex b = Some (-1)%Z ∨ ∃ n, FindURLIndex b = Some (Z.of_nat n))
  ∧ ∀ n,
      FindURLIndex b = Some (Z.of_nat n)
      ↔ ∃ c scheme body rest,
          b = c :: scheme ++ ":" :: body ++ rest
          ∧ n = length scheme + 2 + length body
          ∧ is_letter c = true
          ∧ Forall (λ x, is_scheme_byte x = true) scheme
          ∧ 1 ≤ length scheme ≤ 32
          ∧ Forall (λ x, is_url_byte x = true) body
          ∧ (∀ x, head rest = Some x → is_url_byte x = false).
Proof.
  split; [|intros n; apply FindURLIndex_shape].
  destruct b as [|c0 t]; [left; reflexivity|].
  rewrite FindURLIndex_unfold.
  destruct (negb (is_letter c0)); [left; reflexivity|]. cbv zeta.
  destruct (_ || _ || _); [left; reflexivity|].
  destruct (t !! _) as [c|]; [|left; reflexivity].
  case_bool_decide; [|left; reflexivity].
  right. eexists. reflexivity.
Qed.

(** ** ReadWhile *)

Lemma ReadWhile_loop_spec source pred stop :
  stop ≤ length source →
  ∀ fuel j ok,
    j ≤ stop → stop - j < fuel →
    ∃ j',
      ReadWhile_loop fuel source j stop pred ok
      = Some (j', ok || negb (j' =? j))
      ∧ j ≤ j' ≤ stop
      ∧ (∀ k c, j ≤ k < j' → source !! k = Some c → pred c = true)
      ∧ (∀ c, source !! j' = Some c → j' < stop → pred c = false).
Proof.
  intros Hstop. induction fuel as [|fuel IH]; intros j ok Hj Hf; [lia|].
  cbn [ReadWhile_loop]. case_decide as Hlt.
  - destruct (lookup_in_range source j ltac:(lia)) as [c Hc].
    rewrite Hc. cbn [mbind option_bind]. destruct (pred c) eqn:Ep.
    + destruct (IH (j + 1) true ltac:(lia) ltac:(lia)) as (j' & Hl & Hb & Hall & Hend).
      exists j'. rewrite Hl. cbn [orb].
      replace (j' =? j) with false by (symmetry; apply Nat.eqb_neq; lia).
      rewrite orb_true_r. split; [reflexivity|]. split; [lia|]. split; [|exact Hend].
      intros k d Hk Hd. destruct (decide (k = j)) as [->|Hne].
      * congruence.
      * apply (Hall k d); [lia|exact Hd].
    + exists j. rewrite Nat.eqb_refl, orb_false_r.
      split; [reflexivity|]. split; [lia|]. split; [intros; lia|].
      intros d Hd _. congruence.
  - exists j. rewrite Nat.eqb_refl, orb_false_r.
    split; [reflexivity|]. split; [lia|]. split; intros; lia.
Qed.

(** X17. Between two indexes of the source [ReadWhile] returns the end of
    the longest run of bytes that satisfy [pred], stopping at [index[1]] at
    the latest, and reports whether that run is non-empty. *)
Theorem ReadWhile_reads_longest_run source start stop pred :
  start ≤ stop → stop ≤ length source →
  ∃ j,
    ReadWhile source (start, stop) pred = Some (j, negb (j =? start))
    ∧ start ≤ j ≤ stop
    ∧ (∀ k c, start ≤ k < j → source !! k = Some c → pred c = true)
    ∧ (∀ c, source !! j = Some c → j < stop → pred c = false).
Proof.
  intros Hs Hstop. unfold ReadWhile. cbn [fst snd].
  destruct (ReadWhile_loop_spec source pred stop Hstop
              (S (stop - start)) start false Hs ltac:(lia))
    as (j & Hl & Hb & Hall & Hend).
  exists j. rewrite Hl. cbn [orb]. auto.
Qed.

Lemma ReadWhile_reads_longest_run_witness :
  ∃ j,
    ReadWhile (bytes_of "&#123;x") (2, 7) IsNumeric
    = Some (j, negb (j =? 2))
    ∧ 2 ≤ j ≤ 7
    ∧ (∀ k c, 2 ≤ k < j → bytes_of "&#123;x" !! k = Some c → IsNumeric c = true)
    ∧ (∀ c, bytes_of "&#123;x" !! j = Some c → j < 7 → IsNumeric c = false).
Proof.
  apply (ReadWhile_reads_longest_run (bytes_of "&#123;x") 2 7 IsNumeric);
    cbn; lia.
Defined.

(** ** EscapeHTML: the output *)

Lemma escape_html_byte_safe c :
  forallb (λ x, negb (bool_decide (x = x22) || bool_decide (x = "<")
                      || bool_decide (x = ">")))
          (escape_html_byte_spec c) = true
  ∧ 1 ≤ length (escape_html_byte_spec c).
Proof. destruct c; split; first [reflexivity | vm_compute; lia]. Qed.

(** X18. The output of [EscapeHTML] holds no double quote, no [<] and no
    [>], and it is at least as long as the input. *)
Theorem EscapeHTML_output_has_no_markup v :
  ∃ out,
    EscapeHTML v = Some out
    ∧ (x22 ∉ out) ∧ ("<" ∉ out) ∧ (">" ∉ out)
    ∧ length v ≤ length out.
Proof.
  exists (escape_html_spec v). split; [apply EscapeHTML_spec|].
  assert (Hsafe : ∀ x, x ∈ escape_html_spec v →
            x ≠ x22 ∧ x ≠ "<" ∧ x ≠ ">").
  { intros x Hx. unfold escape_html_spec in Hx.
    apply list_elem_of_In, in_flat_map in Hx as (c & _ & Hx).
    destruct (escape_html_byte_safe c) as [Hc _].
    rewrite forallb_forall in Hc. specialize (Hc x Hx).
    apply negb_true_iff in Hc.
    apply orb_false_elim in Hc as [Hc H3].
    apply orb_false_elim in Hc as [H1 H2].
    apply bool_decide_eq_false in H1, H2, H3. tauto. }
  split; [|split; [|split]].
  - intros H. apply Hsafe in H. tauto.
  - intros H. apply Hsafe in H. tauto.
  - intros H. apply Hsafe in H. tauto.
  - clear Hsafe. unfold escape_html_spec.
    induction v as [|c v IH]; [reflexivity|].
    cbn [flat_map length]. rewrite length_app.
    destruct (escape_html_byte_safe c) as [_ Hc]. lia.
Qed.

(** ** UnescapePunctuations and IsEscapedPunctuation *)

Lemma UnescapePunctuations_spec source :
  UnescapePunctuations source = Some (unescape_punctuations_spec source).
Proof.
  unfold UnescapePunctuations, UnescapePunctuations_cob.
  destruct (UnescapePunctuations_loop_spec source (S (length source)) 0 0
              (NewCopyOnWriteBuffer source)) as (n' & cob' & Hloop & Hfin);
    try lia.
  { intros _. split; reflexivity. }
  rewrite Hloop. cbn [mbind option_bind]. rewrite Hfin.
  rewrite drop_0. reflexivity.
Qed.

Lemma IsEscapedPunctuation_drop source i c rest :
  drop i source = c :: rest →
  IsEscapedPunctuation source i
  = Some (match rest with
          | d :: _ => bool_decide (c = "\") && IsPunct d
          | [] => false
          end).
Proof.
  intros Hd. unfold IsEscapedPunctuation.
  pose proof Hd as Hd'. apply lookup_drop_head in Hd' as (Hc & Hrest & Hlt).
  rewrite Hc. cbn [mbind option_bind].
  case_bool_decide as Ec; cbn [and_then andb]; [|destruct rest; reflexivity].
  destruct rest as [|d rest'].
  - apply (f_equal length) in Hrest. rewrite length_drop in Hrest.
    cbn in Hrest. rewrite bool_decide_eq_false_2 by lia. reflexivity.
  - apply lookup_drop_head in Hrest as (Hd1 & _ & Hlt').
    rewrite bool_decide_eq_true_2 by lia. cbn [and_then].
    replace (i + 1) with (S i) by lia. rewrite Hd1. reflexivity.
Qed.

Lemma unescape_spec_keep c d rest :
  bool_decide (c = "\") && IsPunct d = false →
  unescape_punctuations_spec (c :: d :: rest)
  = c :: unescape_punctuations_spec (d :: rest).
Proof. intros H. cbn [unescape_punctuations_spec]. rewrite H. reflexivity. Qed.

Lemma unescape_spec_length l :
  length (unescape_punctuations_spec l) ≤ length l
  ∧ (unescape_punctuations_spec l = l
     ↔ ∀ i, i < length l → IsEscapedPunctuation l i = Some false).
Proof.
  remember (length l) as m eqn:Hm.
  revert l Hm. induction m as [m IH] using lt_wf_ind. intros l Hm.
  destruct l as [|c rest].
  { cbn in *. subst. split; [lia|]. split; [intros; lia|reflexivity]. }
  assert (Htail : ∀ i, i < length rest →
            IsEscapedPunctuation (c :: rest) (S i)
            = IsEscapedPunctuation rest i).
  { intros i Hi. destruct (drop i rest) as [|x t] eqn:E.
    - apply (f_equal length) in E. rewrite length_drop in E. cbn in E. lia.
    - rewrite (IsEscapedPunctuation_drop rest i x t E).
      apply (IsEscapedPunctuation_drop (c :: rest) (S i) x t). exact E. }
  pose proof (IsEscapedPunctuation_drop (c :: rest) 0 c rest eq_refl) as Hhead.
  destruct rest as [|d rest'].
  { cbn in *. subst. split; [lia|]. split; [|reflexivity].
    intros _ i Hi. replace i with 0 by lia. exact Hhead. }
  cbn [length] in Hm.
  destruct (bool_decide (c = "\") && IsPunct d) eqn:E.
  - destruct (IH (length rest') ltac:(lia) rest' eq_refl) as [Hlen _].
    apply andb_prop in E as [Ec Ed]. apply bool_decide_eq_true in Ec. subst c.
    rewrite (unescape_spec_escape d rest' Ed).
    cbn [length]. subst m. split; [lia|]. split.
    + intros H. apply (f_equal length) in H. cbn [length] in H. lia.
    + intros H. specialize (H 0 ltac:(lia)). rewrite Hhead in H.
      discriminate.
  - destruct (IH (length (d :: rest')) ltac:(cbn [length]; lia) (d :: rest') eq_refl)
      as [Hlen Hiff].
    rewrite (unescape_spec_keep c d rest' E).
    cbn [length] in *. subst m. split; [lia|].
    split.
    + intros H. apply (f_equal tail) in H. cbn [tail] in H.
      pose proof (proj1 Hiff H) as H'. intros [|i] Hi; [exact Hhead|].
      rewrite Htail by lia. apply H'. lia.
    + intros H. f_equal. apply (proj2 Hiff). intros i Hi.
      rewrite <- Htail by lia. apply H. lia.
Qed.

(** X19. [UnescapePunctuations] never lengthens its input, and it returns
    the input itself exactly when [IsEscapedPunctuation] is false at every
    index. *)
Theorem UnescapePunctuations_identity_iff_no_escape source :
  ∃ out,
    UnescapePunctuations source = Some out
    ∧ length out ≤ length source
    ∧ (out = source
       ↔ ∀ i, i < length source → IsEscapedPunctuation source i = Some false).
Proof.
  exists (unescape_punctuations_spec source).
  split; [apply UnescapePunctuations_spec|]. apply unescape_spec_length.
Qed.

(** ** ToRune *)

Lemma scan_back_while_stop p source j :
  (∃ c, source !! j = Some c ∧ p c = false) →
  ∀ fuel pos,
    j ≤ pos → pos < length source → pos - j < fuel →
    (∀ k c, j < k ≤ pos → source !! k = Some c → p c = true) →
    scan_back_while fuel p source (Z.of_nat pos) = Some (Z.of_nat j).
Proof.
  intros (cj & Hcj & Hpj).
  induction fuel as [|fuel IH]; intros pos Hj Hpos Hf Hall; [lia|].
  cbn [scan_back_while].
  replace (0 <=? Z.of_nat pos)%Z with true by (symmetry; zbool).
  rewrite Nat2Z.id.
  destruct (decide (pos = j)) as [->|Hne].
  - rewrite Hcj. cbn [mbind option_bind]. rewrite Hpj. reflexivity.
  - destruct (lookup_in_range source pos Hpos) as [c Hc]. rewrite Hc.
    cbn [mbind option_bind]. rewrite (Hall pos c ltac:(lia) Hc). cbn [negb].
    replace (Z.of_nat pos - 1)%Z with (Z.of_nat (pos - 1)) by lia.
    apply IH; try lia. intros k d Hk. apply Hall. lia.
Qed.

Lemma scan_back_while_all p source :
  ∀ fuel pos,
    pos < length source → pos + 1 < fuel →
    (∀ k c, k ≤ pos → source !! k = Some c → p c = true) →
    scan_back_while fuel p source (Z.of_nat pos) = Some (-1)%Z.
Proof.
  induction fuel as [|fuel IH]; intros pos Hpos Hf Hall; [lia|].
  cbn [scan_back_while].
  replace (0 <=? Z.of_nat pos)%Z with true by (symmetry; zbool).
  rewrite Nat2Z.id.
  destruct (lookup_in_range source pos Hpos) as [c Hc]. rewrite Hc.
  cbn [mbind option_bind]. rewrite (Hall pos c ltac:(lia) Hc). cbn [negb].
  destruct pos as [|pos].
  - destruct fuel; [lia|]. reflexivity.
  - replace (Z.of_nat (S pos) - 1)%Z with (Z.of_nat pos) by lia.
    apply IH; try lia. intros k d Hk. apply Hall. lia.
Qed.

(** X20. At any position inside a character [ToRune] decodes that
    character from its first byte: when [j] is the nearest index at or
    before [pos] whose byte starts a rune, the result is the rune that
    [utf8.DecodeRune] reads at [j]. *)
Theorem ToRune_decodes_from_rune_start
    (DecodeRune : list byte → Z * nat) (source : list byte) (pos j : nat) :
  j ≤ pos → pos < length source →
  (∃ c, source !! j = Some c ∧ RuneStart c = true) →
  (∀ k c, j < k ≤ pos → source !! k = Some c → RuneStart c = false) →
  ToRune DecodeRune source (Z.of_nat pos)
  = Some (DecodeRune (drop j source)).1.
Proof.
  intros Hj Hpos (c & Hc & Hs) Hall. unfold ToRune.
  rewrite (scan_back_while_stop _ source j); try lia.
  - cbn [mbind option_bind].
    replace (Z.of_nat j <? 0)%Z with false by (symmetry; zbool).
    rewrite Nat2Z.id, slice_tail by lia. reflexivity.
  - exists c. rewrite Hs. split; [exact Hc|reflexivity].
  - intros k d Hk Hd. rewrite (Hall k d Hk Hd). reflexivity.
Qed.

Lemma ToRune_decodes_from_rune_start_witness :
  ToRune (λ s, (Z.of_nat (length s), 1)) [x61; xe2; x98; x83; x62] 3
  = Some 4%Z.
Proof.
  apply (ToRune_decodes_from_rune_start (λ s, (Z.of_nat (length s), 1))
           [x61; xe2; x98; x83; x62] 3 1).
  - lia.
  - cbn. lia.
  - exists xe2. split; reflexivity.
  - intros k c Hk Hc.
    assert (Hk' : k = 2 ∨ k = 3) by lia.
    destruct Hk' as [-> | ->]; cbn in Hc; injection Hc as <-; reflexivity.
Defined.

(** X21. [ToRune] panics when [pos] is negative or past the end of the
    source, and also when no byte at or before [pos] starts a rune: the
    backward loop then ends at [-1], which is no slice bound. *)
Theorem ToRune_panics_without_rune_start
    (DecodeRune : list byte → Z * nat) (source : list byte) (pos : Z) :
  (pos < 0)%Z ∨ (Z.of_nat (length source) ≤ pos)%Z
  ∨ (∀ k c, k ≤ Z.to_nat pos → source !! k = Some c → RuneStart c = false) →
  ToRune DecodeRune source pos = None.
Proof.
  intros H. unfold ToRune.
  destruct (Z.ltb_spec pos 0) as [Hneg|Hnn].
  - cbn [scan_back_while].
    replace (0 <=? pos)%Z with false by (symmetry; zbool).
    cbn [mbind option_bind].
    replace (pos <? 0)%Z with true by (symmetry; zbool). reflexivity.
  - destruct (Z.leb_spec (Z.of_nat (length source)) pos) as [Hout|Hin].
    + cbn [scan_back_while].
      replace (0 <=? pos)%Z with true by (symmetry; zbool).
      rewrite lookup_ge_None_2 by lia. reflexivity.
    + destruct H as [H|[H|H]]; [lia|lia|].
      replace pos with (Z.of_nat (Z.to_nat pos)) at 2 by lia.
      rewrite (scan_back_while_all _ source); try lia.
      * reflexivity.
      * intros k c Hk Hc. rewrite (H k c Hk Hc). reflexivity.
Qed.

Lemma ToRune_panics_without_rune_start_witness :
  ToRune (λ _, (RuneError, 1)) [x98; x83; x62] 1 = None.
Proof.
  apply (ToRune_panics_without_rune_start (λ _, (RuneError, 1))
           [x98; x83; x62] 1).
  right. right. intros k c Hk Hc.
  assert (Hk' : k = 0 ∨ k = 1) by (cbn in Hk; lia).
  destruct Hk' as [-> | ->]; cbn in Hc; injection Hc as <-; reflexivity.
Defined.

(** ** URLEscape on ASCII input *)

Lemma url_unsafe_ascii c :
  Byte.to_nat c < 128 → c ≠ "%" → (table_at urlEscapeTable c =? 1) = false →
  table_at utf8lenTable c = 1
  ∧ (if bool_decide (c = " ") then htmlSpace else QueryEscape [c])
    = percent_encode c.
Proof.
  rewrite <- Nat.ltb_lt.
  destruct c; vm_compute; intros H1 H2 H3;
    first [discriminate H1 | discriminate H3 | exfalso; apply H2; reflexivity
          | split; reflexivity].
Qed.

Lemma URLEscape_tail_flush v n cob :
  n ≤ length v → borrowed_ok v n cob →
  Bytes <$> URLEscape_tail v n cob = Some (emitted cob ++ drop n v).
Proof.
  intros Hn Hb. unfold URLEscape_tail, IsCopied, emitted.
  destruct (copied cob) eqn:E; cbn [andb].
  - case_bool_decide as Hlt.
    + rewrite slice_tail by lia. cbn. unfold Write. rewrite E. reflexivity.
    + rewrite drop_ge, app_nil_r by lia. reflexivity.
  - destruct (Hb E) as [-> Hbuf]. cbn. unfold Bytes.
    rewrite Hbuf, drop_0. reflexivity.
Qed.

Lemma URLEscape_loop_ascii v :
  (∀ c, c ∈ v → Byte.to_nat c < 128 ∧ c ≠ "%") →
  ∀ fuel i n cob,
    length v - i < fuel → n ≤ i → i ≤ length v → borrowed_ok v n cob →
    ∃ n' cob',
      URLEscape_loop fuel v i n cob = Some (n', cob')
      ∧ Bytes <$> URLEscape_tail v n' cob'
        = Some (emitted cob ++ take (i - n) (drop n v)
                ++ flat_map url_escape_ascii (drop i v)).
Proof.
  intros Hv.
  induction fuel as [|fuel IH]; intros i n cob Hf Hn Hi Hb; [lia|].
  cbn [URLEscape_loop]. case_decide as Hlt.
  - destruct (drop i v) as [|c rest] eqn:Ed.
    { apply (f_equal length) in Ed. rewrite length_drop in Ed. cbn in Ed. lia. }
    apply lookup_drop_head in Ed as (Hc & Hrest & _). rewrite Hc.
    cbn [mbind option_bind flat_map].
    destruct (Hv c) as [Hascii Hpct]; [eapply list_elem_of_lookup_2, Hc|].
    unfold url_escape_ascii at 1.
    destruct (table_at urlEscapeTable c =? 1) eqn:Esafe.
    + destruct (IH (i + 1) n cob) as (n' & cob' & Hloop & Hfin); try lia;
        [exact Hb|].
      exists n', cob'. split; [exact Hloop|]. rewrite Hfin.
      rewrite (slice_snoc v n i c) by (lia || exact Hc).
      replace (i + 1) with (S i) by lia. rewrite Hrest.
      rewrite <- !app_assoc. reflexivity.
    + destruct (url_unsafe_ascii c Hascii Hpct Esafe) as [Hlen Henc].
      rewrite (bool_decide_eq_false_2 (c = "%") Hpct).
      cbn [andb and_then mbind option_bind]. rewrite Hlen.
      change (1 =? 99) with false. cbv iota.
      assert (Hgo : ∀ w, ∃ n' cob',
                URLEscape_loop fuel v (i + 1) (i + 1)
                  (Write (Write cob (take (i - n) (drop n v))) w)
                = Some (n', cob')
                ∧ Bytes <$> URLEscape_tail v n' cob'
                  = Some (emitted cob ++ take (i - n) (drop n v)
                          ++ w ++ flat_map url_escape_ascii rest)).
      { intros w.
        destruct (IH (i + 1) (i + 1)
                    (Write (Write cob (take (i - n) (drop n v))) w))
          as (n' & cob' & Hloop & Hfin); try lia.
        { apply borrowed_ok_copied, copied_Write. }
        exists n', cob'. split; [exact Hloop|]. rewrite Hfin.
        rewrite !emitted_Write, Nat.sub_diag, take_0, app_nil_l.
        replace (i + 1) with (S i) by lia. rewrite Hrest.
        rewrite <- !app_assoc. reflexivity. }
      rewrite <- Henc. case_bool_decide as Esp.
      * rewrite (slice_Some v n i) by lia. cbn [mbind option_bind]. apply Hgo.
      * rewrite (bool_decide_eq_false_2 (length v < 1)) by lia.
        change (1 =? 0) with false. cbv iota.
        rewrite (slice_Some v n i) by lia. cbn [mbind option_bind].
        rewrite (bool_decide_eq_false_2 (length v < i + 1)) by lia.
        rewrite (slice_Some v i (i + 1)) by lia.
        replace (i + 1 - i) with 1 by lia.
        replace (drop i v) with (c :: rest)
          by (symmetry; rewrite (drop_S _ _ _ Hc); f_equal; exact Hrest).
        cbn [take mbind option_bind]. apply Hgo.
  - exists n, cob. split; [reflexivity|].
    rewrite URLEscape_tail_flush by (lia || exact Hb).
    replace i with (length v) by lia.
    rewrite drop_all. cbn [flat_map]. rewrite app_nil_r.
    do 2 f_equal. rewrite take_ge by (rewrite length_drop; lia). reflexivity.
Qed.

(** X22. On ASCII input without a percent sign [URLEscape], without
    reference resolution, works byte by byte for every entity table: a
    URL-safe byte is kept, every other byte, the space included, becomes
    [%XX] with its two upper-case hexadecimal digits. *)
Theorem URLEscape_percent_encodes_ascii
    (LookUpHTML5EntityByName : list byte → option (list byte)) (v : list byte) :
  (∀ c, c ∈ v → Byte.to_nat c < 128 ∧ c ≠ "%") →
  URLEscape LookUpHTML5EntityByName v false
  = Some (flat_map url_escape_ascii v).
Proof.
  intros Hv. unfold URLEscape, URLEscape_cob. cbn [mbind option_bind].
  destruct (URLEscape_loop_ascii v Hv (S (length v)) 0 0 (NewCopyOnWriteBuffer v))
    as (n' & cob' & Hloop & Hfin); try lia.
  { intros _. split; reflexivity. }
  rewrite Hloop. cbn [mbind option_bind]. rewrite Hfin, drop_0. reflexivity.
Qed.

Lemma URLEscape_percent_encodes_ascii_witness :
  URLEscape (λ _, None) (bytes_of "/a b?q=<x>|y") false
  = Some (bytes_of "/a%20b?q=%3Cx%3E%7Cy").
Proof.
  apply (URLEscape_percent_encodes_ascii (λ _, None)
           (bytes_of "/a b?q=<x>|y")).
  intros c Hc. cbn in Hc.
  repeat (apply elem_of_cons in Hc as [-> | Hc];
          [split; [cbn; lia|discriminate]|]).
  inversion Hc.
Defined.

(** ** Numeric references in general *)

Lemma ResolveNumericReferences_loop_skip source k :
  ∀ fuel i n cob,
    i + k ≤ length source →
    (∀ j, i ≤ j < i + k → source !! j ≠ Some "&") →
    ResolveNumericReferences_loop (k + fuel) source i n cob
    = ResolveNumericReferences_loop fuel source (i + k) n cob.
Proof.
  induction k as [|k IH]; intros fuel i n cob Hlen Hq.
  - rewrite Nat.add_0_r. reflexivity.
  - cbn [Nat.add ResolveNumericReferences_loop].
    rewrite decide_True by lia.
    destruct (lookup_in_range source i ltac:(lia)) as [c Hc]. rewrite Hc.
    cbn [mbind option_bind].
    rewrite bool_decide_eq_false_2
      by (intros ->; apply (Hq i); [lia|exact Hc]).
    rewrite IH by (try lia; intros j Hj; apply Hq; lia).
    f_equal. lia.
Qed.

Lemma ResolveNumericReferences_loop_end source fuel n cob :
  ResolveNumericReferences_loop (S fuel) source (length source) n cob
  = Some (n, cob).
Proof. cbn [ResolveNumericReferences_loop]. rewrite decide_False by lia. reflexivity. Qed.

Lemma lookup_outside_amp (pre mid post : list byte) j :
  "&" ∉ pre → "&" ∉ post →
  j < length pre ∨ length pre + length mid ≤ j →
  (pre ++ mid ++ post) !! j ≠ Some "&".
Proof.
  intros Hpre Hpost [Hj|Hj] H.
  - rewrite lookup_app_l in H by lia. apply Hpre.
    eapply list_elem_of_lookup_2, H.
  - rewrite lookup_app_r, lookup_app_r in H by lia. apply Hpost.
    eapply list_elem_of_lookup_2, H.
Qed.

(** One reference between two stretches without ampersand: what the loop
    body answers at the ampersand decides the result. *)
Lemma ResolveNumericReferences_one (pre mid post enc : list byte) :
  "&" ∉ pre → "&" ∉ mid → "&" ∉ post → mid ≠ [] →
  let source := pre ++ ("&" :: mid) ++ post in
  (numeric_reference source (length pre) 0 (NewCopyOnWriteBuffer source)
   = Some (Some (length pre + length mid, length pre + length mid + 1,
                 Write (Write (NewCopyOnWriteBuffer source) pre) enc)) →
   ResolveNumericReferences source = Some (pre ++ enc ++ post))
  ∧ (numeric_reference source (length pre) 0 (NewCopyOnWriteBuffer source)
     = Some None →
     ResolveNumericReferences source = Some source).
Proof.
  intros Hpre Hmid Hpost Hne source.
  assert (Hlen : length source = length pre + S (length mid) + length post).
  { unfold source. rewrite !length_app. cbn [length]. lia. }
  assert (Hmlen : 1 ≤ length mid) by (destruct mid; [congruence|cbn; lia]).
  assert (Hamp : source !! length pre = Some "&").
  { unfold source. rewrite lookup_app_r by lia.
    rewrite Nat.sub_diag. reflexivity. }
  unfold ResolveNumericReferences, ResolveNumericReferences_cob.
  replace (S (length source))
    with (length pre + S (length post + S (length mid))) by lia.
  rewrite (ResolveNumericReferences_loop_skip source (length pre) _ 0).
  2:{ lia. }
  2:{ intros j Hj. apply lookup_outside_amp; [assumption|assumption|lia]. }
  cbn [Nat.add ResolveNumericReferences_loop].
  rewrite decide_True by lia. rewrite Hamp. cbn [mbind option_bind].
  rewrite bool_decide_eq_true_2 by reflexivity.
  split; intros Hr; rewrite Hr; cbn [mbind option_bind].
  - replace (length pre + length mid + 1) with (length pre + S (length mid)) by lia.
    rewrite ResolveNumericReferences_loop_skip.
    2:{ lia. }
    2:{ intros j Hj. apply lookup_outside_amp; [assumption|assumption|].
        cbn [length]. lia. }
    replace (length pre + S (length mid) + length post) with (length source) by lia.
    rewrite ResolveNumericReferences_loop_end. cbn [mbind option_bind].
    unfold flush_tail, IsCopied. rewrite copied_Write.
    rewrite slice_tail by lia.
    cbn [fmap option_fmap option_map mbind option_bind].
    f_equal. unfold source.
    rewrite drop_app_ge by lia.
    replace (length pre + S (length mid) - length pre)
      with (length ("&" :: mid)) by (cbn [length]; lia).
    rewrite drop_app_length.
    unfold Bytes, Write, NewCopyOnWriteBuffer. cbn.
    rewrite <- ?app_assoc. reflexivity.
  - replace (length pre + 1 - 1 + 1) with (length pre + 1) by lia.
    replace (length post + S (length mid))
      with ((length mid + length post) + 1) by lia.
    rewrite ResolveNumericReferences_loop_skip.
    2:{ lia. }
    2:{ intros j Hj Hc. unfold source in Hc.
        rewrite lookup_app_r in Hc by lia.
        replace (j - length pre) with (S (j - length pre - 1)) in Hc by lia.
        cbn [app lookup list_lookup] in Hc.
        apply list_elem_of_lookup_2 in Hc.
        apply elem_of_app in Hc as [Hc|Hc]; tauto. }
    replace (length pre + 1 + (length mid + length post)) with (length source) by lia.
    rewrite ResolveNumericReferences_loop_end. reflexivity.
Qed.

Lemma numeric_not_x c :
  IsNumeric c = true →
  c ≠ "x" ∧ c ≠ "X" ∧ byte_le "0" c && byte_le c "9" = true.
Proof.
  intros H. split; [|split]; [intros ->; discriminate H ..|exact H].
Qed.

(** The loop body of [ResolveNumericReferences] at the ampersand of a
    decimal reference. *)
Lemma numeric_reference_decimal (pre ds post s : list byte) n cob :
  ds ≠ [] → Forall (λ x, IsNumeric x = true) ds →
  let source := pre ++ ("&" :: "#" :: ds ++ [";"]) ++ post in
  slice source n (length pre) = Some s →
  numeric_reference source (length pre) n cob
  = Some (if bool_decide (length ds < 8) then
            Some (length pre + length ("#" :: ds ++ [";"]),
                  length pre + length ("#" :: ds ++ [";"]) + 1,
                  Write (Write cob s)
                    (EncodeRune (ToValidRune (rune_of_uint64 (ParseUint ds 0 32)))))
          else None).
Proof.
  intros Hne Hds source Hs. unfold numeric_reference.
  assert (Hsrc : source = (pre ++ ["&"; "#"]) ++ ds ++ ";" :: post).
  { unfold source. rewrite <- !app_assoc. cbn [app]. rewrite <- app_assoc.
    reflexivity. }
  assert (Hlen : length source = length pre + 2 + length ds + 1 + length post).
  { rewrite Hsrc, !length_app. cbn [length]. lia. }
  assert (Hhash : source !! (length pre + 1) = Some "#").
  { rewrite Hsrc, <- app_assoc, lookup_app_r by lia.
    replace (length pre + 1 - length pre) with 1 by lia. reflexivity. }
  destruct ds as [|d ds']; [congruence|].
  assert (Hd : source !! (length pre + 1 + 1) = Some d).
  { rewrite Hsrc, lookup_app_r by (rewrite length_app; cbn; lia).
    rewrite length_app. cbn [length].
    replace (length pre + 1 + 1 - (length pre + 2)) with 0 by lia.
    reflexivity. }
  pose proof Hds as Hds'. apply Forall_cons in Hds' as [Hd0 _].
  destruct (numeric_not_x d Hd0) as (Hx1 & Hx2 & Hnum).
  rewrite (bool_decide_eq_true_2 (length pre + 1 < length source)) by lia.
  cbn [and_then]. rewrite Hhash. cbn [mbind option_bind].
  rewrite (bool_decide_eq_true_2 ("#" = "#")) by reflexivity. cbn [negb].
  rewrite (bool_decide_eq_true_2 (length pre + 1 + 1 < length source)) by lia.
  cbn [negb andb]. rewrite Hd. cbn [mbind option_bind].
  rewrite (bool_decide_eq_false_2 (d = "x") Hx1),
          (bool_decide_eq_false_2 (d = "X") Hx2).
  cbn [orb]. rewrite Hnum.
  unfold ReadWhile. cbn [fst snd].
  pose proof (ReadWhile_loop_run IsNumeric ";" post eq_refl (d :: ds')
                (S (length source - (length pre + 1 + 1))) (pre ++ ["&"; "#"])
                false Hds) as Hrw.
  rewrite <- Hsrc in Hrw. rewrite length_app in Hrw. cbn [length] in Hrw.
  replace (length pre + 2) with (length pre + 1 + 1) in Hrw by lia.
  rewrite Hrw by (cbn [length] in Hlen |- *; lia). clear Hrw.
  cbn [mbind option_bind orb negb].
  rewrite (bool_decide_eq_false_2 (d :: ds' = [])) by discriminate.
  cbn [negb andb].
  rewrite (bool_decide_eq_true_2 (length pre + 1 + 1 + S (length ds') < length source))
    by (cbn [length] in Hlen; lia).
  cbn [andb].
  replace (length pre + 1 + 1 + S (length ds') - (length pre + 1 + 1))
    with (length (d :: ds')) by (cbn [length]; lia).
  case_bool_decide as Hshort; cbn [and_then]; [|reflexivity].
  assert (Hsemi : source !! (length pre + 1 + 1 + S (length ds')) = Some ";").
  { rewrite Hsrc, lookup_app_r by (rewrite length_app; cbn; lia).
    rewrite length_app. cbn [length].
    replace (length pre + 1 + 1 + S (length ds') - (length pre + 2))
      with (length (d :: ds') + 0) by (cbn; lia).
    rewrite lookup_app_r by lia.
    replace (length (d :: ds') + 0 - length (d :: ds')) with 0 by lia.
    reflexivity. }
  rewrite Hsemi. cbn [mbind option_bind].
  rewrite bool_decide_eq_true_2 by reflexivity.
  assert (Hdigits : slice source (length pre + 1 + 1)
                      (length pre + 1 + 1 + S (length ds'))
                    = Some (d :: ds')).
  { rewrite slice_Some by (cbn [length] in Hlen; lia). f_equal.
    rewrite Hsrc.
    rewrite drop_app_length' by (rewrite length_app; cbn; lia).
    apply take_app_length'. cbn. lia. }
  rewrite Hdigits. cbn [mbind option_bind]. unfold write_rune.
  rewrite Hs. cbn [mbind option_bind].
  replace (length ("#" :: (d :: ds') ++ [";"])) with (1 + 1 + S (length ds'))
    by (cbn [length app]; rewrite length_app; cbn [length]; lia).
  rewrite !Nat.add_assoc. reflexivity.
Qed.

Lemma ResolveNumericReferences_decimal (pre ds post : list byte) :
  ("&" ∉ pre) → ("&" ∉ post) →
  ds ≠ [] → Forall (λ x, IsNumeric x = true) ds →
  ResolveNumericReferences (pre ++ ("&" :: "#" :: ds ++ [";"]) ++ post)
  = Some (if bool_decide (length ds < 8) then
            pre ++ EncodeRune (ToValidRune (rune_of_uint64 (ParseUint ds 0 32)))
                ++ post
          else pre ++ ("&" :: "#" :: ds ++ [";"]) ++ post).
Proof.
  intros Hpre Hpost Hne Hds.
  assert (Hmid : "&" ∉ "#" :: ds ++ [";"]).
  { intros H. apply elem_of_cons in H as [H|H]; [discriminate|].
    apply elem_of_app in H as [H|H].
    - rewrite Forall_forall in Hds. specialize (Hds _ H). discriminate.
    - apply list_elem_of_singleton in H. discriminate. }
  pose proof (numeric_reference_decimal pre ds post pre 0
                (NewCopyOnWriteBuffer (pre ++ ("&" :: "#" :: ds ++ [";"]) ++ post))
                Hne Hds) as Hbody.
  cbv zeta in Hbody.
  rewrite slice_Some in Hbody by (rewrite ?length_app; lia).
  rewrite drop_0, Nat.sub_0_r, take_app_length in Hbody.
  specialize (Hbody eq_refl).
  destruct (ResolveNumericReferences_one pre ("#" :: ds ++ [";"]) post
              (EncodeRune (ToValidRune (rune_of_uint64 (ParseUint ds 0 32))))
              Hpre Hmid Hpost ltac:(discriminate)) as [Hyes Hno].
  case_bool_decide as Hshort.
  - apply Hyes. exact Hbody.
  - apply Hno. exact Hbody.
Qed.

(** X23. A decimal reference [&#ds;] between two stretches without
    ampersand, [ds] being one to seven decimal digits, is replaced by the
    UTF-8 encoding of [ToValidRune] of the number [strconv.ParseUint] reads
    in base 0; with eight or more digits the input is returned as it is. *)
Theorem ResolveNumericReferences_decimal_reference (pre ds post : list byte) :
  ("&" ∉ pre) → ("&" ∉ post) →
  ds ≠ [] → Forall (λ x, IsNumeric x = true) ds →
  ResolveNumericReferences (pre ++ ("&" :: "#" :: ds ++ [";"]) ++ post)
  = Some (if bool_decide (length ds < 8) then
            pre ++ EncodeRune (ToValidRune (rune_of_uint64 (ParseUint ds 0 32)))
                ++ post
          else pre ++ ("&" :: "#" :: ds ++ [";"]) ++ post).
Proof. apply ResolveNumericReferences_decimal. Qed.

Lemma ResolveNumericReferences_decimal_reference_witness :
  ResolveNumericReferences
    (bytes_of "a " ++ ("&" :: "#" :: bytes_of "169" ++ [";"]) ++ bytes_of " b")
  = Some (bytes_of "a " ++ [xc2; xa9] ++ bytes_of " b").
Proof.
  apply (ResolveNumericReferences_decimal_reference
           (bytes_of "a ") (bytes_of "169") (bytes_of " b")).
  - intros H. cbn in H.
    repeat (apply elem_of_cons in H as [H|H]; [discriminate|]). inversion H.
  - intros H. cbn in H.
    repeat (apply elem_of_cons in H as [H|H]; [discriminate|]). inversion H.
  - discriminate.
  - repeat constructor.
Defined.

(** The loop body at the ampersand of a hexadecimal reference. *)
Lemma numeric_reference_hex (pre hs post s : list byte) (x : byte) n cob :
  x = "x" ∨ x = "X" →
  hs ≠ [] → Forall (λ c, IsHexDecimal c = true) hs →
  let source := pre ++ ("&" :: "#" :: x :: hs ++ [";"]) ++ post in
  slice source n (length pre) = Some s →
  numeric_reference source (length pre) n cob
  = Some (Some (length pre + length ("#" :: x :: hs ++ [";"]),
                length pre + length ("#" :: x :: hs ++ [";"]) + 1,
                Write (Write cob s)
                  (EncodeRune (ToValidRune (rune_of_uint64 (ParseUint hs 16 32)))))).
Proof.
  intros Hx Hne Hhs source Hs. unfold numeric_reference.
  assert (Hsrc : source = (pre ++ ["&"; "#"; x]) ++ hs ++ ";" :: post).
  { unfold source. rewrite <- !app_assoc. cbn [app]. rewrite <- app_assoc.
    reflexivity. }
  assert (Hlen : length source = length pre + 3 + length hs + 1 + length post).
  { rewrite Hsrc, !length_app. cbn [length]. lia. }
  assert (Hhash : source !! (length pre + 1) = Some "#").
  { rewrite Hsrc, <- app_assoc, lookup_app_r by lia.
    replace (length pre + 1 - length pre) with 1 by lia. reflexivity. }
  assert (Hxx : source !! (length pre + 1 + 1) = Some x).
  { rewrite Hsrc, <- app_assoc, lookup_app_r by lia.
    replace (length pre + 1 + 1 - length pre) with 2 by lia. reflexivity. }
  destruct hs as [|h hs']; [congruence|].
  rewrite (bool_decide_eq_true_2 (length pre + 1 < length source)) by lia.
  cbn [and_then]. rewrite Hhash. cbn [mbind option_bind].
  rewrite (bool_decide_eq_true_2 ("#" = "#")) by reflexivity. cbn [negb].
  rewrite (bool_decide_eq_true_2 (length pre + 1 + 1 < length source)) by lia.
  cbn [negb andb]. rewrite Hxx. cbn [mbind option_bind].
  replace (bool_decide (x = "x") || bool_decide (x = "X")) with true
    by (destruct Hx as [-> | ->]; reflexivity).
  unfold ReadWhile. cbn [fst snd].
  pose proof (ReadWhile_loop_run IsHexDecimal ";" post eq_refl (h :: hs')
                (S (length source - (length pre + 1 + 1 + 1)))
                (pre ++ ["&"; "#"; x]) false Hhs) as Hrw.
  rewrite <- Hsrc in Hrw. rewrite length_app in Hrw. cbn [length] in Hrw.
  replace (length pre + 3) with (length pre + 1 + 1 + 1) in Hrw by lia.
  rewrite Hrw by (cbn [length] in Hlen |- *; lia). clear Hrw.
  cbn [mbind option_bind orb negb].
  rewrite (bool_decide_eq_false_2 (h :: hs' = [])) by discriminate.
  cbn [negb andb].
  rewrite (bool_decide_eq_true_2
             (length pre + 1 + 1 + 1 + S (length hs') < length source))
    by (cbn [length] in Hlen; lia).
  cbn [and_then].
  assert (Hsemi : source !! (length pre + 1 + 1 + 1 + S (length hs')) = Some ";").
  { rewrite Hsrc, lookup_app_r by (rewrite length_app; cbn; lia).
    rewrite length_app. cbn [length].
    replace (length pre + 1 + 1 + 1 + S (length hs') - (length pre + 3))
      with (length (h :: hs') + 0) by (cbn; lia).
    rewrite lookup_app_r by lia.
    replace (length (h :: hs') + 0 - length (h :: hs')) with 0 by lia.
    reflexivity. }
  rewrite Hsemi. cbn [mbind option_bind].
  rewrite bool_decide_eq_true_2 by reflexivity.
  assert (Hdigits : slice source (length pre + 1 + 1 + 1)
                      (length pre + 1 + 1 + 1 + S (length hs'))
                    = Some (h :: hs')).
  { rewrite slice_Some by (cbn [length] in Hlen; lia). f_equal.
    rewrite Hsrc.
    rewrite drop_app_length' by (rewrite length_app; cbn; lia).
    apply take_app_length'. cbn. lia. }
  rewrite Hdigits. cbn [mbind option_bind]. unfold write_rune.
  rewrite Hs. cbn [mbind option_bind].
  replace (length ("#" :: x :: (h :: hs') ++ [";"]))
    with (1 + 1 + 1 + S (length hs'))
    by (cbn [length app]; rewrite length_app; cbn [length]; lia).
  rewrite !Nat.add_assoc. reflexivity.
Qed.

(** X24. A hexadecimal reference [&#xhs;] or [&#Xhs;] between two
    stretches without ampersand is replaced by the UTF-8 encoding of
    [ToValidRune] of the number read in base 16, however many digits [hs]
    has: the limit of seven digits applies to decimal references only. *)
Theorem ResolveNumericReferences_hex_reference (pre hs post : list byte) (x : byte) :
  ("&" ∉ pre) → ("&" ∉ post) → x = "x" ∨ x = "X" →
  hs ≠ [] → Forall (λ c, IsHexDecimal c = true) hs →
  ResolveNumericReferences (pre ++ ("&" :: "#" :: x :: hs ++ [";"]) ++ post)
  = Some (pre ++ EncodeRune (ToValidRune (rune_of_uint64 (ParseUint hs 16 32)))
              ++ post).
Proof.
  intros Hpre Hpost Hx Hne Hhs.
  assert (Hmid : "&" ∉ "#" :: x :: hs ++ [";"]).
  { intros H. apply elem_of_cons in H as [H|H]; [discriminate|].
    apply elem_of_cons in H as [H|H]; [destruct Hx; subst; discriminate|].
    apply elem_of_app in H as [H|H].
    - rewrite Forall_forall in Hhs. specialize (Hhs _ H). discriminate.
    - apply list_elem_of_singleton in H. discriminate. }
  pose proof (numeric_reference_hex pre hs post pre x 0
                (NewCopyOnWriteBuffer (pre ++ ("&" :: "#" :: x :: hs ++ [";"]) ++ post))
                Hx Hne Hhs) as Hbody.
  cbv zeta in Hbody.
  rewrite slice_Some in Hbody by (rewrite ?length_app; lia).
  rewrite drop_0, Nat.sub_0_r, take_app_length in Hbody.
  specialize (Hbody eq_refl).
  destruct (ResolveNumericReferences_one pre ("#" :: x :: hs ++ [";"]) post
              (EncodeRune (ToValidRune (rune_of_uint64 (ParseUint hs 16 32))))
              Hpre Hmid Hpost ltac:(discriminate)) as [Hyes _].
  apply Hyes. exact Hbody.
Qed.

Lemma ResolveNumericReferences_hex_reference_witness :
  ResolveNumericReferences
    (bytes_of "a" ++ ("&" :: "#" :: "X" :: bytes_of "0000000041" ++ [";"])
     ++ bytes_of "b")
  = Some (bytes_of "a" ++ bytes_of "A" ++ bytes_of "b").
Proof.
  apply (ResolveNumericReferences_hex_reference
           (bytes_of "a") (bytes_of "0000000041") (bytes_of "b") "X").
  - intros H. cbn in H.
    repeat (apply elem_of_cons in H as [H|H]; [discriminate|]). inversion H.
  - intros H. cbn in H.
    repeat (apply elem_of_cons in H as [H|H]; [discriminate|]). inversion H.
  - right. reflexivity.
  - discriminate.
  - repeat constructor.
Defined.

(** ** Entity names the table does not know *)

Section UnknownNames.

Variable LookUpHTML5EntityByName : list byte → option (list byte).

Lemma entity_reference_unknown source i n cob :
  (∀ lo hi name, slice source lo hi = Some name →
                 LookUpHTML5EntityByName name = None) →
  i < length source →
  entity_reference LookUpHTML5EntityByName source i n cob = Some None.
Proof.
  intros Hunknown Hi. unfold entity_reference.
  assert (Hh : ∃ b, and_then (bool_decide (i + 1 < length source))
                      (source !! (i + 1) ≫= λ c, Some (bool_decide (c = "#")))
                    = Some b).
  { case_bool_decide as E; cbn [and_then]; [|eauto].
    destruct (lookup_in_range source (i + 1) E) as [c Hc]. rewrite Hc.
    cbn. eauto. }
  destruct Hh as [b ->]. cbn [mbind option_bind].
  destruct b; [reflexivity|].
  destruct (ReadWhile_loop_spec source IsAlphaNumeric (length source)
              ltac:(lia) (S (length source - (i + 1))) (i + 1) false
              ltac:(lia) ltac:(lia)) as (j & Hrw & Hj & _).
  unfold ReadWhile. cbn [fst snd]. rewrite Hrw. cbn [mbind option_bind].
  assert (Hs : ∃ b, and_then ((false || negb (j =? i + 1))
                              && bool_decide (j < length source))
                      (source !! j ≫= λ c, Some (bool_decide (c = ";")))
                    = Some b).
  { destruct (_ && _) eqn:E; cbn [and_then]; [|eauto].
    apply andb_prop in E as [_ E]. apply bool_decide_eq_true in E.
    destruct (lookup_in_range source j E) as [c Hc]. rewrite Hc. cbn. eauto. }
  destruct Hs as [b ->]. cbn [mbind option_bind].
  destruct b; [|reflexivity].
  rewrite (slice_Some source (i + 1) j) by lia. cbn [mbind option_bind].
  rewrite (Hunknown (i + 1) j); [reflexivity|].
  apply slice_Some; lia.
Qed.

Lemma ResolveEntityNames_loop_unknown source :
  (∀ lo hi name, slice source lo hi = Some name →
                 LookUpHTML5EntityByName name = None) →
  ∀ fuel i n cob, length source - i < fuel →
    ResolveEntityNames_loop LookUpHTML5EntityByName fuel source i n cob
    = Some (n, cob).
Proof.
  intros Hunknown. induction fuel as [|fuel IH]; intros i n cob Hf; [lia|].
  cbn [ResolveEntityNames_loop]. case_decide as Hi; [|reflexivity].
  destruct (lookup_in_range source i Hi) as [c Hc]. rewrite Hc.
  cbn [mbind option_bind]. case_bool_decide as Ec.
  - rewrite entity_reference_unknown by assumption. cbn [mbind option_bind].
    apply IH. lia.
  - apply IH. lia.
Qed.

End UnknownNames.

(** X25. [ResolveEntityNames] leaves alone what the table does not know:
    when no stretch of the input is a name of the table, the input is
    returned as it is, without a copy, whatever ampersands, names and
    semicolons it holds. *)
Theorem ResolveEntityNames_unknown_names_kept
    (LookUpHTML5EntityByName : list byte → option (list byte))
    (source : list byte) :
  (∀ lo hi name, slice source lo hi = Some name →
                 LookUpHTML5EntityByName name = None) →
  ResolveEntityNames_cob LookUpHTML5EntityByName source
  = Some (NewCopyOnWriteBuffer source)
  ∧ ResolveEntityNames LookUpHTML5EntityByName source = Some source.
Proof.
  intros H. unfold ResolveEntityNames, ResolveEntityNames_cob.
  rewrite ResolveEntityNames_loop_unknown by (exact H || lia).
  split; reflexivity.
Qed.

Lemma ResolveEntityNames_unknown_names_kept_witness :
  ResolveEntityNames_cob
    (λ name, if bool_decide (name = bytes_of "amp") then Some ["&"] else None)
    (bytes_of "&a;&")
  = Some (NewCopyOnWriteBuffer (bytes_of "&a;&"))
  ∧ ResolveEntityNames
      (λ name, if bool_decide (name = bytes_of "amp") then Some ["&"] else None)
      (bytes_of "&a;&")
    = Some (bytes_of "&a;&").
Proof.
  apply (ResolveEntityNames_unknown_names_kept
           (λ name, if bool_decide (name = bytes_of "amp") then Some ["&"]
                    else None)
           (bytes_of "&a;&")).
  intros lo hi name Hs. rewrite bool_decide_eq_false_2; [reflexivity|].
  intros ->. unfold slice in Hs.
  case_decide as Hb; [|discriminate]. injection Hs as Hs.
  assert (Hlen : hi - lo = 3 ∧ hi ≤ 4).
  { apply (f_equal length) in Hs. rewrite length_take, length_drop in Hs.
    cbn in Hs, Hb. lia. }
  assert (Hc : (lo = 0 ∧ hi = 3) ∨ (lo = 1 ∧ hi = 4)) by lia.
  destruct Hc as [[-> ->] | [-> ->]]; vm_compute in Hs; discriminate Hs.
Defined.

(** ** EncodeRune and UTF8Len *)

Lemma Z_range_forall (P : Z → bool) (lo : Z) (n : nat) :
  forallb P (map (λ k, (lo + Z.of_nat k)%Z) (seq 0 n)) = true →
  ∀ q, (lo ≤ q < lo + Z.of_nat n)%Z → P q = true.
Proof.
  intros H q Hq. rewrite forallb_forall in H. apply H.
  apply in_map_iff. exists (Z.to_nat (q - lo)). split; [lia|].
  apply in_seq. lia.
Qed.

Lemma shiftr_range r k lo hi :
  (0 ≤ k)%Z → (lo * 2 ^ k ≤ r < (hi + 1) * 2 ^ k)%Z →
  (lo ≤ Z.shiftr r k < hi + 1)%Z.
Proof.
  intros Hk Hr. rewrite Z.shiftr_div_pow2 by exact Hk.
  pose proof (Z.pow_pos_nonneg 2 k ltac:(lia) Hk) as Hp.
  split.
  - apply Z.div_le_lower_bound; lia.
  - apply Z.div_lt_upper_bound; lia.
Qed.

(** X26. The table behind [UTF8Len] agrees with the encoder: for every
    rune, valid or not, the first byte that [utf8.EncodeRune] writes has a
    [UTF8Len] equal to the number of bytes written. *)
Theorem EncodeRune_first_byte_UTF8Len (r : Z) :
  (- 2 ^ 31 ≤ r < 2 ^ 31)%Z →
  ∃ b rest, EncodeRune r = b :: rest ∧ UTF8Len b = length (EncodeRune r).
Proof.
  intros Hr. unfold EncodeRune, UTF8Len. cbv zeta.
  destruct (Z.ltb_spec r 0) as [Hneg|Hpos].
  - assert (Hi : (r mod 2 ^ 32 = r + 2 ^ 32)%Z).
    { symmetry. apply Z.mod_unique with (q := (-1)%Z); lia. }
    rewrite Hi.
    replace (r + 2 ^ 32 <=? 127)%Z with false by (symmetry; zbool).
    replace (r + 2 ^ 32 <=? 2047)%Z with false by (symmetry; zbool).
    replace (MaxRune <? r + 2 ^ 32)%Z with true
      by (symmetry; unfold MaxRune; zbool).
    cbn [orb]. eexists _, _. split; reflexivity.
  - rewrite (Z.mod_small r) by lia.
    destruct (Z.leb_spec r 127) as [H1|H1].
    { eexists _, _. split; [reflexivity|]. cbn [length].
      apply Nat.eqb_eq.
      apply (Z_range_forall
               (λ q, table_at utf8lenTable (byte_of_Z q) =? 1) 0 128);
        [vm_compute; reflexivity|lia]. }
    destruct (Z.leb_spec r 2047) as [H2|H2].
    { eexists _, _. split; [reflexivity|]. cbn [length].
      apply Nat.eqb_eq.
      apply (Z_range_forall
               (λ q, table_at utf8lenTable
                       (byte_of_Z (Z.lor 192 (q mod 256))) =? 2) 2 30);
        [vm_compute; reflexivity|].
      pose proof (shiftr_range r 6 2 31 ltac:(lia) ltac:(lia)). lia. }
    destruct (_ || _) eqn:Einv.
    { eexists _, _. split; reflexivity. }
    apply orb_false_elim in Einv as [E1 E2].
    apply Z.ltb_ge in E1. unfold MaxRune in E1.
    destruct (Z.leb_spec r 65535) as [H3|H3].
    { eexists _, _. split; [reflexivity|]. cbn [length].
      apply Nat.eqb_eq.
      apply (Z_range_forall
               (λ q, table_at utf8lenTable
                       (byte_of_Z (Z.lor 224 (q mod 256))) =? 3) 0 16);
        [vm_compute; reflexivity|].
      pose proof (shiftr_range r 12 0 15 ltac:(lia) ltac:(lia)). lia. }
    eexists _, _. split; [reflexivity|]. cbn [length].
    apply Nat.eqb_eq.
    apply (Z_range_forall
             (λ q, table_at utf8lenTable
                     (byte_of_Z (Z.lor 240 (q mod 256))) =? 4) 0 5);
      [vm_compute; reflexivity|].
    pose proof (shiftr_range r 18 0 4 ltac:(lia) ltac:(lia)). lia.
Qed.

Lemma EncodeRune_first_byte_UTF8Len_witness :
  ∃ b rest, EncodeRune 9731 = b :: rest ∧ UTF8Len b = length (EncodeRune 9731).
Proof. apply (EncodeRune_first_byte_UTF8Len 9731). lia. Defined.

(** ** FindClosure *)

Lemma backtick_run_advances bs i :
  bs !! i = Some "`" →
  i < (backtick_run bs i).2 + 1 ∧ (backtick_run bs i).2 ≤ length bs.
Proof.
  intros Hc. unfold backtick_run. cbv zeta. cbn [snd].
  set (p := λ c : byte, bool_decide (c = "`")).
  pose proof (scan_while_le p (drop i bs)) as Hle. rewrite length_drop in Hle.
  pose proof (lookup_lt_Some _ _ _ Hc) as Hlt.
  assert (Hk : 1 ≤ scan_while p (drop i bs) 0).
  { apply scan_while_ge.
    - rewrite length_drop. lia.
    - rewrite (drop_S _ _ _ Hc). cbn [take]. constructor; [reflexivity|constructor]. }
  case_decide; lia.
Qed.

Lemma FindClosure_loop_sound bs opener closure codeSpan allowNesting :
  ∀ fuel i opened codeSpanOpener,
    length bs - i < fuel →
    ∃ r, FindClosure_loop fuel bs opener closure codeSpan allowNesting
           i opened codeSpanOpener = Some r
       ∧ (r = (-1)%Z ∨ ∃ j, r = Z.of_nat j ∧ bs !! j = Some closure).
Proof.
  induction fuel as [|fuel IH]; intros i opened cso Hf; [lia|].
  cbn [FindClosure_loop]. case_decide as Hi; [|eexists; split; [reflexivity|left; reflexivity]].
  destruct (lookup_in_range bs i Hi) as [c Hc]. rewrite Hc.
  cbn [mbind option_bind].
  destruct (codeSpan && negb (cso =? 0) && bool_decide (c = "`")) eqn:E1.
  { apply andb_prop in E1 as [_ E1]. apply bool_decide_eq_true in E1. subst c.
    destruct (backtick_run_advances bs i Hc) as [Ha Hb].
    destruct (backtick_run bs i) as [k i']. cbn [snd] in Ha, Hb.
    apply IH. lia. }
  assert (Hesc : ∃ b, and_then ((cso =? 0) && bool_decide (c = "\")
                                && bool_decide (i < length bs - 1))
                        (bs !! (i + 1) ≫= λ c1, Some (IsPunct c1)) = Some b).
  { destruct ((cso =? 0) && bool_decide (c = "\")
              && bool_decide (i < length bs - 1)) eqn:E;
      cbn [and_then]; [|eauto].
    apply andb_prop in E as [_ E]. apply bool_decide_eq_true in E.
    destruct (lookup_in_range bs (i + 1) ltac:(lia)) as [c1 Hc1].
    rewrite Hc1. cbn. eauto. }
  destruct Hesc as [b ->]. cbn [mbind option_bind].
  destruct b; [apply IH; lia|].
  destruct (codeSpan && (cso =? 0) && bool_decide (c = "`")) eqn:E3.
  { apply andb_prop in E3 as [_ E3]. apply bool_decide_eq_true in E3. subst c.
    destruct (backtick_run_advances bs i Hc) as [Ha Hb].
    destruct (backtick_run bs i) as [k i']. cbn [snd] in Ha, Hb.
    apply IH. lia. }
  clear E1 E3.
  destruct (codeSpan && (cso =? 0) || negb codeSpan); [|apply IH; lia].
  case_bool_decide as Ecl.
  - subst c. cbv zeta. destruct (opened - 1 =? 0)%Z; [|apply IH; lia].
    eexists. split; [reflexivity|]. right. exists i. split; [reflexivity|exact Hc].
  - case_bool_decide as Eop; [|apply IH; lia].
    destruct (negb allowNesting); [|apply IH; lia].
    eexists. split; [reflexivity|]. left. reflexivity.
Qed.

(** X27. [FindClosure] returns on every input, and what it returns is
    [-1] or an index at which the line holds the closure byte. *)
Theorem FindClosure_returns_a_closure_index
    (bs : list byte) (opener closure : byte) (codeSpan allowNesting : bool) :
  ∃ r, FindClosure bs opener closure codeSpan allowNesting = Some r
     ∧ (r = (-1)%Z ∨ ∃ j, r = Z.of_nat j ∧ bs !! j = Some closure).
Proof. apply FindClosure_loop_sound. lia. Qed.

Lemma FindClosure_loop_skip bs opener closure allowNesting k :
  ∀ fuel i,
    i + k ≤ length bs →
    (∀ j c, i ≤ j < i + k → bs !! j = Some c →
            c ≠ "\" ∧ c ≠ opener ∧ c ≠ closure) →
    FindClosure_loop (k + fuel) bs opener closure false allowNesting i 1 0
    = FindClosure_loop fuel bs opener closure false allowNesting (i + k) 1 0.
Proof.
  induction k as [|k IH]; intros fuel i Hlen Hq.
  - rewrite Nat.add_0_r. reflexivity.
  - cbn [Nat.add FindClosure_loop]. rewrite decide_True by lia.
    destruct (lookup_in_range bs i ltac:(lia)) as [c Hc]. rewrite Hc.
    cbn [mbind option_bind andb orb negb].
    destruct (Hq i c ltac:(lia) Hc) as (H1 & H2 & H3).
    rewrite (bool_decide_eq_false_2 (c = "\") H1).
    change (0 =? 0) with true. cbn [andb orb negb and_then mbind option_bind].
    rewrite ?(bool_decide_eq_false_2 (c = closure) H3),
            ?(bool_decide_eq_false_2 (c = opener) H2).
    rewrite IH by (try lia; intros j d Hj; apply Hq; lia).
    f_equal. lia.
Qed.

(** X28. Without code spans, [FindClosure] returns the index of the first
    closure byte when no backslash and no opener stand before it (the
    closure byte itself not being a backslash). *)
Theorem FindClosure_finds_first_closure
    (pre post : list byte) (opener closure : byte) (allowNesting : bool) :
  closure ≠ "\" →
  (∀ c, c ∈ pre → c ≠ "\" ∧ c ≠ opener ∧ c ≠ closure) →
  FindClosure (pre ++ closure :: post) opener closure false allowNesting
  = Some (Z.of_nat (length pre)).
Proof.
  intros Hcl Hpre. unfold FindClosure.
  set (bs := pre ++ closure :: post).
  assert (Hlen : length bs = length pre + S (length post)).
  { unfold bs. rewrite length_app. reflexivity. }
  replace (S (length bs)) with (length pre + S (S (length post))) by lia.
  rewrite (FindClosure_loop_skip bs opener closure allowNesting (length pre) _ 0).
  2:{ lia. }
  2:{ intros j c Hj Hc. apply Hpre. unfold bs in Hc.
      rewrite lookup_app_l in Hc by lia. eapply list_elem_of_lookup_2, Hc. }
  assert (Hc : bs !! length pre = Some closure).
  { unfold bs. rewrite lookup_app_r by lia. rewrite Nat.sub_diag. reflexivity. }
  cbn [Nat.add FindClosure_loop]. rewrite decide_True by lia.
  rewrite Hc. cbn [mbind option_bind andb orb negb].
  rewrite (bool_decide_eq_false_2 (closure = "\") Hcl).
  change (0 =? 0) with true. cbn [andb orb negb and_then mbind option_bind].
  rewrite (bool_decide_eq_true_2 (closure = closure)) by reflexivity.
  reflexivity.
Qed.

Lemma FindClosure_finds_first_closure_witness :
  FindClosure (bytes_of "link text" ++ "]" :: bytes_of "(url)") "[" "]" false true
  = Some 9%Z.
Proof.
  apply (FindClosure_finds_first_closure
           (bytes_of "link text") (bytes_of "(url)") "[" "]" true).
  - discriminate.
  - intros c Hc. cbn in Hc.
    repeat (apply elem_of_cons in Hc as [-> | Hc];
            [repeat split; discriminate|]).
    inversion Hc.
Defined.

(** ** Decimal references with a leading zero *)







